(** * casc-cdn: a shallow embedding of the CASC resolution pipeline

    The development follows the TypeScript sources module by module:
    [BufferReader] (utils/buffer.ts), [Indices] (indices.ts), [BLTE]
    (blte.ts), [Root] (root.ts), [Encodings] (encodings.ts) and [Client]
    (client.ts).  The embedding comes first, then the vocabulary of the
    statements and the concrete inputs, then the lemmas and theorems.

    Conventions of the embedding:
    - a Node [Buffer] is a [list byte]; [subarray] is [take]/[drop] with
      the clamping of the original;
    - a JS [number] holding an integer is a [Z]; the 32-bit coercions of
      the bit operators are written out with [toInt32];
    - a JS exception is the [Throw] outcome of [result]; [RangeError] is
      kept apart from the other errors because the parsers catch it
      selectively;
    - a reader method is a state transformer on the reader, and the state
      it leaves behind is kept also when it throws, as in the original;
    - JS strings are modelled as [string] for ASCII contents (paths, keys
      and locale names of the manifests are ASCII). *)

From Stdlib Require Import ZArith Lia Ascii String List.
From Stdlib.Strings Require Import Byte.
From stdpp Require Import base option list gmap strings.
Import ListNotations.

Local Open Scope Z_scope.

(** ** Exceptions and results

    [RangeError] is the class that the readers throw on a short read and
    that the parsers test with [instanceof]; [Error] carries the fixed
    part of its message (interpolated values are left out). *)

Inductive exn : Type :=
  | RangeError
  | Error (msg : string).

Inductive result (A : Type) : Type :=
  | Ok (a : A)
  | Throw (e : exn).
Arguments Ok {A} a.
Arguments Throw {A} e.

Definition isRangeError (e : exn) : bool :=
  match e with RangeError => true | Error _ => false end.

(** ** Buffers *)

Definition blen (b : list byte) : Z := Z.of_nat (length b).

(** [Buffer.prototype.subarray(start, end)] for [0 <= start]: both ends
    are clamped to the length and an empty buffer is returned when
    [end <= start]. *)
Definition subarray (b : list byte) (start stop : Z) : list byte :=
  take (Z.to_nat (stop - start)) (drop (Z.to_nat start) b).

Definition byteZ (x : byte) : Z := Z.of_N (Byte.to_N x).

(** Big- and little-endian unsigned integers. *)
Definition be_to_Z (bs : list byte) : Z :=
  fold_left (fun acc x => acc * 256 + byteZ x) bs 0.

Definition le_to_Z (bs : list byte) : Z := be_to_Z (rev bs).

(** The [ToInt32] coercion of the JS bit operators. *)
Definition toInt32 (v : Z) : Z :=
  let w := v mod 2 ^ 32 in
  if 2 ^ 31 <=? w then w - 2 ^ 32 else w.

(** [buf.toString('hex', ...)]. *)
Definition hexDigit (n : N) : ascii :=
  match n with
  | 0%N => "0" | 1%N => "1" | 2%N => "2" | 3%N => "3"
  | 4%N => "4" | 5%N => "5" | 6%N => "6" | 7%N => "7"
  | 8%N => "8" | 9%N => "9" | 10%N => "a" | 11%N => "b"
  | 12%N => "c" | 13%N => "d" | 14%N => "e" | _ => "f"
  end%char.

Fixpoint toHex (bs : list byte) : string :=
  match bs with
  | [] => EmptyString
  | x :: bs' =>
      let n := Byte.to_N x in
      String (hexDigit (n / 16)) (String (hexDigit (n mod 16)) (toHex bs'))
  end.

(** ** utils/buffer.ts *)

Module BufferReader.

Record t : Type := mk {
  buf : list byte;
  offset : Z;
  bitOffset : Z;
}.

(** [new BufferReader(buf)] *)
Definition new (b : list byte) : t :=
  {| buf := b; offset := 0; bitOffset := 0 |}.

Definition length (r : t) : Z := blen (buf r).
Definition position (r : t) : Z := offset r.
Definition remaining (r : t) : Z := blen (buf r) - offset r.
Definition eof (r : t) : bool := blen (buf r) <=? offset r.

(** A reader method: the outcome and the reader it leaves behind. *)
Definition M (A : Type) : Type := t -> result A * t.

Definition ret {A} (a : A) : M A := fun r => (Ok a, r).
Definition throw {A} (e : exn) : M A := fun r => (Throw e, r).
Definition bind {A B} (m : M A) (k : A -> M B) : M B :=
  fun r =>
    match m r with
    | (Ok a, r') => k a r'
    | (Throw e, r') => (Throw e, r')
    end.

Module Notations.
Declare Scope reader_scope.
Delimit Scope reader_scope with reader.
Notation "'let*' x ':=' m 'in' k" := (bind m (fun x => k))
  (at level 10, x name, m at level 100, k at level 200) : reader_scope.
Notation "m ';;' k" := (bind m (fun _ => k))
  (at level 100, k at level 200, right associativity) : reader_scope.
End Notations.
Import Notations.
Local Open Scope reader_scope.

Definition ensureAvailable (bytes : Z) : M unit :=
  fun r =>
    if blen (buf r) <? offset r + bytes then (Throw RangeError, r)
    else (Ok tt, r).

Definition alignToByte : M unit :=
  fun r =>
    if negb (bitOffset r =? 0)
    then (Ok tt, {| buf := buf r; offset := offset r + 1; bitOffset := 0 |})
    else (Ok tt, r).

Definition seek (position : Z) : M unit :=
  fun r =>
    if (position <? 0) || (blen (buf r) <? position)
    then (Throw RangeError, r)
    else (Ok tt, {| buf := buf r; offset := position; bitOffset := 0 |}).

Definition skip (bytes : Z) : M unit :=
  fun r => seek (offset r + bytes) r.

(** The bytes [buf[offset .. offset + n)] and the move past them, the
    common tail of the fixed-width reads. *)
Definition take_bytes (n : Z) : M (list byte) :=
  fun r =>
    (Ok (subarray (buf r) (offset r) (offset r + n)),
     {| buf := buf r; offset := offset r + n; bitOffset := bitOffset r |}).

Definition uint8 : M Z :=
  alignToByte ;; ensureAvailable 1 ;;
  let* bs := take_bytes 1 in ret (be_to_Z bs).

Definition uint16be : M Z :=
  alignToByte ;; ensureAvailable 2 ;;
  let* bs := take_bytes 2 in ret (be_to_Z bs).

Definition uint24be : M Z :=
  alignToByte ;; ensureAvailable 3 ;;
  let* b0 := uint8 in
  let* b1 := uint8 in
  let* b2 := uint8 in
  ret (Z.lor (Z.lor (Z.shiftl b0 16) (Z.shiftl b1 8)) b2).

Definition uint32be : M Z :=
  alignToByte ;; ensureAvailable 4 ;;
  let* bs := take_bytes 4 in ret (be_to_Z bs).

Definition uint64be : M Z :=
  alignToByte ;; ensureAvailable 8 ;;
  let* bs := take_bytes 8 in ret (be_to_Z bs).

Definition uint16le : M Z :=
  alignToByte ;; ensureAvailable 2 ;;
  let* bs := take_bytes 2 in ret (le_to_Z bs).

Definition uint32le : M Z :=
  alignToByte ;; ensureAvailable 4 ;;
  let* bs := take_bytes 4 in ret (le_to_Z bs).

Definition int32le : M Z :=
  alignToByte ;; ensureAvailable 4 ;;
  let* bs := take_bytes 4 in ret (toInt32 (le_to_Z bs)).

Definition uint64le : M Z :=
  alignToByte ;; ensureAvailable 8 ;;
  let* bs := take_bytes 8 in ret (le_to_Z bs).

(** [string(length, 'hex')] *)
Definition string_hex (len : Z) : M string :=
  alignToByte ;; ensureAvailable len ;;
  let* bs := take_bytes len in ret (toHex bs).

(** [string(length)] with the default 'utf8' encoding.  The callers
    only compare the result with ASCII literals, and the UTF-8 decoding
    of a byte sequence equals an ASCII literal exactly when the bytes
    are those of the literal, so the bytes themselves are returned. *)
Definition string_utf8 (len : Z) : M (list byte) :=
  alignToByte ;; ensureAvailable len ;;
  take_bytes len.

(** [raw(length?)]: an absent length means [remaining], read before
    the alignment. *)
Definition raw (len : option Z) : M (list byte) :=
  fun r =>
    let n := match len with Some n => n | None => remaining r end in
    (alignToByte ;; ensureAvailable n ;; take_bytes n) r.

(** [bits(count)]: the bits are taken from the most significant end of
    the current byte; [result] is kept in 32 bits by the bit operators. *)
Fixpoint bitsLoop (n : nat) (result : Z) : M Z :=
  match n with
  | O => ret result
  | S n' =>
      ensureAvailable 1 ;;
      fun r =>
        let byte :=
          match buf r !! Z.to_nat (offset r) with
          | Some x => byteZ x
          | None => 0
          end in
        let bit := Z.land (Z.shiftr byte (7 - bitOffset r)) 1 in
        let result' := Z.lor (toInt32 (Z.shiftl result 1)) bit in
        let r' :=
          if bitOffset r + 1 =? 8
          then {| buf := buf r; offset := offset r + 1; bitOffset := 0 |}
          else {| buf := buf r; offset := offset r;
                  bitOffset := bitOffset r + 1 |} in
        bitsLoop n' result' r'
  end.

Definition bits (count : Z) : M Z :=
  if (count <=? 0) || (32 <? count) then throw RangeError
  else bitsLoop (Z.to_nat count) 0.

End BufferReader.

(** ** indices.ts *)

Module Indices.
Import BufferReader.Notations.
Local Open Scope reader_scope.

Inductive IndexSource : Type := archive | patch.

Record IndexEntry : Type := mkEntry {
  eKey : string;
  size : Z;
  offset : Z;
  archiveHash : string;
  source : IndexSource;
}.

Definition pageSize : Z := 4096.

(** The sanity bound [2 * 1024 * 1024] of the size check. *)
Definition maxEntrySize : Z := 2 * 1024 * 1024.

(** [Math.ceil(a / b)] on integers, [b > 0]. *)
Definition ceilDiv (a b : Z) : Z := - ((- a) / b).

(** "Cutting off footer block": only a buffer whose length is not a
    multiple of the page size loses its last (partial) page. *)
Definition cutFooter (buffer : list byte) : list byte :=
  let isPageAligned := blen buffer mod pageSize =? 0 in
  if negb isPageAligned then
    let pagesCount := ceilDiv (blen buffer) pageSize in
    subarray buffer 0 ((pagesCount - 1) * pageSize)
  else buffer.

(** The object literal of the loop body: three reads, in field order. *)
Definition readEntry (hash : string) (src : IndexSource)
  : BufferReader.M IndexEntry :=
  let* k := BufferReader.string_hex 16 in
  let* s := BufferReader.uint32be in
  let* o := BufferReader.uint32be in
  BufferReader.ret
    {| eKey := k; size := s; offset := o; archiveHash := hash; source := src |}.

Definition invalidSize (e : IndexEntry) : bool :=
  (size e <? 0) || (maxEntrySize <? size e).

(** The body of the [try] block; [output] is pushed to only after the
    size check. *)
Definition tryBody (hash : string) (src : IndexSource)
    (output : list IndexEntry) : BufferReader.M (list IndexEntry) :=
  let* entry := readEntry hash src in
  if invalidSize entry
  then BufferReader.throw (Error "Invalid index entry size")
  else BufferReader.ret (output ++ [entry]).

(** [while (!reader.eof()) { try { ... } catch (e) { if (e instanceof
    RangeError) break; } }].  [None] means that the fuel ran out. *)
Fixpoint parseLoop (fuel : nat) (hash : string) (src : IndexSource)
    (reader : BufferReader.t) (output : list IndexEntry)
  : option (list IndexEntry) :=
  match fuel with
  | O => None
  | S fuel' =>
      if BufferReader.eof reader then Some output
      else
        match tryBody hash src output reader with
        | (Ok output', reader') => parseLoop fuel' hash src reader' output'
        | (Throw e, reader') =>
            if isRangeError e then Some output
            else parseLoop fuel' hash src reader' output
        end
  end.

Definition parseIndexEntry (buffer : list byte) (hash : string)
    (src : IndexSource) : option (list IndexEntry) :=
  let buffer := cutFooter buffer in
  parseLoop (S (length buffer)) hash src (BufferReader.new buffer) [].

(** *** What the loop computes, record by record

    [entryAt data] decodes the 24-byte record at the head of [data];
    [keptRecords k data] walks [k] consecutive records and keeps those
    whose size is at most [maxEntrySize]. *)
Definition entryAt (hash : string) (src : IndexSource) (data : list byte)
  : IndexEntry :=
  {| eKey := toHex (take 16 data);
     size := be_to_Z (take 4 (drop 16 data));
     offset := be_to_Z (take 4 (drop 20 data));
     archiveHash := hash;
     source := src |}.

Fixpoint keptRecords (hash : string) (src : IndexSource) (k : nat)
    (data : list byte) : list IndexEntry :=
  match k with
  | O => []
  | S k' =>
      let e := entryAt hash src data in
      (if size e <=? maxEntrySize then [e] else [])
        ++ keptRecords hash src k' (drop 24 data)
  end.

(** Number of complete 24-byte records in [data]. *)
Definition recordCount (data : list byte) : nat := (length data / 24)%nat.

End Indices.

(** ** blte.ts *)

Fixpoint bytes_eqb (a b : list byte) : bool :=
  match a, b with
  | [], [] => true
  | x :: a', y :: b' => Byte.eqb x y && bytes_eqb a' b'
  | _, _ => false
  end.

(** The bytes of an ASCII literal. *)
Definition ascii_bytes (s : string) : list byte := list_byte_of_string s.

(** The two external decompressors, [zlib.unzipSync] and [lz4.decode]. *)
Record Codecs : Type := {
  zlib_unzipSync : list byte -> result (list byte);
  lz4_decode : list byte -> result (list byte);
}.

Module BLTE.
Import BufferReader.Notations.
Local Open Scope reader_scope.

Record BLTEBlock : Type := mkBlock {
  compressedSize : Z;
  decompressedSize : Z;
  hash : string;
  uncompressedHash : option string;
}.

(** The fields of a [BLTEReader] instance. *)
Record t : Type := mk {
  buffer : BufferReader.t;
  blocksCount : Z;
  headerSize : Z;
  blocks : list BLTEBlock;
}.

Definition parseHeaderBlock (format : Z) : BufferReader.M BLTEBlock :=
  let* cs := BufferReader.uint32be in
  let* ds := BufferReader.uint32be in
  let* h := BufferReader.string_hex 16 in
  if format =? 16 then
    let* uh := BufferReader.string_hex 16 in
    BufferReader.ret (mkBlock cs ds h (Some uh))
  else BufferReader.ret (mkBlock cs ds h None).

(** [for (let i = 0; i < this.blocksCount; i++) this.parseHeaderBlock(format)] *)
Fixpoint parseHeaderBlocks (n : nat) (format : Z) (acc : list BLTEBlock)
  : BufferReader.M (list BLTEBlock) :=
  match n with
  | O => BufferReader.ret acc
  | S n' =>
      let* b := parseHeaderBlock format in
      parseHeaderBlocks n' format (acc ++ [b])
  end.

(** [parseHeader]: yields [headerSize], [blocksCount] and [blocks]. *)
Definition parseHeader : BufferReader.M (Z * Z * list BLTEBlock) :=
  let* signature := BufferReader.string_utf8 4 in
  if negb (bytes_eqb signature (ascii_bytes "BLTE"))
  then BufferReader.throw (Error "Invalid BLTE signature")
  else
    let* hs := BufferReader.uint32be in
    if hs =? 0 then BufferReader.throw (Error "Invalid BLTE header size")
    else
      let* format := BufferReader.uint8 in
      if negb (format =? 15) && negb (format =? 16)
      then BufferReader.throw (Error "Invalid BLTE format")
      else
        let* bc := BufferReader.uint24be in
        if bc =? 0 then BufferReader.throw (Error "Invalid BLTE blocks count")
        else
          let* bs := parseHeaderBlocks (Z.to_nat bc) format [] in
          BufferReader.ret (hs, bc, bs).

(** [new BLTEReader(buffer)] *)
Definition new (b : list byte) : result t :=
  match parseHeader (BufferReader.new b) with
  | (Ok (hs, bc, bs), r) => Ok (mk r bc hs bs)
  | (Throw e, _) => Throw e
  end.

(** [calcBlockOffset]: the block is identified by its position in
    [blocks] ([indexOf] compares object identities). *)
Definition calcBlockOffset (this : t) (idx : nat) : Z :=
  let prevBlocks := take idx (blocks this) in
  fold_left (fun acc block => acc + compressedSize block) prevBlocks
    (headerSize this).

(** The argument of [getBlockData]: an index or a block hash. *)
Inductive blockArg : Type :=
  | ByIndex (index : Z)
  | ByHash (hash : string).

Fixpoint findIndex {A} (p : A -> bool) (l : list A) : option nat :=
  match l with
  | [] => None
  | x :: l' => if p x then Some O else S <$> findIndex p l'
  end.

(** The block selected by the argument, with its position. *)
Definition selectBlock (this : t) (arg : blockArg) : option (nat * BLTEBlock) :=
  match arg with
  | ByIndex i =>
      if i <? 0 then None
      else (fun b => (Z.to_nat i, b)) <$> blocks this !! Z.to_nat i
  | ByHash h =>
      match findIndex (fun b => String.eqb (hash b) h) (blocks this) with
      | Some i => (fun b => (i, b)) <$> blocks this !! i
      | None => None
      end
  end.

Section Decoder.
Variable codecs : Codecs.

Definition processZlibBlock (data : list byte) : result (list byte) :=
  match BufferReader.raw None (BufferReader.new data) with
  | (Ok rest, _) => zlib_unzipSync codecs rest
  | (Throw e, _) => Throw e
  end.

Definition processLz4Block (data : list byte) : result (list byte) :=
  let body :=
    let* version := BufferReader.uint8 in
    if negb (version =? 1)
    then BufferReader.throw (Error "Unknown LZ4 version")
    else
      let* size := BufferReader.uint64be in
      let* blockShift := BufferReader.uint8 in
      BufferReader.raw None in
  match body (BufferReader.new data) with
  | (Ok rest, _) => lz4_decode codecs rest
  | (Throw e, _) => Throw e
  end.

Definition processEncryptedBlock (data : list byte) : result (list byte) :=
  Throw (Error "Not implemented").

(** The reads of [getBlockData]: seek to the block, one byte of codec
    tag, [compressedSize - 1] bytes of payload. *)
Definition readBlock (offset : Z) (block : BLTEBlock)
  : BufferReader.M (list byte * list byte) :=
  BufferReader.seek offset ;;
  let* encoding := BufferReader.string_utf8 1 in
  let* data := BufferReader.raw (Some (compressedSize block - 1)) in
  BufferReader.ret (encoding, data).

(** The [switch (encoding)].  [nested] decodes the payload of an 'F'
    block as a BLTE container of its own; [None] is its lack of fuel. *)
Definition decodeBlock (nested : list byte -> option (result (list byte)))
    (encoding data : list byte) : option (result (list byte)) :=
  if bytes_eqb encoding (ascii_bytes "N") then Some (Ok data)
  else if bytes_eqb encoding (ascii_bytes "Z") then Some (processZlibBlock data)
  else if bytes_eqb encoding (ascii_bytes "4") then Some (processLz4Block data)
  else if bytes_eqb encoding (ascii_bytes "F") then nested data
  else if bytes_eqb encoding (ascii_bytes "E")
       then Some (processEncryptedBlock data)
  else Some (Throw (Error "Unknown encoding")).

Definition withBuffer (this : t) (r : BufferReader.t) : t :=
  mk r (blocksCount this) (headerSize this) (blocks this).

Definition getBlockData (nested : list byte -> option (result (list byte)))
    (this : t) (arg : blockArg) : option (result (list byte) * t) :=
  match selectBlock this arg with
  | None => Some (Throw (Error "Block not found"), this)
  | Some (idx, block) =>
      let offset := calcBlockOffset this idx in
      match readBlock offset block (buffer this) with
      | (Throw e, r) => Some (Throw e, withBuffer this r)
      | (Ok (encoding, data), r) =>
          match decodeBlock nested encoding data with
          | Some res => Some (res, withBuffer this r)
          | None => None
          end
      end
  end.

(** [for (let i = 0; i < this.blocks.length; i++)] of [getBlocksData];
    [i] is the current index and [n] the number of rounds left. *)
Fixpoint getBlocksLoop (nested : list byte -> option (result (list byte)))
    (n : nat) (i : Z) (this : t) (resultBuffer : list byte)
  : option (result (list byte) * t) :=
  match n with
  | O => Some (Ok resultBuffer, this)
  | S n' =>
      match getBlockData nested this (ByIndex i) with
      | None => None
      | Some (Throw e, this') => Some (Throw e, this')
      | Some (Ok data, this') =>
          getBlocksLoop nested n' (i + 1) this' (resultBuffer ++ data)
      end
  end.

Definition getBlocksData (nested : list byte -> option (result (list byte)))
    (this : t) : option (result (list byte) * t) :=
  getBlocksLoop nested (length (blocks this)) 0 this [].

(** [new BLTEReader(data).getBlocksData()], with the nesting depth of
    'F' blocks bounded by the fuel. *)
Fixpoint decodeFuel (fuel : nat) (data : list byte)
  : option (result (list byte)) :=
  match fuel with
  | O => None
  | S fuel' =>
      match new data with
      | Throw e => Some (Throw e)
      | Ok this => fst <$> getBlocksData (decodeFuel fuel') this
      end
  end.

(** A nested container is strictly shorter than the one that holds it,
    so the length of the input bounds the depth. *)
Definition decode (data : list byte) : option (result (list byte)) :=
  decodeFuel (S (length data)) data.

End Decoder.
End BLTE.

(** ** JS string operations, on ASCII strings *)

Module JsString.
Local Open Scope string_scope.
Local Open Scope char_scope.

(** [String.prototype.toLowerCase] *)
Definition lowerChar (c : ascii) : ascii :=
  let n := N_of_ascii c in
  if ((65 <=? n) && (n <=? 90))%N then ascii_of_N (n + 32) else c.

Fixpoint toLowerCase (s : string) : string :=
  match s with
  | EmptyString => EmptyString
  | String c s' => String (lowerChar c) (toLowerCase s')
  end.

(** The white space of [trim] and of the regular expression class
    [\s]: tab, line feed, vertical tab, form feed, carriage return and
    space. *)
Definition isSpace (c : ascii) : bool :=
  let n := N_of_ascii c in
  (((9 <=? n) && (n <=? 13)) || (n =? 32))%N.

Fixpoint trimStart (s : string) : string :=
  match s with
  | String c s' => if isSpace c then trimStart s' else s
  | EmptyString => EmptyString
  end.

Fixpoint reverseOnto (s acc : string) : string :=
  match s with
  | EmptyString => acc
  | String c s' => reverseOnto s' (String c acc)
  end.

Definition reverse (s : string) : string := reverseOnto s EmptyString.

Definition trim (s : string) : string :=
  reverse (trimStart (reverse (trimStart s))).

(** [s.split(sep)] for a non-empty separator.  [skip] counts the
    characters of a separator occurrence still to be passed over and
    [cur] is the piece being collected. *)
Fixpoint splitGo (sep : string) (skip : nat) (cur : string) (s : string)
  : list string :=
  match s with
  | EmptyString => [cur]
  | String c s' =>
      match skip with
      | S k => splitGo sep k cur s'
      | O =>
          if String.prefix sep s
          then cur :: splitGo sep (String.length sep - 1) EmptyString s'
          else splitGo sep 0 (cur ++ String c EmptyString)%string s'
      end
  end.

Definition split (sep : string) (s : string) : list string :=
  splitGo sep 0 EmptyString s.

(** [s.includes(pat)] *)
Fixpoint includes (s pat : string) : bool :=
  String.prefix pat s ||
  match s with
  | EmptyString => false
  | String _ s' => includes s' pat
  end.

(** [s.replace(/\\+/, '/')]: the pattern has no [g] flag, so only the
    first (leftmost, longest) run of backslashes is replaced. *)
Fixpoint dropBackslashes (s : string) : string :=
  match s with
  | String c s' => if Ascii.eqb c "\" then dropBackslashes s' else s
  | EmptyString => EmptyString
  end.

Fixpoint replaceBackslashRun (s : string) : string :=
  match s with
  | EmptyString => EmptyString
  | String c s' =>
      if Ascii.eqb c "\" then String "/" (dropBackslashes s')
      else String c (replaceBackslashRun s')
  end.

(** [s.replace(/-\s_/, '')]: removes the first occurrence of a dash, a
    white space character and an underscore in a row. *)
Fixpoint removeDashSpaceUnderscore (s : string) : string :=
  match s with
  | EmptyString => EmptyString
  | String c s' =>
      match s' with
      | String w (String u rest) =>
          if Ascii.eqb c "-" && isSpace w && Ascii.eqb u "_" then rest
          else String c (removeDashSpaceUnderscore s')
      | _ => String c (removeDashSpaceUnderscore s')
      end
  end.

(** [s.charCodeAt(i)] for each position. *)
Definition charCodes (s : string) : list Z :=
  map (fun c => Z.of_N (N_of_ascii c)) (list_ascii_of_string s).

End JsString.

(** ** root.ts *)

Module Root.
Import BufferReader.Notations.
Local Open Scope reader_scope.

Record Locale : Type := mkLocale {
  enUS : bool; koKR : bool; frFR : bool; deDE : bool;
  zhCN : bool; esES : bool; zhTW : bool; enGB : bool;
  enCN : bool; enTW : bool; esMX : bool; ruRU : bool;
  ptBR : bool; itIT : bool; ptPT : bool; plPL : bool;
}.

Record RootEntry : Type := mkEntry {
  fileDataId : Z;
  contentKey : string;
  nameHash : option Z;
  localeFlags : Locale;
  contentFlags : Z;
  _normalizedPath : option string;
  _scopes : option (list string);
}.

Record t : Type := mk {
  entries : list RootEntry;
  totalFileCount : Z;
  namedFileCount : Z;
}.

Definition noLocale : Locale :=
  mkLocale false false false false false false false false
           false false false false false false false false.

(** The argument of [getLocales]: a bit mask (MFST) or a name (War3). *)
Inductive localeArg : Type :=
  | LocaleNumber (flag : Z)
  | LocaleString (name : string).

(** [localeFlag & mask], as a truth value. *)
Definition hasBit (flag mask : Z) : bool :=
  negb (Z.land (toInt32 flag) mask =? 0).

(** [getLocales].  For a name, only the 16 fields of the interface are
    modelled: a name found in the prototype chain of the object literal
    sets none of them. *)
Definition getLocales (localeFlag : localeArg) : Locale :=
  match localeFlag with
  | LocaleString name =>
      let prepared := JsString.removeDashSpaceUnderscore name in
      let named (k : string) := String.eqb prepared k in
      mkLocale (named "enUS") (named "koKR") (named "frFR") (named "deDE")
               (named "zhCN") (named "esES") (named "zhTW") (named "enGB")
               (named "enCN") (named "enTW") (named "esMX") (named "ruRU")
               (named "ptBR") (named "itIT") (named "ptPT") (named "plPL")
  | LocaleNumber flag =>
      mkLocale (hasBit flag 0x2) (hasBit flag 0x4) (hasBit flag 0x10)
               (hasBit flag 0x20) (hasBit flag 0x40) (hasBit flag 0x80)
               (hasBit flag 0x100) (hasBit flag 0x200) (hasBit flag 0x400)
               (hasBit flag 0x800) (hasBit flag 0x1000) (hasBit flag 0x2000)
               (hasBit flag 0x4000) (hasBit flag 0x8000) (hasBit flag 0x10000)
               false
  end.

(** [hashString]: [hash = (hash << 5) - hash + char; hash = hash & hash],
    then [Math.abs]. *)
Definition hashStep (hash char : Z) : Z :=
  toInt32 (toInt32 (Z.shiftl hash 5) - hash + char).

Definition hashString (str : string) : Z :=
  Z.abs (fold_left hashStep (JsString.charCodes str) 0).

(** *** The War3 variant *)

(** [scopes = filePath.split(':'); scopes.pop()] *)
Definition scopesOf (filePath : string) : list string :=
  removelast (JsString.split ":" filePath).

(** [x || ''] on an array element that may be missing. *)
Definition orEmpty (x : option string) : string :=
  match x with Some s => s | None => EmptyString end.

(** One round of the loop over the lines: [Some] is the entry pushed,
    [None] a skipped line (too few parts, or the caught exception). *)
Definition parseWar3Line (line : string) : option RootEntry :=
  let parts := JsString.split "|" line in
  if (length parts <? 2)%nat then None
  else
    let filePath := orEmpty (parts !! 0%nat) in
    let eKey := orEmpty (parts !! 1%nat) in
    let locale := orEmpty (parts !! 2%nat) in
    if String.eqb eKey EmptyString then None
    else
      let pathHash := hashString filePath in
      Some {| fileDataId := pathHash;
              contentKey := eKey;
              nameHash := Some (hashString filePath);
              localeFlags := getLocales (LocaleString locale);
              contentFlags := 0;
              _normalizedPath := Some (JsString.toLowerCase filePath);
              _scopes := Some (scopesOf filePath) |}.

Definition nonBlank (line : string) : bool :=
  (0 <? String.length (JsString.trim line))%nat.

(** [parseWar3]: the entries pushed, in order.  The text is the ASCII
    reading of the bytes from [startOffset] on. *)
Definition parseWar3 (buffer : list byte) (startOffset : Z) : list RootEntry :=
  let text := string_of_list_byte (subarray buffer startOffset (blen buffer)) in
  let lines := filter (fun line => nonBlank line = true)
                 (JsString.split (String "013" (String "010" EmptyString)) text) in
  omap parseWar3Line lines.

(** *** The MFST variant: one block *)

(** [for (let i = 0; i < numRecords; i++) xs.push(read())] *)
Fixpoint readArray {A} (n : nat) (read : BufferReader.M A) (acc : list A)
  : BufferReader.M (list A) :=
  match n with
  | O => BufferReader.ret acc
  | S n' => let* x := read in readArray n' read (acc ++ [x])
  end.

(** What [parseBlock] has read when it starts to build the entries. *)
Record BlockData : Type := mkBlockData {
  numRecords : Z;
  locale : Z;
  blockContentFlags : Z;
  fileDataIdDeltas : list Z;
  contentKeys : list string;
  hasNameHashes : bool;
  nameHashes : list Z;
}.

Definition readBlockData (version : Z) (allowNonNamedFiles : bool)
  : BufferReader.M BlockData :=
  fun reader =>
  if BufferReader.remaining reader <? 8
  then (Throw (Error "Insufficient data for block header"), reader)
  else
   (let* n := BufferReader.uint32le in
    let* lf :=
      if version =? 2 then
        let* l := BufferReader.uint32le in
        let* unk1 := BufferReader.uint32le in
        let* unk2 := BufferReader.uint32le in
        let* unk3 := BufferReader.uint8 in
        BufferReader.ret
          (l, Z.lor (Z.lor (toInt32 unk1) (toInt32 unk2))
                (toInt32 (Z.shiftl unk3 17)))
      else
        let* cf := BufferReader.uint32le in
        let* l := BufferReader.uint32le in
        BufferReader.ret (l, cf) in
    let* deltas := readArray (Z.to_nat n) BufferReader.int32le [] in
    let* keys := readArray (Z.to_nat n) (BufferReader.string_hex 16) [] in
    let has :=
      negb (allowNonNamedFiles
            && negb (Z.land (toInt32 (snd lf)) 0x10000000 =? 0)) in
    let* hashes :=
      if has then readArray (Z.to_nat n) BufferReader.uint64le []
      else BufferReader.ret [] in
    BufferReader.ret (mkBlockData n (fst lf) (snd lf) deltas keys has hashes))
   reader.

(** "Calculate fileDataIDs and store entries": round [i] of the loop,
    with [n] rounds left and the running [currentFileDataId]. *)
Fixpoint buildEntries (bd : BlockData) (n : nat) (i : nat)
    (currentFileDataId : Z) (acc : list RootEntry) : result (list RootEntry) :=
  match n with
  | O => Ok acc
  | S n' =>
      match fileDataIdDeltas bd !! i with
      | None => Throw (Error "No file delta found")
      | Some delta =>
          let current :=
            if (i =? 0)%nat then delta else currentFileDataId + 1 + delta in
          let entry :=
            {| fileDataId := current;
               contentKey := orEmpty (contentKeys bd !! i);
               nameHash := if hasNameHashes bd then nameHashes bd !! i else None;
               localeFlags := getLocales (LocaleNumber (locale bd));
               contentFlags := blockContentFlags bd;
               _normalizedPath := None;
               _scopes := None |} in
          buildEntries bd n' (S i) current (acc ++ [entry])
      end
  end.

(** [parseBlock]: the entries it pushes to [this.entries]. *)
Definition parseBlock (version : Z) (allowNonNamedFiles : bool)
  : BufferReader.M (list RootEntry) :=
  let* bd := readBlockData version allowNonNamedFiles in
  fun reader =>
    (buildEntries bd (Z.to_nat (numRecords bd)) 0 0 [], reader).

(** *** Queries *)

Definition getEntryByCKey (this : t) (cKey : string) : option RootEntry :=
  find (fun e => String.eqb (contentKey e) cKey) (entries this).

Definition normalizeQuery (path : string) : string :=
  JsString.replaceBackslashRun (JsString.toLowerCase path).

Definition matchesPath (normalizedPath : string) (e : RootEntry) : bool :=
  match _normalizedPath e with
  | Some p => JsString.includes p normalizedPath
  | None => false
  end.

Definition getEntryByPath (this : t) (path : string) : list RootEntry :=
  let normalizedPath := normalizeQuery path in
  List.filter (matchesPath normalizedPath) (entries this).

End Root.

(** ** encodings.ts (the table, as the client reads it) *)

Module Encodings.

Record EncodingEntry : Type := mkEntry {
  cKey : string;
  eKeys : list string;
  fileSize : Z;
}.

(** [EncodingTable]: the map of cKey to entry. *)
Record t : Type := mk {
  entries : gmap string EncodingEntry;
}.

Definition getEntry (this : t) (cKey : string) : option EncodingEntry :=
  entries this !! cKey.

Definition getEKeys (this : t) (cKey : string) : option (list string) :=
  eKeys <$> entries this !! cKey.

End Encodings.

(** ** client.ts *)

Module Client.

(** The fields of [CascClient] that the file lookups read.
    [encodingTable] is [None] until [init] has loaded it. *)
Record t : Type := mk {
  encodingTable : option Encodings.t;
  indices : gmap string Indices.IndexEntry;
}.

(** The state of the world around a call: the keys requested from
    [fetchDirectFromCDN] so far, oldest first. *)
Definition FetchLog : Type := list string.

(** An asynchronous method: it runs in a fetch log and leaves one.
    [None] is the lack of fuel of the BLTE decoder. *)
Definition M (A : Type) : Type := FetchLog -> option (result A * FetchLog).

Definition ret {A} (a : A) : M A := fun log => Some (Ok a, log).
Definition throw {A} (e : exn) : M A := fun log => Some (Throw e, log).
Definition bind {A B} (m : M A) (k : A -> M B) : M B :=
  fun log =>
    match m log with
    | Some (Ok a, log') => k a log'
    | Some (Throw e, log') => Some (Throw e, log')
    | None => None
    end.

Module Notations.
Declare Scope client_scope.
Delimit Scope client_scope with client.
Notation "'let*' x ':=' m 'in' k" := (bind m (fun x => k))
  (at level 10, x name, m at level 100, k at level 200) : client_scope.
End Notations.
Import Notations.
Local Open Scope client_scope.

Definition getLocation (this : t) (eKey : string) : option Indices.IndexEntry :=
  indices this !! eKey.

Definition getEKeyByCKey (this : t) (cKey : string) : result (list string) :=
  match encodingTable this with
  | None => Throw (Error "Encoding Table not loaded")
  | Some table =>
      match Encodings.entries table !! cKey with
      | Some entry => Ok (Encodings.eKeys entry)
      | None => Ok [cKey]
      end
  end.

(** The grouping of [getFiles]: the accumulator of the [reduce], as the
    list of its properties in insertion order (archive hashes are hex
    digests, never array indices, so this is the order of
    [Object.entries]). *)
Fixpoint insertGroup (acc : list (string * list Indices.IndexEntry))
    (loc : Indices.IndexEntry) : list (string * list Indices.IndexEntry) :=
  match acc with
  | [] => [(Indices.archiveHash loc, [loc])]
  | (h, locs) :: acc' =>
      if String.eqb h (Indices.archiveHash loc)
      then (h, locs ++ [loc]) :: acc'
      else (h, locs) :: insertGroup acc' loc
  end.

Definition groupByArchive (locs : list Indices.IndexEntry)
  : list (string * list Indices.IndexEntry) :=
  fold_left insertGroup locs [].

(** The [flatMap] of [getFiles]: the candidate eKeys of all cKeys, and
    the [eKeyToCKey] map filled on the way. *)
Fixpoint candidates (this : t) (cKeys : list string)
    (eKeyToCKey : gmap string string)
  : result (list string * gmap string string) :=
  match cKeys with
  | [] => Ok ([], eKeyToCKey)
  | cKey :: cKeys' =>
      match getEKeyByCKey this cKey with
      | Throw e => Throw e
      | Ok eKeys =>
          let m := fold_left (fun m eKey => <[eKey := cKey]> m) eKeys eKeyToCKey in
          match candidates this cKeys' m with
          | Throw e => Throw e
          | Ok (rest, m') => Ok (eKeys ++ rest, m')
          end
      end
  end.

(** [eKeyToCKey.get(loc.eKey) || loc.eKey] *)
Definition originalCKey (eKeyToCKey : gmap string string)
    (loc : Indices.IndexEntry) : string :=
  match eKeyToCKey !! Indices.eKey loc with
  | Some c => if String.eqb c EmptyString then Indices.eKey loc else c
  | None => Indices.eKey loc
  end.

(** [Object.fromEntries(results)]: a later pair overrides an earlier one. *)
Definition fromEntries (results : list (string * list byte))
  : gmap string (list byte) :=
  fold_left (fun m kv => <[kv.1 := kv.2]> m) results ∅.

Section Calls.

Variable codecs : Codecs.

(** The content delivery network: [cdn n key] is the outcome of a request
    for [key] made after [n] earlier requests, a buffer or [null]. *)
Variable cdn : nat -> string -> option (list byte).

Definition fetchDirectFromCDN (eKey : string) : M (option (list byte)) :=
  fun log => Some (Ok (cdn (length log) eKey), log ++ [eKey]).

(** [new BLTEReader(buffer.subarray(loc.offset, loc.offset + loc.size))
    .getBlocksData()] *)
Definition decodeSlice (buffer : list byte) (loc : Indices.IndexEntry)
  : M (list byte) :=
  fun log =>
    match BLTE.decode codecs
            (subarray buffer (Indices.offset loc)
               (Indices.offset loc + Indices.size loc)) with
    | Some res => Some (res, log)
    | None => None
    end.

(** The loop of [getFile] over the candidate eKeys. *)
Fixpoint getFileLoop (this : t) (cKey : string) (eKeys : list string)
  : M (option (list byte)) :=
  match eKeys with
  | [] => ret None
  | eKey :: eKeys' =>
      match getLocation this eKey with
      | None => getFileLoop this cKey eKeys'
      | Some loc =>
          let* buffer := fetchDirectFromCDN (Indices.archiveHash loc) in
          match buffer with
          | None => throw (Error "Error getting data block")
          | Some buffer =>
              let* data := decodeSlice buffer loc in
              ret (Some data)
          end
      end
  end.

Definition getFile (this : t) (cKey : string) : M (option (list byte)) :=
  match getEKeyByCKey this cKey with
  | Throw e => throw e
  | Ok eKeys => getFileLoop this cKey eKeys
  end.

(** The inner loop of [getFiles]: the slices of one archive, all cut from
    the buffer that was fetched for it. *)
Fixpoint decodeSlices (eKeyToCKey : gmap string string) (buffer : list byte)
    (locs : list Indices.IndexEntry) (out : list (string * list byte))
  : M (list (string * list byte)) :=
  match locs with
  | [] => ret out
  | loc :: locs' =>
      let* data := decodeSlice buffer loc in
      decodeSlices eKeyToCKey buffer locs'
        (out ++ [(originalCKey eKeyToCKey loc, data)])
  end.

(** The outer loop of [getFiles], over [Object.entries(locations)]. *)
Fixpoint fetchGroups (eKeyToCKey : gmap string string)
    (groups : list (string * list Indices.IndexEntry))
    (out : list (string * list byte)) : M (list (string * list byte)) :=
  match groups with
  | [] => ret out
  | (archiveHash, locs) :: groups' =>
      let* buffer := fetchDirectFromCDN archiveHash in
      match buffer with
      | None => throw (Error "Error getting data block")
      | Some buffer =>
          let* out' := decodeSlices eKeyToCKey buffer locs out in
          fetchGroups eKeyToCKey groups' out'
      end
  end.

(** The index locations that [getFiles] resolves, before grouping. *)
Definition resolvedLocations (this : t) (eKeys : list string)
  : list Indices.IndexEntry :=
  omap (getLocation this) eKeys.

(** [getFiles]: the pairs handed to the callback, in order; without a
    callback they are the pairs given to [Object.fromEntries]. *)
Definition getFiles (this : t) (cKeys : list string)
  : M (list (string * list byte)) :=
  match candidates this cKeys ∅ with
  | Throw e => throw e
  | Ok (eKeys, eKeyToCKey) =>
      let locations := groupByArchive (resolvedLocations this eKeys) in
      fetchGroups eKeyToCKey locations []
  end.

Definition getFilesRecord (this : t) (cKeys : list string)
  : M (gmap string (list byte)) :=
  let* results := getFiles this cKeys in
  ret (fromEntries results).

End Calls.
End Client.

(** ** encodings.ts: the parser of the table *)

Module EncodingTable.

(** A JS [Map] with string keys, as the list of its entries in insertion
    order.  [Map.prototype.set] on a key that is present replaces the
    value and keeps the position. *)
Fixpoint mapSet {V : Type} (key : string) (v : V) (m : list (string * V))
  : list (string * V) :=
  match m with
  | [] => [(key, v)]
  | (k, v0) :: m' =>
      if String.eqb k key then (k, v) :: m' else (k, v0) :: mapSet key v m'
  end.

Fixpoint mapGet {V : Type} (key : string) (m : list (string * V)) : option V :=
  match m with
  | [] => None
  | (k, v) :: m' => if String.eqb k key then Some v else mapGet key m'
  end.

(** [EncodingTable]: [entries] is the [Map] of cKey to entry. *)
Record t : Type := mk {
  entries : list (string * Encodings.EncodingEntry);
}.

(** [buffer.readUIntBE(offset, n)] and its fixed-width variants, inside
    the bounds that the parser has checked before each of them. *)
Definition readUIntBE (buffer : list byte) (offset n : Z) : Z :=
  be_to_Z (subarray buffer offset (offset + n)).

(** [buffer.toString('hex', start, end)] *)
Definition hexSlice (buffer : list byte) (start stop : Z) : string :=
  toHex (subarray buffer start stop).

(** The inner [for] loop over the eKeys of an entry: it stops early when
    the next key would pass the end of the buffer. *)
Fixpoint readEKeys (n : nat) (buffer : list byte) (eKeyLength : Z)
    (cursor : Z) (eKeys : list string) : list string * Z :=
  match n with
  | O => (eKeys, cursor)
  | S n' =>
      if blen buffer <? cursor + eKeyLength then (eKeys, cursor)
      else
        readEKeys n' buffer eKeyLength (cursor + eKeyLength)
          (eKeys ++ [hexSlice buffer cursor (cursor + eKeyLength)])
  end.

(** The [while (cursor < pageEnd)] loop over the entries of one page.
    [None] means that the fuel ran out. *)
Fixpoint parsePage (fuel : nat) (buffer : list byte) (cKeyLength eKeyLength : Z)
    (pageEnd cursor : Z) (entries : list (string * Encodings.EncodingEntry))
  : option (list (string * Encodings.EncodingEntry)) :=
  match fuel with
  | O => None
  | S fuel' =>
      if negb (cursor <? pageEnd) then Some entries
      else if blen buffer <? cursor + 6 then Some entries
      else
        let keyCount := readUIntBE buffer cursor 1 in
        if keyCount =? 0 then Some entries
        else
          let cursor := cursor + 1 in
          let fileSize := readUIntBE buffer cursor 5 in
          let cursor := cursor + 5 in
          if blen buffer <? cursor + cKeyLength then Some entries
          else
            let cKey := hexSlice buffer cursor (cursor + cKeyLength) in
            let cursor := cursor + cKeyLength in
            let '(eKeys, cursor) :=
              readEKeys (Z.to_nat keyCount) buffer eKeyLength cursor [] in
            parsePage fuel' buffer cKeyLength eKeyLength pageEnd cursor
              (mapSet cKey (Encodings.mkEntry cKey eKeys fileSize) entries)
  end.

(** The [for] loop over the pages, with [n] pages left. *)
Fixpoint parsePages (n : nat) (buffer : list byte)
    (cKeyLength eKeyLength pageMaxSize : Z) (currentOffset : Z)
    (entries : list (string * Encodings.EncodingEntry))
  : option (list (string * Encodings.EncodingEntry)) :=
  match n with
  | O => Some entries
  | S n' =>
      if blen buffer <=? currentOffset then Some entries
      else
        let pageStart := currentOffset in
        let pageEnd := Z.min (pageStart + pageMaxSize) (blen buffer) in
        match parsePage (S (length buffer)) buffer cKeyLength eKeyLength
                pageEnd pageStart entries with
        | None => None
        | Some entries' =>
            parsePages n' buffer cKeyLength eKeyLength pageMaxSize
              (pageStart + pageMaxSize) entries'
        end
  end.

(** [parse], that is [new EncodingTable(buffer)]. *)
Definition parse (buffer : list byte) : option (result t) :=
  if blen buffer <? 22
  then Some (Throw (Error "Buffer too small for Encoding Table"))
  else if negb (bytes_eqb (subarray buffer 0 2) (ascii_bytes "EN"))
  then Some (Throw (Error "Invalid signature"))
  else
    let cKeyLength := readUIntBE buffer 3 1 in
    let eKeyLength := readUIntBE buffer 4 1 in
    let ceKeyPageSizeKB := readUIntBE buffer 5 2 in
    let ceKeyPageCount := readUIntBE buffer 9 4 in
    let eSpecBlockSize := readUIntBE buffer 18 4 in
    let headerSize := 22 in
    let eSpecEnd := headerSize + eSpecBlockSize in
    let ceKeyIndexSize := ceKeyPageCount * 32 in
    let ceKeyPagesStart := eSpecEnd + ceKeyIndexSize in
    match parsePages (Z.to_nat ceKeyPageCount) buffer cKeyLength eKeyLength
            (ceKeyPageSizeKB * 1024) ceKeyPagesStart [] with
    | None => None
    | Some entries => Some (Ok (mk entries))
    end.

Definition getEntry (this : t) (cKey : string) : option Encodings.EncodingEntry :=
  mapGet cKey (entries this).

Definition getEKeys (this : t) (cKey : string) : option (list string) :=
  Encodings.eKeys <$> mapGet cKey (entries this).

(** [eKeys.includes(eKey)] *)
Definition includesKey (eKeys : list string) (eKey : string) : bool :=
  existsb (String.eqb eKey) eKeys.

(** [this.entries.values().find(...)]: the first entry, in insertion
    order, that lists the eKey. *)
Definition getCKeyByEKey (this : t) (eKey : string)
  : option Encodings.EncodingEntry :=
  snd <$> find (fun kv => includesKey (Encodings.eKeys kv.2) eKey) (entries this).

(** The table as the client holds it. *)
Definition toTable (this : t) : Encodings.t :=
  Encodings.mk (list_to_map (entries this)).

(** [parseEncodingTable]: decode the BLTE container, then parse. *)
Definition parseEncodingTable (codecs : Codecs) (encodedBuffer : list byte)
  : option (result t) :=
  match BLTE.decode codecs encodedBuffer with
  | None => None
  | Some (Throw e) => Some (Throw e)
  | Some (Ok decodedBuffer) => parse decodedBuffer
  end.

End EncodingTable.

(** ** root.ts: the constructor of [RootFile] *)

Module RootFile.
Import BufferReader.Notations.
Local Open Scope reader_scope.

(** The header of the MFST variant: the version, the two file counts
    and whether a header size was found. *)
Definition readMFSTHeader (startOffset : Z) : BufferReader.M (Z * Z * Z) :=
  BufferReader.seek startOffset ;;
  let* possibleHeaderSize := BufferReader.uint32le in
  let* hv :=
    if (12 <=? possibleHeaderSize) && (possibleHeaderSize <=? 100) then
      let* version := BufferReader.uint32le in
      BufferReader.ret (possibleHeaderSize, version)
    else
      BufferReader.seek startOffset ;;
      BufferReader.ret (0, 1) in
  let* totalFileCount := BufferReader.uint32le in
  let* namedFileCount := BufferReader.uint32le in
  (if 0 <? fst hv then BufferReader.skip 4 else BufferReader.ret tt) ;;
  BufferReader.ret (snd hv, totalFileCount, namedFileCount).

(** [while (!reader.eof()) { try { this.parseBlock(...) } catch (e) {
    break; } }]: the entries pushed.  [None] means that the fuel ran
    out. *)
Fixpoint blocksLoop (fuel : nat) (version : Z) (allowNonNamedFiles : bool)
    (reader : BufferReader.t) (entries : list Root.RootEntry)
  : option (list Root.RootEntry) :=
  match fuel with
  | O => None
  | S fuel' =>
      if BufferReader.eof reader then Some entries
      else
        match Root.parseBlock version allowNonNamedFiles reader with
        | (Ok es, reader') =>
            blocksLoop fuel' version allowNonNamedFiles reader' (entries ++ es)
        | (Throw _, _) => Some entries
        end
  end.

Definition parseMFST (buffer : list byte) (startOffset : Z)
  : option (result Root.t) :=
  match readMFSTHeader startOffset (BufferReader.new buffer) with
  | (Throw e, _) => Some (Throw e)
  | (Ok (version, totalFileCount, namedFileCount), reader) =>
      let allowNonNamedFiles := negb (totalFileCount =? namedFileCount) in
      match blocksLoop (S (length buffer)) version allowNonNamedFiles reader [] with
      | None => None
      | Some entries => Some (Ok (Root.mk entries totalFileCount namedFileCount))
      end
  end.

(** [parse], that is [new RootFile(buffer)]: the first four bytes select
    the variant. *)
Definition parse (buffer : list byte) : option (result Root.t) :=
  let magic := subarray buffer 0 4 in
  if bytes_eqb magic (ascii_bytes "MFST") then parseMFST buffer 4
  else if bytes_eqb magic (ascii_bytes "War3")
  then Some (Ok (Root.mk (Root.parseWar3 buffer 4) 0 0))
  else Some (Throw (Error "Not implemented format")).

End RootFile.

(** ** client.ts: initialisation and the loading of the indices *)

Module CascClient.
Import Client.Notations.
Local Open Scope client_scope.

(** [CDNLine] of types/config.ts. *)
Record CDNLine : Type := mkCDNLine {
  Name : string;
  Path : string;
  Hosts : list string;
  Servers : list string;
  ConfigPath : string;
}.

Definition hasName (name : string) (c : CDNLine) : bool :=
  String.eqb (Name c) name.

(** The choice of the CDN in [init]: the entry of the region, else the
    entry "eu", else the first one. *)
Definition selectCdn (cdnList : list CDNLine) (region : string)
  : result CDNLine :=
  match find (hasName region) cdnList with
  | Some c => Ok c
  | None =>
      match find (hasName "eu") cdnList with
      | Some c => Ok c
      | None =>
          match cdnList !! 0%nat with
          | Some c => Ok c
          | None => Throw (Error "No CDN found for product")
          end
      end
  end.

(** The hash of the encoding file in [init]: the second token of the
    [encoding] field of the build config when there is one, else the
    first; [None] is a field that is not a string. *)
Definition selectEncodingHash (encodingField : option string) : result string :=
  let encodingKeys :=
    match encodingField with
    | Some s => JsString.split " " s
    | None => []
    end in
  let encodingFileHash :=
    if (1 <? length encodingKeys)%nat then encodingKeys !! 1%nat
    else encodingKeys !! 0%nat in
  match encodingFileHash with
  | Some h =>
      if String.eqb h EmptyString
      then Throw (Error "No encoding file hash found")
      else Ok h
  | None => Throw (Error "No encoding file hash found")
  end.

(** The batches of [loadArchives]: [archives.slice(i, i + batchSize)]
    for [i = 0, batchSize, ...] below [archives.length]; [n] bounds the
    number of rounds. *)
Definition batchSize : nat := 10.

Fixpoint batchesFrom (n : nat) (i : nat) (archives : list string)
  : list (list string) :=
  match n with
  | O => []
  | S n' =>
      if (i <? length archives)%nat
      then take batchSize (drop i archives)
             :: batchesFrom n' (i + batchSize) archives
      else []
  end.

Definition archiveBatches (archives : list string) : list (list string) :=
  batchesFrom (length archives) 0 archives.

(** [entries.forEach((entry) => this.indices.set(entry.eKey, entry))] *)
Definition mergeEntries (indices : gmap string Indices.IndexEntry)
    (entries : list Indices.IndexEntry) : gmap string Indices.IndexEntry :=
  fold_left (fun m entry => <[Indices.eKey entry := entry]> m) entries indices.



Section Calls.
Variable cdn : nat -> string -> option (list byte).

(** The loop of [getEKeyFileByCKey]: the first candidate that the CDN
    delivers. *)
Fixpoint firstFetched (eKeys : list string) : Client.M (option (list byte)) :=
  match eKeys with
  | [] => Client.ret None
  | eKey :: eKeys' =>
      let* buffer := Client.fetchDirectFromCDN cdn eKey in
      match buffer with
      | Some buffer => Client.ret (Some buffer)
      | None => firstFetched eKeys'
      end
  end.

Definition getEKeyFileByCKey (this : Client.t) (cKey : string)
  : Client.M (option (list byte)) :=
  match Client.getEKeyByCKey this cKey with
  | Throw e => Client.throw e
  | Ok eKeys => firstFetched eKeys
  end.

End Calls.
End CascClient.

(** * Vocabulary of the statements

    Predicates and reference functions that the theorems below are
    stated with. *)

(** A byte-aligned reader at position [o] of [b]. *)
Definition readerAt (b : list byte) (o : Z) : BufferReader.t :=
  BufferReader.mk b o 0.

(** A reader method that leaves the underlying buffer alone. *)
Definition keepsBuf {A : Type} (m : BufferReader.M A) : Prop :=
  forall r, BufferReader.buf (snd (m r)) = BufferReader.buf r.


(** The parts of a reader that [getBlockData] leaves alone. *)
Definition sameContainer (this this' : BLTE.t) : Prop :=
  BLTE.blocks this' = BLTE.blocks this /\
  BLTE.headerSize this' = BLTE.headerSize this /\
  BufferReader.buf (BLTE.buffer this') = BufferReader.buf (BLTE.buffer this).




(** The normalization that the documentation of [getEntryByPath]
    describes: every run of backslashes becomes one slash. *)
Fixpoint collapseBackslashRuns (inRun : bool) (s : string) : string :=
  match s with
  | EmptyString => EmptyString
  | String c s' =>
      if Ascii.eqb c "\" then
        if inRun then collapseBackslashRuns true s'
        else String "/" (collapseBackslashRuns true s')
      else String c (collapseBackslashRuns false s')
  end.

(** All locations of a group lie in the archive that keys the group. *)
Definition uniformGroup (g : string * list Indices.IndexEntry) : Prop :=
  Forall (fun l => Indices.archiveHash l = g.1) g.2.

(** What the accumulator of the [reduce] holds after the locations
    [seen]. *)
Record GroupInv (seen : list Indices.IndexEntry)
    (acc : list (string * list Indices.IndexEntry)) : Prop := {
  inv_nodup : NoDup acc.*1;
  inv_keys : forall h, h ∈ acc.*1 <-> h ∈ Indices.archiveHash <$> seen;
  inv_uniform : Forall uniformGroup acc;
  inv_member : forall l, l ∈ seen ->
      exists ls, (Indices.archiveHash l, ls) ∈ acc /\ l ∈ ls;
}.

(** The pair [kd] handed out for the location [loc] is the decoded slice
    of [buffer] at the location, under the originating cKey. *)
Definition decodedFrom (codecs : Codecs) (eKeyToCKey : gmap string string)
    (buffer : list byte)
    (loc : Indices.IndexEntry) (kd : string * list byte) : Prop :=
  kd.1 = Client.originalCKey eKeyToCKey loc /\
  BLTE.decode codecs
    (subarray buffer (Indices.offset loc)
       (Indices.offset loc + Indices.size loc)) = Some (Ok kd.2).

(** * Concrete inputs

    Buffers, manifests and clients on which the code is run in the
    examples. *)


(** The entry that a record of 24 zero bytes stands for. *)
Definition zeroEntry : Indices.IndexEntry :=
  Indices.mkEntry "00000000000000000000000000000000" 0 0 "ab" Indices.archive.

(** A record whose size field is [0xffffffff]. *)
Definition oversizedRecord : list byte :=
  repeat x00 16 ++ [xff; xff; xff; xff] ++ [x00; x00; x00; x00].

(** A record of size 5 at offset 7, and its entry. *)
Definition goodRecord : list byte :=
  repeat x01 16 ++ [x00; x00; x00; x05] ++ [x00; x00; x00; x07].

Definition goodEntry : Indices.IndexEntry :=
  Indices.mkEntry "01010101010101010101010101010101" 5 7 "ab" Indices.archive.

(** A page that starts with the oversized record, followed by the good
    one; the rest of the page is filled with [0xff], that is with further
    records of size [0xffffffff]. *)
Definition oversizedPage : list byte :=
  oversizedRecord ++ goodRecord ++ repeat xff 4048.

(** Stand-ins for the external decompressors where a closed term is
    needed; the blocks of the examples below never reach them. *)
Definition noCodecs : Codecs :=
  {| zlib_unzipSync := fun _ => Throw (Error "zlib");
     lz4_decode := fun _ => Throw (Error "lz4") |}.

(** A container of one block: magic, header size, format [0x0f], block
    count 1, a block entry of compressed size 6 and decompressed size 5
    with a zero hash, then the codec tag and the payload "hello". *)
Definition container (headerSize : byte) (tag : string) : list byte :=
  ascii_bytes "BLTE" ++ [x00; x00; x00; headerSize] ++ [x0f]
    ++ [x00; x00; x01]
    ++ [x00; x00; x00; x06] ++ [x00; x00; x00; x05] ++ repeat x00 16
    ++ ascii_bytes tag ++ ascii_bytes "hello".

(** The container of the scenario, with the given header size field. *)
Definition helloContainer (headerSize : byte) : list byte :=
  container headerSize "N".

(** The scenario's container with the codec tag replaced by 'E'. *)
Definition encryptedReader : BLTE.t :=
  BLTE.mk (BufferReader.mk (container x24 "E") 36 0) 1 36
    [BLTE.mkBlock 6 5 "00000000000000000000000000000000" None].










(** An entry with the given normalized path, and a manifest with one. *)
Definition pathEntry (path : string) : Root.RootEntry :=
  Root.mkEntry (Root.hashString path) "abc" (Some (Root.hashString path))
    Root.noLocale 0 (Some path) (Some []).

Definition slashManifest : Root.t := Root.mk [pathEntry "a/b/c"] 0 0.

(** A client whose encoding table is empty and whose index holds one
    location, keyed "cc": 42 bytes at offset 2 of the archive "ar". *)
Definition looseLocation : Indices.IndexEntry :=
  Indices.mkEntry "cc" 42 2 "ar" Indices.archive.

Definition looseClient : Client.t :=
  Client.mk (Some (Encodings.mk ∅)) {[ "cc"%string := looseLocation ]}.

(** A network on which every archive is two bytes of padding followed by
    the "hello" container. *)
Definition helloCdn (n : nat) (key : string) : option (list byte) :=
  Some ([x00; x00] ++ helloContainer x24).

(** Three locations in two archives. *)
Definition loc1 : Indices.IndexEntry :=
  Indices.mkEntry "e1" 42 0 "ar1" Indices.archive.

Definition loc2 : Indices.IndexEntry :=
  Indices.mkEntry "e2" 42 0 "ar2" Indices.archive.

Definition loc3 : Indices.IndexEntry :=
  Indices.mkEntry "e3" 42 42 "ar1" Indices.archive.

(** A client with an empty encoding table that indexes them. *)
Definition twoArchiveClient : Client.t :=
  Client.mk (Some (Encodings.mk ∅))
    (<["e1"%string := loc1]> (<["e2"%string := loc2]> {[ "e3"%string := loc3 ]})).

(** A network on which every archive is the "hello" container twice. *)
Definition twinCdn (n : nat) (key : string) : option (list byte) :=
  Some (helloContainer x24 ++ helloContainer x24).

(** A network on which every request fails. *)
Definition deadCdn (n : nat) (key : string) : option (list byte) := None.

(** * Vocabulary of the further properties *)

(** The reader method [m] reads a number of exactly [n] bytes: on a
    byte-aligned reader it either throws [RangeError], for lack of [n]
    bytes, and leaves the reader as it was, or it moves the reader by [n]
    bytes and returns a value between [lo] (included) and [hi]. *)
Definition readsWidth (m : BufferReader.M Z) (n lo hi : Z) : Prop :=
  forall (b : list byte) (o : Z),
    match m (readerAt b o) with
    | (Ok v, r') => o + n <= blen b /\ r' = readerAt b (o + n) /\ lo <= v < hi
    | (Throw e, r') => blen b < o + n /\ e = RangeError /\ r' = readerAt b o
    end.


(** The size of a block entry of a BLTE header. *)
Definition entrySize (format : Z) : Z := if format =? 16 then 40 else 24.

(** The block entry at position [o] of a BLTE header. *)
Definition blockAt (format : Z) (b : list byte) (o : Z) : BLTE.BLTEBlock :=
  BLTE.mkBlock (be_to_Z (subarray b o (o + 4)))
    (be_to_Z (subarray b (o + 4) (o + 4 + 4)))
    (toHex (subarray b (o + 4 + 4) (o + 4 + 4 + 16)))
    (if format =? 16
     then Some (toHex (subarray b (o + 4 + 4 + 16) (o + 4 + 4 + 16 + 16)))
     else None).

(** The [n] block entries from position [o] on. *)
Fixpoint blocksAt (n : nat) (format : Z) (b : list byte) (o : Z)
  : list BLTE.BLTEBlock :=
  match n with
  | O => []
  | S n' => blockAt format b o :: blocksAt n' format b (o + entrySize format)
  end.

(** The fields of a block entry that was read from a header. *)
Definition parsedBlock (format : Z) (blk : BLTE.BLTEBlock) : Prop :=
  0 <= BLTE.compressedSize blk < 2 ^ 32 /\
  0 <= BLTE.decompressedSize blk < 2 ^ 32 /\
  (match BLTE.uncompressedHash blk with
   | Some _ => format = 16
   | None => format <> 16
   end).

(** The checks of the BLTE header, position by position, in the order
    in which the constructor of [BLTEReader] makes them, and the reader
    it builds when all of them pass. *)
Definition checkHeader (b : list byte) : result BLTE.t :=
  if blen b <? 4 then Throw RangeError
  else if negb (bytes_eqb (subarray b 0 4) (ascii_bytes "BLTE"))
  then Throw (Error "Invalid BLTE signature")
  else if blen b <? 8 then Throw RangeError
  else
    let hs := be_to_Z (subarray b 4 8) in
    if hs =? 0 then Throw (Error "Invalid BLTE header size")
    else if blen b <? 9 then Throw RangeError
    else
      let format := be_to_Z (subarray b 8 9) in
      if negb (format =? 15) && negb (format =? 16)
      then Throw (Error "Invalid BLTE format")
      else if blen b <? 12 then Throw RangeError
      else
        let bc := be_to_Z (subarray b 9 12) in
        if bc =? 0 then Throw (Error "Invalid BLTE blocks count")
        else if blen b <? 12 + entrySize format * bc then Throw RangeError
        else
          Ok (BLTE.mk (readerAt b (12 + entrySize format * bc)) bc hs
                (blocksAt (Z.to_nat bc) format b 12)).

(** Decompressors that return their input, to follow what is handed to
    them. *)
Definition identityCodecs : Codecs :=
  {| zlib_unzipSync := fun d => Ok d; lz4_decode := fun d => Ok d |}.

(** An LZ4 payload: version 1, eight bytes of size, a block shift, and
    two bytes of data. *)
Definition lz4Payload : list byte :=
  [x01; x00; x00; x00; x00; x00; x00; x00; x02; x10; x41; x42].

(** *** A writer of uncompressed containers

    The inverse of the reader for containers of 'N' blocks: the header
    with one entry of 24 bytes for each payload (compressed size, size,
    a zero hash), then each payload behind its tag byte. *)
Definition byteOfZ (z : Z) : byte :=
  match Byte.of_N (Z.to_N z) with Some x => x | None => x00 end.

Fixpoint be_bytes (n : nat) (v : Z) : list byte :=
  match n with
  | O => []
  | S n' => be_bytes n' (v / 256) ++ [byteOfZ (v mod 256)]
  end.

Definition rawEntry (p : list byte) : list byte :=
  be_bytes 4 (blen p + 1) ++ be_bytes 4 (blen p) ++ repeat x00 16.

Definition rawBlock (p : list byte) : list byte := "N"%byte :: p.

Definition rawBlockOf (p : list byte) : BLTE.BLTEBlock :=
  BLTE.mkBlock (blen p + 1) (blen p) (toHex (repeat x00 16)) None.

Definition encodeRaw (payloads : list (list byte)) : list byte :=
  ascii_bytes "BLTE"
  ++ be_bytes 4 (12 + 24 * Z.of_nat (length payloads))
  ++ [x0f]
  ++ be_bytes 3 (Z.of_nat (length payloads))
  ++ concat (map rawEntry payloads)
  ++ concat (map rawBlock payloads).

(** *** Encoding table *)

(** What holds of an entry of a parsed table with keys of [cKeyLength]
    and [eKeyLength] bytes. *)
Definition tableEntryOk (cKeyLength eKeyLength : Z)
    (kv : string * Encodings.EncodingEntry) : Prop :=
  kv.1 = Encodings.cKey kv.2
  /\ String.length (Encodings.cKey kv.2) = (2 * Z.to_nat cKeyLength)%nat
  /\ 0 <= Encodings.fileSize kv.2 < 2 ^ 40
  /\ (length (Encodings.eKeys kv.2) <= 255)%nat
  /\ Forall (fun k => String.length k = (2 * Z.to_nat eKeyLength)%nat)
       (Encodings.eKeys kv.2).

Definition tableOk (cKeyLength eKeyLength : Z)
    (m : list (string * Encodings.EncodingEntry)) : Prop :=
  Forall (tableEntryOk cKeyLength eKeyLength) m /\ NoDup m.*1.

(** A table of one page with one entry: keys of one byte, pages of
    1 KB, no encoding specifications; the entry has file size 5, the
    content key [aa] and the encoded key [bb]. *)
Definition sampleTable : list byte :=
  ascii_bytes "EN"
  ++ [x01; x01; x01; x00; x01; x00; x01; x00; x00; x00; x01;
      x00; x00; x00; x00; x00; x00; x00; x00; x00]
  ++ repeat x00 32
  ++ [x01; x00; x00; x00; x00; x05; xaa; xbb].

Definition sampleEntry : Encodings.EncodingEntry :=
  Encodings.mkEntry "aa" ["bb"%string] 5.

(** *** Root file *)

(** A reader method that keeps the buffer, never moves the position
    back, and moves it on by at least [k] bytes when it returns. *)
Definition forward {A : Type} (k : Z) (m : BufferReader.M A) : Prop :=
  forall r,
    BufferReader.buf (snd (m r)) = BufferReader.buf r
    /\ BufferReader.offset r <= BufferReader.offset (snd (m r))
    /\ (forall a, fst (m r) = Ok a ->
          BufferReader.offset r + k <= BufferReader.offset (snd (m r))).

(** The header of an MFST manifest, position by position: the version,
    the two file counts and the position of the first block.  The word
    after the magic is taken for a header size when it lies between 12
    and 100; otherwise it is the total file count of a manifest without
    header fields. *)
Definition mfstHeader (b : list byte) : result (Z * Z * Z * Z) :=
  if blen b <? 8 then Throw RangeError
  else
    let possibleHeaderSize := le_to_Z (subarray b 4 8) in
    if (12 <=? possibleHeaderSize) && (possibleHeaderSize <=? 100) then
      if blen b <? 24 then Throw RangeError
      else Ok (le_to_Z (subarray b 8 12), le_to_Z (subarray b 12 16),
               le_to_Z (subarray b 16 20), 24)
    else if blen b <? 12 then Throw RangeError
    else Ok (1, le_to_Z (subarray b 4 8), le_to_Z (subarray b 8 12), 12).


(** A manifest with a header of 24 bytes (header size 24, version 1,
    one file in total, one named) and no block. *)
Definition emptyManifest : list byte :=
  ascii_bytes "MFST"
  ++ [x18; x00; x00; x00; x01; x00; x00; x00; x01; x00; x00; x00;
      x01; x00; x00; x00; x00; x00; x00; x00].

(** A manifest without header fields (200 files in total, none named)
    and one block of one record: no name hash, content flags
    [0x10000000], locale 2, delta 7, a content key of 16 bytes. *)
Definition oneBlockManifest : list byte :=
  ascii_bytes "MFST"
  ++ [xc8; x00; x00; x00; x00; x00; x00; x00]
  ++ [x01; x00; x00; x00; x00; x00; x00; x10; x02; x00; x00; x00]
  ++ [x07; x00; x00; x00]
  ++ repeat xab 16.


(** The polynomial hash [s[0] * 31 ^ (n - 1) + ... + s[n - 1]] over the
    integers. *)
Definition polyHash (s : string) : Z :=
  fold_left (fun h c => 31 * h + c) (JsString.charCodes s) 0.

(** *** Client *)

(** A CDN list of one entry, and an index server that answers every
    request with [oversizedPage]. *)
Definition euCdn : CascClient.CDNLine :=
  CascClient.mkCDNLine "eu" "tpr/war3" ["host"%string] ["host"%string] "cfg".



(** A client whose encoding table lists three encoded keys for the
    content key "ck", the first of which the index map does not know,
    and a network that delivers the second request only. *)
Definition candidateClient : Client.t :=
  Client.mk
    (Some (Encodings.mk
             {[ "ck"%string :=
                  Encodings.mkEntry "ck" ["e0"%string; "e2"%string; "e1"%string] 5 ]}))
    (Client.indices twoArchiveClient).

Definition secondOnlyCdn (n : nat) (key : string) : option (list byte) :=
  if (n =? 1)%nat then Some (helloContainer x24) else None.


(** * Properties *)

(** ** The embedding on small inputs *)

Example toHex_bytes : toHex [xab; x01; xff] = "ab01ff"%string.
Proof. reflexivity. Qed.

Example toInt32_wraps : toInt32 4294967291 = -5 /\ toInt32 (2 ^ 31) = - 2 ^ 31.
Proof. split; reflexivity. Qed.

Example split_pipes :
  JsString.split "|" "a|b||c|"
    = ["a"%string; "b"%string; EmptyString; "c"%string; EmptyString].
Proof. reflexivity. Qed.

Example trim_spaces : JsString.trim "  a b  " = "a b"%string.
Proof. reflexivity. Qed.

Example hashString_abc : Root.hashString "abc" = 96354.
Proof. reflexivity. Qed.

Example uint24be_reads :
  BufferReader.uint24be (BufferReader.new [x01; x02; x03; x04])
    = (Ok 66051, BufferReader.mk [x01; x02; x03; x04] 3 0).
Proof. reflexivity. Qed.

Example bits_across_bytes :
  fst (BufferReader.bits 12 (BufferReader.new [xab; xcd])) = Ok 2748.
Proof. reflexivity. Qed.

(** A buffer that is not page aligned loses its last, partial page. *)
Example cutFooter_partial :
  length (Indices.cutFooter (repeat x00 (4096 + 904))) = 4096%nat
  /\ Indices.cutFooter (repeat x00 100) = []
  /\ length (Indices.cutFooter (repeat x00 (4096 + 4096))) = (4096 + 4096)%nat.
Proof. repeat split; vm_compute; reflexivity. Qed.

(** An unknown codec tag. *)
Example unknown_codec :
  BLTE.decode noCodecs (container x24 "X")
    = Some (Throw (Error "Unknown encoding")).
Proof. vm_compute. reflexivity. Qed.

(** A container nested in an 'F' block. *)
Example nested_container :
  BLTE.decode noCodecs
    (ascii_bytes "BLTE" ++ [x00; x00; x00; x24] ++ [x0f] ++ [x00; x00; x01]
       ++ [x00; x00; x00; x2b] ++ [x00; x00; x00; x05] ++ repeat x00 16
       ++ ascii_bytes "F" ++ helloContainer x24)
    = Some (Ok (ascii_bytes "hello")).
Proof. vm_compute. reflexivity. Qed.

Example getLocales_mask :
  Root.enUS (Root.getLocales (Root.LocaleNumber 0x12)) = true
  /\ Root.frFR (Root.getLocales (Root.LocaleNumber 0x12)) = true
  /\ Root.deDE (Root.getLocales (Root.LocaleNumber 0x12)) = false.
Proof. repeat split. Qed.

(** ** Bytes and readers *)

Lemma blen_nonneg (b : list byte) : 0 <= blen b.
Proof. unfold blen. lia. Qed.

Lemma subarray_take_drop (b : list byte) (o n : Z) :
  0 <= o -> 0 <= n ->
  subarray b o (o + n) = take (Z.to_nat n) (drop (Z.to_nat o) b).
Proof.
  intros Ho Hn. unfold subarray. f_equal. f_equal. lia.
Qed.

Lemma be_to_Z_from (bs : list byte) (a : Z) :
  0 <= a -> 0 <= fold_left (fun acc x => acc * 256 + byteZ x) bs a.
Proof.
  revert a. induction bs as [|x bs IH]; intros a Ha; simpl; [exact Ha|].
  apply IH. unfold byteZ. lia.
Qed.

Lemma be_to_Z_nonneg (bs : list byte) : 0 <= be_to_Z bs.
Proof. apply be_to_Z_from. lia. Qed.

(** ** indices.ts: [parseIndexEntry] *)

Section IndexLoop.
Variables (hash : string) (src : Indices.IndexSource).

(** One record read from an aligned reader: a short read throws
    [RangeError], otherwise the reader has moved by 24 bytes. *)
Lemma readEntry_aligned (b : list byte) (o : Z) :
  0 <= o ->
  (blen b < o + 24 /\
   exists r', Indices.readEntry hash src (readerAt b o) = (Throw RangeError, r')) \/
  (o + 24 <= blen b /\
   Indices.readEntry hash src (readerAt b o) =
     (Ok (Indices.entryAt hash src (drop (Z.to_nat o) b)), readerAt b (o + 24))).
Proof.
  intros Ho.
  unfold Indices.readEntry, BufferReader.string_hex, BufferReader.uint32be,
    BufferReader.bind, BufferReader.alignToByte, BufferReader.ensureAvailable,
    BufferReader.take_bytes, BufferReader.ret, readerAt; simpl.
  destruct (Z.ltb_spec (blen b) (o + 16)); [left; split; [lia | eauto] |].
  simpl. destruct (Z.ltb_spec (blen b) (o + 16 + 4)); [left; split; [lia | eauto] |].
  simpl. destruct (Z.ltb_spec (blen b) (o + 16 + 4 + 4)); [left; split; [lia | eauto] |].
  right. simpl. split; [lia|].
  unfold Indices.entryAt.
  rewrite !subarray_take_drop by lia.
  replace (Z.to_nat (o + 16)) with (Z.to_nat o + 16)%nat by lia.
  replace (Z.to_nat (o + 16 + 4)) with (Z.to_nat o + 20)%nat by lia.
  rewrite <- !drop_drop.
  change (Z.to_nat 16) with 16%nat. change (Z.to_nat 4) with 4%nat.
  f_equal. f_equal. lia.
Qed.

Lemma tryBody_aligned (b : list byte) (o : Z) (out : list Indices.IndexEntry) :
  0 <= o ->
  (blen b < o + 24 /\
   exists r', Indices.tryBody hash src out (readerAt b o) = (Throw RangeError, r')) \/
  (o + 24 <= blen b /\
   let e := Indices.entryAt hash src (drop (Z.to_nat o) b) in
   Indices.tryBody hash src out (readerAt b o) =
     if Indices.maxEntrySize <? Indices.size e
     then (Throw (Error "Invalid index entry size"), readerAt b (o + 24))
     else (Ok (out ++ [e]), readerAt b (o + 24))).
Proof.
  intros Ho. unfold Indices.tryBody, BufferReader.bind.
  destruct (readEntry_aligned b o Ho) as [[Hlt [r' ->]] | [Hle ->]].
  - left. eauto.
  - right. split; [exact Hle |]. cbv zeta.
    unfold Indices.invalidSize.
    assert (Hs : 0 <= Indices.size (Indices.entryAt hash src (drop (Z.to_nat o) b)))
      by apply be_to_Z_nonneg.
    destruct (Z.ltb_spec (Indices.size (Indices.entryAt hash src (drop (Z.to_nat o) b))) 0);
      [lia |].
    simpl. destruct (Indices.maxEntrySize <? _); reflexivity.
Qed.

Lemma parseLoop_S (fuel : nat) (r : BufferReader.t) (out : list Indices.IndexEntry) :
  Indices.parseLoop (S fuel) hash src r out =
    if BufferReader.eof r then Some out
    else
      match Indices.tryBody hash src out r with
      | (Ok out', r') => Indices.parseLoop fuel hash src r' out'
      | (Throw e, r') =>
          if isRangeError e then Some out
          else Indices.parseLoop fuel hash src r' out
      end.
Proof. reflexivity. Qed.

Lemma keptRecords_S (k : nat) (data : list byte) :
  Indices.keptRecords hash src (S k) data =
    (if Indices.size (Indices.entryAt hash src data) <=? Indices.maxEntrySize
     then [Indices.entryAt hash src data] else [])
      ++ Indices.keptRecords hash src k (drop 24 data).
Proof. reflexivity. Qed.

(** The loop emits, in order, the complete records whose size is within
    the bound, and never runs out of fuel once the fuel exceeds the number
    of complete records left. *)
Lemma parseLoop_records (k : nat) :
  forall (fuel : nat) (b : list byte) (o : Z) (out : list Indices.IndexEntry),
    0 <= o <= blen b ->
    k = Z.to_nat ((blen b - o) / 24) ->
    (k < fuel)%nat ->
    Indices.parseLoop fuel hash src (readerAt b o) out =
      Some (out ++ Indices.keptRecords hash src k (drop (Z.to_nat o) b)).
Proof.
  induction k as [|k IH]; intros fuel b o out Ho Hk Hfuel;
    (destruct fuel as [|fuel]; [lia |]); rewrite parseLoop_S;
    unfold BufferReader.eof; cbn [BufferReader.buf BufferReader.offset readerAt].
  - assert (Hshort : blen b - o < 24).
    { destruct (Z.lt_ge_cases (blen b - o) 24) as [|Hge]; [assumption |].
      assert (1 <= (blen b - o) / 24) by (apply Z.div_le_lower_bound; lia). lia. }
    cbn [Indices.keptRecords]. rewrite app_nil_r.
    destruct (Z.leb_spec (blen b) o); [reflexivity |].
    destruct (tryBody_aligned b o out) as [[_ [r' Heq]] | [Hle _]]; [lia | | lia].
    rewrite Heq. reflexivity.
  - assert (Hlong : 24 <= blen b - o).
    { destruct (Z.lt_ge_cases (blen b - o) 24) as [Hlt|]; [| assumption].
      rewrite Z.div_small in Hk by lia. discriminate. }
    destruct (Z.leb_spec (blen b) o); [lia |].
    destruct (tryBody_aligned b o out) as [[Hlt _] | [_ Heq]]; [lia | lia |].
    cbv zeta in Heq. rewrite Heq.
    assert (Hk' : k = Z.to_nat ((blen b - (o + 24)) / 24)).
    { replace (blen b - o) with ((blen b - (o + 24)) + 1 * 24) in Hk by lia.
      rewrite Z.div_add in Hk by lia.
      assert (0 <= (blen b - (o + 24)) / 24) by (apply Z.div_pos; lia). lia. }
    assert (Hdrop : drop (Z.to_nat (o + 24)) b = drop 24 (drop (Z.to_nat o) b)).
    { rewrite drop_drop. f_equal. lia. }
    rewrite keptRecords_S.
    set (e := Indices.entryAt hash src (drop (Z.to_nat o) b)).

    destruct (Z.ltb_spec Indices.maxEntrySize (Indices.size e)) as [Hbig | Hok];
      cbn [isRangeError];
      rewrite (IH fuel b (o + 24)) by (try lia; assumption);
      rewrite Hdrop;
      destruct (Z.leb_spec (Indices.size e) Indices.maxEntrySize); try lia.
    + reflexivity.
    + rewrite <- app_assoc. reflexivity.
Qed.

Lemma recordCount_Z (b : list byte) :
  Indices.recordCount b = Z.to_nat ((blen b - 0) / 24).
Proof.
  unfold Indices.recordCount, blen. rewrite Z.sub_0_r.
  change 24 with (Z.of_nat 24). rewrite <- Nat2Z.inj_div. lia.
Qed.

Lemma recordCount_le (b : list byte) : (Indices.recordCount b <= length b)%nat.
Proof.
  unfold Indices.recordCount. apply Nat.Div0.div_le_upper_bound. lia.
Qed.

Lemma parseLoop_from_start (fuel : nat) (b : list byte) :
  (Indices.recordCount b < fuel)%nat ->
  Indices.parseLoop fuel hash src (BufferReader.new b) [] =
    Some (Indices.keptRecords hash src (Indices.recordCount b) b).
Proof.
  intros Hfuel.
  change (BufferReader.new b) with (readerAt b 0).
  rewrite (parseLoop_records (Indices.recordCount b) fuel b 0 []).
  - reflexivity.
  - pose proof (blen_nonneg b). lia.
  - apply recordCount_Z.
  - exact Hfuel.
Qed.

Lemma parseIndexEntry_records (buffer : list byte) :
  Indices.parseIndexEntry buffer hash src =
    Some (Indices.keptRecords hash src
            (Indices.recordCount (Indices.cutFooter buffer))
            (Indices.cutFooter buffer)).
Proof.
  unfold Indices.parseIndexEntry. apply parseLoop_from_start.
  pose proof (recordCount_le (Indices.cutFooter buffer)). lia.
Qed.


End IndexLoop.

(** *** What [parseIndexEntry] emits, and that it terminates *)




(** C4, as stated, fails: the record after the one with an invalid size
    is still emitted. *)
Lemma parseIndexEntry_continues_after_invalid :
  Indices.maxEntrySize
    < Indices.size (Indices.entryAt "ab" Indices.archive oversizedPage)
  /\ Indices.parseIndexEntry oversizedPage "ab" Indices.archive
       = Some [goodEntry]
  /\ goodEntry
       = Indices.entryAt "ab" Indices.archive (drop 24 oversizedPage).
Proof.
  split; [vm_compute; reflexivity |].
  split; vm_compute; reflexivity.
Qed.

(** C4 (amended): a short read stops the parse, the fewer than 24
    trailing bytes emit nothing; a record whose size exceeds 2 MiB is not
    emitted but does not stop the parse, which goes on with the next
    record.  So the output is, in order, every complete 24-byte record of
    the data region whose size is at most 2 MiB. *)
Theorem parseIndexEntry_skips_invalid_stops_short
    (buffer : list byte) (hash : string) (src : Indices.IndexSource) :
  Indices.parseIndexEntry buffer hash src =
    Some (Indices.keptRecords hash src
            (Indices.recordCount (Indices.cutFooter buffer))
            (Indices.cutFooter buffer))
  /\ (forall fuel b o out,
        0 <= o < blen b -> blen b < o + 24 ->
        Indices.parseLoop (S fuel) hash src (BufferReader.mk b o 0) out
          = Some out)
  /\ (forall fuel b o out,
        0 <= o -> o + 24 <= blen b ->
        Indices.maxEntrySize
          < Indices.size (Indices.entryAt hash src (drop (Z.to_nat o) b)) ->
        Indices.parseLoop (S fuel) hash src (BufferReader.mk b o 0) out
          = Indices.parseLoop fuel hash src (BufferReader.mk b (o + 24) 0) out).
Proof.
  split; [apply parseIndexEntry_records |]. split.
  - intros fuel b o out Ho Hshort. rewrite parseLoop_S.
    unfold BufferReader.eof; simpl.
    destruct (Z.leb_spec (blen b) o); [reflexivity |].
    destruct (tryBody_aligned hash src b o out) as [[_ [r' Heq]] | [Hle _]];
      [lia | | lia].
    unfold readerAt in Heq. rewrite Heq. reflexivity.
  - intros fuel b o out Ho Hlong Hbig. rewrite parseLoop_S.
    unfold BufferReader.eof; simpl.
    destruct (Z.leb_spec (blen b) o); [lia |].
    destruct (tryBody_aligned hash src b o out) as [[Hlt _] | [_ Heq]];
      [lia | lia |].
    cbv zeta in Heq. unfold readerAt in Heq. rewrite Heq.
    destruct (Z.ltb_spec Indices.maxEntrySize
                (Indices.size (Indices.entryAt hash src (drop (Z.to_nat o) b))));
      [reflexivity | lia].
Qed.

Lemma parseIndexEntry_skips_invalid_stops_short_witness :
  Indices.parseIndexEntry oversizedPage "ab" Indices.archive = Some [goodEntry]
  /\ Indices.parseLoop 1 "ab" Indices.archive
       (BufferReader.mk goodRecord 1 0) [] = Some []
  /\ Indices.parseLoop 2 "ab" Indices.archive
       (BufferReader.mk (oversizedRecord ++ goodRecord) 0 0) []
     = Indices.parseLoop 1 "ab" Indices.archive
         (BufferReader.mk (oversizedRecord ++ goodRecord) 24 0) [].
Proof.
  destruct (parseIndexEntry_skips_invalid_stops_short
              oversizedPage "ab" Indices.archive) as (Hall & Hshort & Hskip).
  split; [rewrite Hall; vm_compute; reflexivity |].
  split.
  - apply (Hshort 0%nat goodRecord 1 []); vm_compute; [split |]; congruence.
  - apply (Hskip 1%nat (oversizedRecord ++ goodRecord) 0 []);
      vm_compute; congruence.
Defined.

(** C10: [parseIndexEntry] terminates on every buffer.  An iteration of
    the loop either throws [RangeError] on a short read, which leaves the
    loop, or moves the reader forward by exactly 24 bytes, also when the
    size check throws; so a fuel above the number of bytes of the data
    region is never exhausted. *)
Theorem parseIndexEntry_terminates
    (buffer : list byte) (hash : string) (src : Indices.IndexSource) :
  (exists out,
     Indices.parseIndexEntry buffer hash src = Some out /\
     forall fuel,
       (length (Indices.cutFooter buffer) < fuel)%nat ->
       Indices.parseLoop fuel hash src
         (BufferReader.new (Indices.cutFooter buffer)) [] = Some out)
  /\ (forall b o out,
        match Indices.tryBody hash src out (BufferReader.mk b o 0) with
        | (Throw RangeError, _) => blen b < o + 24
        | (_, r') => r' = BufferReader.mk b (o + 24) 0 /\ o < o + 24 <= blen b
        end).
Proof.
  split.
  - eexists. split; [apply parseIndexEntry_records |].
    intros fuel Hfuel. apply parseLoop_from_start.
    pose proof (recordCount_le (Indices.cutFooter buffer)). lia.
  - intros b o out.
    unfold Indices.tryBody, Indices.readEntry, BufferReader.string_hex,
      BufferReader.uint32be, BufferReader.bind, BufferReader.alignToByte,
      BufferReader.ensureAvailable, BufferReader.take_bytes, BufferReader.ret,
      BufferReader.throw; simpl.
    destruct (Z.ltb_spec (blen b) (o + 16)); [lia |]. simpl.
    destruct (Z.ltb_spec (blen b) (o + 16 + 4)); [lia |]. simpl.
    destruct (Z.ltb_spec (blen b) (o + 16 + 4 + 4)); [lia |]. simpl.
    destruct (Indices.invalidSize _); simpl;
      (split; [f_equal; lia | lia]).
Qed.

Lemma parseIndexEntry_terminates_witness :
  Indices.parseLoop 4097 "ab" Indices.archive
    (BufferReader.new (Indices.cutFooter oversizedPage)) [] = Some [goodEntry].
Proof.
  destruct (parseIndexEntry_terminates oversizedPage "ab" Indices.archive)
    as [(out & Hout & Hfuel) _].
  rewrite (Hfuel 4097%nat) by (vm_compute; lia).
  rewrite <- Hout. vm_compute. reflexivity.
Defined.

(** ** blte.ts *)

(** C2, as stated, fails: with a header size field of 12 the block is
    looked for at byte 12, inside the block table; the byte read there as
    the codec tag is [0x00] and the decoder throws. *)
Lemma hello_header12_not_decoded :
  BLTE.decode noCodecs (helloContainer x0c)
    = Some (Throw (Error "Unknown encoding"))
  /\ BLTE.decode noCodecs (helloContainer x0c)
       <> Some (Ok (ascii_bytes "hello")).
Proof.
  split; [vm_compute; reflexivity | vm_compute; discriminate].
Qed.

(** C2 (amended): with the header size field set to 36 ([0x24], the 12
    bytes of fixed header and the 24 bytes of the one block entry), the
    container of the scenario decodes to exactly the 5 bytes "hello",
    whatever the external decompressors are. *)
Theorem hello_header36_decoded (codecs : Codecs) :
  BLTE.decode codecs (helloContainer x24) = Some (Ok (ascii_bytes "hello"))
  /\ (exists this this',
        BLTE.new (helloContainer x24) = Ok this /\
        BLTE.headerSize this = 36 /\
        BLTE.blocks this
          = [BLTE.mkBlock 6 5 "00000000000000000000000000000000" None] /\
        BLTE.getBlocksData codecs (fun _ => None) this
          = Some (Ok (ascii_bytes "hello"), this')).
Proof.
  split; [vm_compute; reflexivity |].
  eexists. eexists. split; [vm_compute; reflexivity |].
  split; [reflexivity |]. split; [reflexivity |].
  vm_compute. reflexivity.
Qed.

(** *** Encrypted blocks *)

Section Encrypted.
Variable codecs : Codecs.
Variable nested : list byte -> option (result (list byte)).

Lemma subarray_one (b : list byte) (o : Z) (x : byte) :
  0 <= o -> b !! Z.to_nat o = Some x -> subarray b o (o + 1) = [x].
Proof.
  intros Ho Hx. rewrite subarray_take_drop by lia.
  change (Z.to_nat 1) with 1%nat.
  rewrite (drop_S _ _ _ Hx). reflexivity.
Qed.

Lemma readBlock_buf (o : Z) (blk : BLTE.BLTEBlock) (r : BufferReader.t) :
  BufferReader.buf (snd (BLTE.readBlock o blk r)) = BufferReader.buf r.
Proof.
  unfold BLTE.readBlock, BufferReader.seek, BufferReader.string_utf8,
    BufferReader.raw, BufferReader.bind, BufferReader.alignToByte,
    BufferReader.ensureAvailable, BufferReader.take_bytes, BufferReader.ret.
  destruct ((o <? 0) || (blen (BufferReader.buf r) <? o)); simpl; [reflexivity |].
  destruct (blen (BufferReader.buf r) <? o + 1); simpl; [reflexivity |].
  destruct (blen (BufferReader.buf r) <? o + 1 + (BLTE.compressedSize blk - 1));
    reflexivity.
Qed.



Lemma getBlockData_same (this this' : BLTE.t) (arg : BLTE.blockArg)
    (res : result (list byte)) :
  BLTE.getBlockData codecs nested this arg = Some (res, this') ->
  sameContainer this this'.
Proof.
  unfold BLTE.getBlockData.
  destruct (BLTE.selectBlock this arg) as [[idx blk] |].
  - pose proof (readBlock_buf (BLTE.calcBlockOffset this idx) blk
                  (BLTE.buffer this)) as Hbuf.
    destruct (BLTE.readBlock _ blk _) as [[[enc data] | e] r]; simpl in Hbuf.
    + destruct (BLTE.decodeBlock codecs nested enc data); [| discriminate].
      intros [= <- <-]. repeat split; assumption.
    + intros [= <- <-]. repeat split; assumption.
  - intros [= <- <-]. repeat split; reflexivity.
Qed.



End Encrypted.




(** *** The fuel of [BLTE.decode] is never exhausted *)

Lemma keepsBuf_ret {A : Type} (a : A) : keepsBuf (BufferReader.ret a).
Proof. intros r. reflexivity. Qed.

Lemma keepsBuf_throw {A : Type} (e : exn) : keepsBuf (@BufferReader.throw A e).
Proof. intros r. reflexivity. Qed.

Lemma keepsBuf_bind {A B : Type} (m : BufferReader.M A) (k : A -> BufferReader.M B) :
  keepsBuf m -> (forall a, keepsBuf (k a)) -> keepsBuf (BufferReader.bind m k).
Proof.
  intros Hm Hk r. unfold BufferReader.bind. specialize (Hm r).
  destruct (m r) as [[a | e] r1]; simpl in *; [| exact Hm].
  rewrite Hk. exact Hm.
Qed.

Lemma keepsBuf_alignToByte : keepsBuf BufferReader.alignToByte.
Proof.
  intros r. unfold BufferReader.alignToByte.
  destruct (negb _); reflexivity.
Qed.

Lemma keepsBuf_ensureAvailable (n : Z) : keepsBuf (BufferReader.ensureAvailable n).
Proof.
  intros r. unfold BufferReader.ensureAvailable.
  destruct (_ <? _); reflexivity.
Qed.

Lemma keepsBuf_take_bytes (n : Z) : keepsBuf (BufferReader.take_bytes n).
Proof. intros r. reflexivity. Qed.

Create HintDb keepsBuf.
#[local] Hint Resolve keepsBuf_ret keepsBuf_throw keepsBuf_alignToByte
  keepsBuf_ensureAvailable keepsBuf_take_bytes : keepsBuf.

Ltac keepsBuf_step :=
  first [ apply keepsBuf_bind; [| intros ?]
        | solve [auto with keepsBuf]
        | match goal with |- keepsBuf (if ?c then _ else _) => destruct c end ].

Ltac keepsBuf_solve := repeat keepsBuf_step.

Lemma keepsBuf_uint8 : keepsBuf BufferReader.uint8.
Proof. unfold BufferReader.uint8. keepsBuf_solve. Qed.

Lemma keepsBuf_uint32be : keepsBuf BufferReader.uint32be.
Proof. unfold BufferReader.uint32be. keepsBuf_solve. Qed.

Lemma keepsBuf_string_hex (n : Z) : keepsBuf (BufferReader.string_hex n).
Proof. unfold BufferReader.string_hex. keepsBuf_solve. Qed.

Lemma keepsBuf_string_utf8 (n : Z) : keepsBuf (BufferReader.string_utf8 n).
Proof. unfold BufferReader.string_utf8. keepsBuf_solve. Qed.

#[local] Hint Resolve keepsBuf_uint8 keepsBuf_uint32be keepsBuf_string_hex
  keepsBuf_string_utf8 : keepsBuf.

Lemma keepsBuf_uint24be : keepsBuf BufferReader.uint24be.
Proof. unfold BufferReader.uint24be. keepsBuf_solve. Qed.

#[local] Hint Resolve keepsBuf_uint24be : keepsBuf.

Lemma keepsBuf_parseHeaderBlock (format : Z) :
  keepsBuf (BLTE.parseHeaderBlock format).
Proof. unfold BLTE.parseHeaderBlock. keepsBuf_solve. Qed.

Lemma keepsBuf_parseHeaderBlocks (n : nat) (format : Z) :
  forall acc, keepsBuf (BLTE.parseHeaderBlocks n format acc).
Proof.
  induction n as [|n IH]; intros acc; simpl.
  - apply keepsBuf_ret.
  - apply keepsBuf_bind; [apply keepsBuf_parseHeaderBlock | intros b; apply IH].
Qed.

#[local] Hint Resolve keepsBuf_parseHeaderBlocks : keepsBuf.

Lemma keepsBuf_parseHeader : keepsBuf BLTE.parseHeader.
Proof. unfold BLTE.parseHeader. keepsBuf_solve. Qed.

Lemma new_buf (data : list byte) (this : BLTE.t) :
  BLTE.new data = Ok this -> BufferReader.buf (BLTE.buffer this) = data.
Proof.
  unfold BLTE.new.
  pose proof (keepsBuf_parseHeader (BufferReader.new data)) as Hbuf.
  destruct (BLTE.parseHeader (BufferReader.new data)) as [[[[hs bc] bs] | e] r];
    [| discriminate].
  intros [= <-]. exact Hbuf.
Qed.

(** The payload of a block is strictly shorter than the container. *)
Lemma readBlock_shorter (o : Z) (blk : BLTE.BLTEBlock) (r r' : BufferReader.t)
    (enc data : list byte) :
  BLTE.readBlock o blk r = (Ok (enc, data), r') ->
  (length data < length (BufferReader.buf r))%nat.
Proof.
  unfold BLTE.readBlock, BufferReader.seek, BufferReader.string_utf8,
    BufferReader.raw, BufferReader.bind, BufferReader.alignToByte,
    BufferReader.ensureAvailable, BufferReader.take_bytes, BufferReader.ret.
  destruct (Z.ltb_spec o 0); [discriminate |].
  destruct (Z.ltb_spec (blen (BufferReader.buf r)) o); [discriminate |]. simpl.
  destruct (Z.ltb_spec (blen (BufferReader.buf r)) (o + 1)); [discriminate |].
  simpl.
  destruct (Z.ltb_spec (blen (BufferReader.buf r))
              (o + 1 + (BLTE.compressedSize blk - 1))); [discriminate |].
  simpl. intros [= _ <- _]. unfold subarray.
  rewrite length_take, length_drop. unfold blen in *. lia.
Qed.

Section Total.
Variable codecs : Codecs.

Lemma getBlockData_total (nested : list byte -> option (result (list byte)))
    (this : BLTE.t) (arg : BLTE.blockArg) :
  (forall d, (length d < length (BufferReader.buf (BLTE.buffer this)))%nat ->
             is_Some (nested d)) ->
  is_Some (BLTE.getBlockData codecs nested this arg).
Proof.
  intros Hnested. unfold BLTE.getBlockData.
  destruct (BLTE.selectBlock this arg) as [[idx blk] |]; [| eauto].
  destruct (BLTE.readBlock _ blk _) as [[[enc data] | e] r] eqn:Hread; [| eauto].
  apply readBlock_shorter in Hread.
  unfold BLTE.decodeBlock.
  repeat match goal with
         | |- context [if ?c then _ else _] => destruct c; [eauto |]
         end; eauto.
  destruct (Hnested data Hread) as [res ->]. eauto.
Qed.

Lemma getBlocksLoop_total (nested : list byte -> option (result (list byte)))
    (n : nat) :
  forall (i : Z) (this : BLTE.t) (acc : list byte),
    (forall d, (length d < length (BufferReader.buf (BLTE.buffer this)))%nat ->
               is_Some (nested d)) ->
    is_Some (BLTE.getBlocksLoop codecs nested n i this acc).
Proof.
  induction n as [|n IH]; intros i this acc Hnested; simpl; [eauto |].
  destruct (getBlockData_total nested this (BLTE.ByIndex i) Hnested)
    as [[[data | e] this1] Hget]; rewrite Hget; [| eauto].
  apply IH. intros d Hd. apply Hnested.
  apply getBlockData_same in Hget. destruct Hget as (_ & _ & Hbuf).
  rewrite <- Hbuf. exact Hd.
Qed.

Lemma decodeFuel_total (fuel : nat) :
  forall data, (length data < fuel)%nat ->
    is_Some (BLTE.decodeFuel codecs fuel data).
Proof.
  induction fuel as [|fuel IH]; intros data Hlen; [lia |]. simpl.
  destruct (BLTE.new data) as [this | e] eqn:Hnew; [| eauto].
  apply new_buf in Hnew. unfold BLTE.getBlocksData.
  destruct (getBlocksLoop_total (BLTE.decodeFuel codecs fuel)
              (length (BLTE.blocks this)) 0 this []) as [res ->].
  - intros d Hd. apply IH. rewrite Hnew in Hd. lia.
  - simpl. eauto.
Qed.

(** [BLTE.decode] always has an outcome: output or an exception. *)
Lemma decode_total (data : list byte) : is_Some (BLTE.decode codecs data).
Proof. apply decodeFuel_total. lia. Qed.

End Total.

(** ** root.ts: the MFST block *)

Lemma toInt32_range (v : Z) : - 2 ^ 31 <= toInt32 v < 2 ^ 31.
Proof.
  unfold toInt32. cbv zeta.
  pose proof (Z.mod_pos_bound v (2 ^ 32) ltac:(lia)) as Hm.
  destruct (Z.leb_spec (2 ^ 31) (v mod 2 ^ 32)); lia.
Qed.

Section ReadArray.
Context {A : Type} (read : BufferReader.M A).



End ReadArray.



Section BuildEntries.
Variable bd : Root.BlockData.



End BuildEntries.




(** *** The fileDataIds of a block *)




(** ** root.ts: the War3 variant *)





(** ** root.ts: [getEntryByPath] *)

(** C5: only the first run of backslashes of the query is replaced (the
    pattern has no [g] flag).  A query with two runs keeps its second
    backslash and misses the entry that the fully normalized query
    finds; a query with one run, as "Foo\Bar", is normalized as the claim
    says. *)
Theorem getEntryByPath_replaces_first_run_only :
  Root.normalizeQuery "a\b\c" = "a/b\c"%string
  /\ collapseBackslashRuns false (JsString.toLowerCase "a\b\c") = "a/b/c"%string
  /\ Root.getEntryByPath slashManifest "a\b\c" = []
  /\ Root.getEntryByPath slashManifest "a/b/c" = [pathEntry "a/b/c"]
  /\ (forall this : Root.t,
        Root.getEntryByPath this "Foo\Bar" = Root.getEntryByPath this "foo/bar").
Proof.
  repeat split; try (vm_compute; reflexivity).
Qed.

(** ** client.ts *)

(** C7: for a cKey that the encoding table does not hold, [getFile] runs
    its candidate loop on the one-element list [[cKey]]: the miss is not an
    error, the cKey itself is looked up in the index map, and the outcome
    is the one of a table that maps the cKey to the eKey list [[cKey]]. *)
Theorem getFile_encoding_miss
    (codecs : Codecs) (cdn : nat -> string -> option (list byte))
    (this : Client.t) (table : Encodings.t) (cKey : string)
    (log : Client.FetchLog) :
  Client.encodingTable this = Some table ->
  Encodings.entries table !! cKey = None ->
  Client.getEKeyByCKey this cKey = Ok [cKey]
  /\ Client.getFile codecs cdn this cKey log
       = Client.getFileLoop codecs cdn this cKey [cKey] log
  /\ (forall entry,
        Encodings.eKeys entry = [cKey] ->
        Client.getFile codecs cdn
          (Client.mk
             (Some (Encodings.mk (<[cKey := entry]> (Encodings.entries table))))
             (Client.indices this))
          cKey log
        = Client.getFile codecs cdn this cKey log)
  /\ Client.getFile codecs cdn this cKey log
       = match Client.indices this !! cKey with
         | None => Some (Ok None, log)
         | Some loc =>
             let log' := log ++ [Indices.archiveHash loc] in
             match cdn (length log) (Indices.archiveHash loc) with
             | None => Some (Throw (Error "Error getting data block"), log')
             | Some buffer =>
                 match BLTE.decode codecs
                         (subarray buffer (Indices.offset loc)
                            (Indices.offset loc + Indices.size loc)) with
                 | Some (Ok data) => Some (Ok (Some data), log')
                 | Some (Throw e) => Some (Throw e, log')
                 | None => None
                 end
             end
         end.
Proof.
  intros Htable Hmiss.
  assert (Hkeys : Client.getEKeyByCKey this cKey = Ok [cKey]).
  { unfold Client.getEKeyByCKey. rewrite Htable, Hmiss. reflexivity. }
  split; [exact Hkeys |].
  split; [unfold Client.getFile; rewrite Hkeys; reflexivity |].
  split.
  - intros entry Hentry. unfold Client.getFile. rewrite Hkeys.
    unfold Client.getEKeyByCKey. simpl.
    rewrite lookup_insert_eq, Hentry. reflexivity.
  - unfold Client.getFile. rewrite Hkeys. simpl.
    unfold Client.getLocation.
    destruct (Client.indices this !! cKey) as [loc |]; [| reflexivity].
    unfold Client.bind, Client.fetchDirectFromCDN, Client.decodeSlice,
      Client.throw, Client.ret.
    destruct (cdn (length log) (Indices.archiveHash loc)) as [buffer |];
      [| reflexivity].
    destruct (BLTE.decode codecs _) as [[data | e] |]; reflexivity.
Qed.

Lemma getFile_encoding_miss_witness :
  Client.getEKeyByCKey looseClient "cc" = Ok ["cc"%string]
  /\ Client.getFile noCodecs helloCdn looseClient "cc" []
       = Some (Ok (Some (ascii_bytes "hello")), ["ar"%string]).
Proof.
  destruct (getFile_encoding_miss noCodecs helloCdn looseClient
              (Encodings.mk ∅) "cc" [])
    as (Hkeys & _ & _ & Hfile).
  - reflexivity.
  - reflexivity.
  - split; [exact Hkeys |]. rewrite Hfile. vm_compute. reflexivity.
Defined.

(** *** Grouping the locations by archive *)

Section Grouping.
Implicit Types (acc : list (string * list Indices.IndexEntry)).
Implicit Types (loc : Indices.IndexEntry).

Lemma insertGroup_keys acc loc :
  (Client.insertGroup acc loc).*1 =
    if decide (Indices.archiveHash loc ∈ acc.*1) then acc.*1
    else acc.*1 ++ [Indices.archiveHash loc].
Proof.
  induction acc as [|[h ls] acc IH]; cbn [Client.insertGroup].
  - rewrite decide_False by (intros Hin; inversion Hin). reflexivity.
  - destruct (String.eqb_spec h (Indices.archiveHash loc)) as [-> | Hne];
      rewrite !fmap_cons; cbn [fst].
    + rewrite decide_True by left. reflexivity.
    + rewrite IH.
      destruct (decide (Indices.archiveHash loc ∈ acc.*1)) as [Hin | Hnin].
      * rewrite decide_True by (right; exact Hin). reflexivity.
      * rewrite decide_False; [reflexivity |].
        intros Hin. apply elem_of_cons in Hin. destruct Hin; congruence.
Qed.

Lemma insertGroup_uniform acc loc :
  Forall uniformGroup acc -> Forall uniformGroup (Client.insertGroup acc loc).
Proof.
  induction acc as [|[h ls] acc IH]; intros Hacc; simpl.
  - repeat constructor.
  - inversion Hacc as [| ? ? Hg Hrest]; subst.
    destruct (String.eqb_spec h (Indices.archiveHash loc)) as [Heq | Hne].
    + constructor; [| exact Hrest].
      unfold uniformGroup in *. simpl in *.
      apply Forall_app. split; [exact Hg |]. constructor; [congruence | constructor].
    + constructor; [exact Hg | apply IH; exact Hrest].
Qed.

Lemma insertGroup_new acc loc :
  exists glocs,
    (Indices.archiveHash loc, glocs) ∈ Client.insertGroup acc loc /\ loc ∈ glocs.
Proof.
  induction acc as [|[h ls] acc IH]; simpl.
  - exists [loc]. split; left.
  - destruct (String.eqb_spec h (Indices.archiveHash loc)) as [-> | Hne].
    + exists (ls ++ [loc]). split; [left |].
      apply elem_of_app. right. left.
    + destruct IH as (glocs & Hin & Hloc). exists glocs.
      split; [right; exact Hin | exact Hloc].
Qed.

Lemma insertGroup_old acc loc (h : string) (ls : list Indices.IndexEntry)
    (l : Indices.IndexEntry) :
  (h, ls) ∈ acc -> l ∈ ls ->
  exists ls', (h, ls') ∈ Client.insertGroup acc loc /\ l ∈ ls'.
Proof.
  induction acc as [|[h0 ls0] acc IH]; intros Hin Hl; [inversion Hin |].
  simpl. apply elem_of_cons in Hin.
  destruct (String.eqb_spec h0 (Indices.archiveHash loc)) as [Heq | Hne].
  - destruct Hin as [[= -> ->] | Hin].
    + exists (ls0 ++ [loc]). split; [left |].
      apply elem_of_app. left. exact Hl.
    + exists ls. split; [right; exact Hin | exact Hl].
  - destruct Hin as [[= -> ->] | Hin].
    + exists ls0. split; [left | exact Hl].
    + destruct (IH Hin Hl) as (ls' & Hin' & Hl').
      exists ls'. split; [right; exact Hin' | exact Hl'].
Qed.

Lemma insertGroup_inv seen acc loc :
  GroupInv seen acc -> GroupInv (seen ++ [loc]) (Client.insertGroup acc loc).
Proof.
  intros [Hnd Hkeys Hun Hmem]. split.
  - rewrite insertGroup_keys. case_decide as Hnin; [exact Hnd |].
    apply NoDup_app. split; [exact Hnd |]. split.
    + intros x Hx Hx'. apply list_elem_of_singleton in Hx'. subst. contradiction.
    + apply NoDup_singleton.
  - intros h. rewrite insertGroup_keys, fmap_app, elem_of_app.
    simpl. rewrite list_elem_of_singleton, <- Hkeys.
    case_decide as Hin.
    + split; [auto |]. intros [| ->]; assumption.
    + rewrite elem_of_app, list_elem_of_singleton. reflexivity.
  - apply insertGroup_uniform. exact Hun.
  - intros l Hl. apply elem_of_app in Hl. destruct Hl as [Hl | Hl].
    + destruct (Hmem l Hl) as (ls & Hin & Hlin).
      eapply insertGroup_old; eassumption.
    + apply list_elem_of_singleton in Hl. subst. apply insertGroup_new.
Qed.

Lemma fold_insertGroup_inv (locs : list Indices.IndexEntry) :
  forall seen acc,
    GroupInv seen acc ->
    GroupInv (seen ++ locs) (fold_left Client.insertGroup locs acc).
Proof.
  induction locs as [|loc locs IH]; intros seen acc Hinv; simpl.
  - rewrite app_nil_r. exact Hinv.
  - replace (seen ++ loc :: locs) with ((seen ++ [loc]) ++ locs)
      by (rewrite <- app_assoc; reflexivity).
    apply IH. apply insertGroup_inv. exact Hinv.
Qed.

Lemma groupByArchive_inv (locs : list Indices.IndexEntry) :
  GroupInv locs (Client.groupByArchive locs).
Proof.
  apply (fold_insertGroup_inv locs [] []).
  split; simpl.
  - constructor.
  - intros h. reflexivity.
  - constructor.
  - intros l Hl. inversion Hl.
Qed.

(** The number of groups is the number of distinct archive hashes. *)
Lemma groupByArchive_count (locs : list Indices.IndexEntry) :
  length (Client.groupByArchive locs) =
    size (list_to_set (Indices.archiveHash <$> locs) : gset string).
Proof.
  destruct (groupByArchive_inv locs) as [Hnd Hkeys _ _].
  rewrite <- (length_fmap fst).
  rewrite <- (size_list_to_set (C := gset string)) by exact Hnd.
  f_equal. apply set_eq. intros h.
  rewrite !elem_of_list_to_set. apply Hkeys.
Qed.

End Grouping.

(** *** The fetches of [getFiles] *)

Section GetFiles.
Variable codecs : Codecs.
Variable cdn : nat -> string -> option (list byte).

Lemma decodeSlices_spec (m : gmap string string) (buffer : list byte)
    (locs : list Indices.IndexEntry) :
  forall out log res log',
    Client.decodeSlices codecs m buffer locs out log = Some (res, log') ->
    log' = log /\
    forall o, res = Ok o ->
      exists batch, o = out ++ batch /\ Forall2 (decodedFrom codecs m buffer) locs batch.
Proof.
  induction locs as [|loc locs IH]; intros out log res log'; simpl.
  - unfold Client.ret. intros [= <- <-]. split; [reflexivity |].
    intros o [= <-]. exists []. rewrite app_nil_r. split; constructor.
  - unfold Client.bind, Client.decodeSlice.
    destruct (BLTE.decode codecs _) as [[data | e] |] eqn:Hdec;
      [| intros [= <- <-]; split; [reflexivity | discriminate] | discriminate].
    intros H. apply IH in H. destruct H as [-> Hok].
    split; [reflexivity |]. intros o Ho.
    destruct (Hok o Ho) as (batch & -> & Hall).
    exists ((Client.originalCKey m loc, data) :: batch).
    split; [rewrite <- app_assoc; reflexivity |].
    constructor; [split; [reflexivity | exact Hdec] | exact Hall].
Qed.

(** The requests of the outer loop are the keys of the groups, one
    after the other, up to the point where the loop ends. *)
Lemma fetchGroups_spec (m : gmap string string)
    (groups : list (string * list Indices.IndexEntry)) :
  forall out log res log',
    Client.fetchGroups codecs cdn m groups out log = Some (res, log') ->
    exists n,
      (n <= length groups)%nat /\
      log' = log ++ take n groups.*1 /\
      forall o, res = Ok o ->
        n = length groups /\
        exists batches,
          o = out ++ concat batches /\
          forall i h glocs,
            groups !! i = Some (h, glocs) ->
            exists buffer batch,
              cdn (length log + i)%nat h = Some buffer /\
              batches !! i = Some batch /\
              Forall2 (decodedFrom codecs m buffer) glocs batch.
Proof.
  induction groups as [|[h glocs] groups IH]; intros out log res log'; simpl.
  - unfold Client.ret. intros [= <- <-]. exists 0%nat.
    split; [lia |]. split; [rewrite app_nil_r; reflexivity |].
    intros o [= <-]. split; [reflexivity |].
    exists []. split; [rewrite app_nil_r; reflexivity |].
    intros i h glocs Hi. discriminate.
  - unfold Client.bind at 1. unfold Client.fetchDirectFromCDN.
    destruct (cdn (length log) h) as [buffer |] eqn:Hfetch.
    + unfold Client.bind.
      destruct (Client.decodeSlices codecs m buffer glocs out (log ++ [h]))
        as [[[out1 | e] log1] |] eqn:Hslices; [| | discriminate].
      * apply decodeSlices_spec in Hslices. destruct Hslices as [-> Hbatch].
        destruct (Hbatch out1 eq_refl) as (batch & -> & Hall).
        intros H. apply IH in H. destruct H as (n & Hn & -> & Hok).
        exists (S n). split; [lia |].
        split; [rewrite <- app_assoc; reflexivity |].
        intros o Ho. destruct (Hok o Ho) as (-> & batches & -> & Hgroups).
        split; [reflexivity |].
        exists (batch :: batches).
        split; [simpl; rewrite <- app_assoc; reflexivity |].
        intros [|i] h' glocs' Hi; simpl in Hi.
        -- injection Hi as <- <-. exists buffer, batch.
           rewrite Nat.add_0_r. auto.
        -- destruct (Hgroups i h' glocs' Hi) as (b & bt & Hcdn & Hbt & Hdec).
           exists b, bt. rewrite length_app in Hcdn. simpl in Hcdn.
           replace (length log + S i)%nat with (length log + 1 + i)%nat by lia.
           auto.
      * apply decodeSlices_spec in Hslices. destruct Hslices as [-> _].
        intros [= <- <-]. exists 1%nat. split; [lia |].
        split; [reflexivity | discriminate].
    + unfold Client.throw. intros [= <- <-]. exists 1%nat. split; [lia |].
      split; [reflexivity | discriminate].
Qed.

End GetFiles.

(** [getFiles] always has an outcome. *)
Lemma decodeSlices_total (codecs : Codecs) (m : gmap string string)
    (buffer : list byte) (locs : list Indices.IndexEntry) :
  forall out log, is_Some (Client.decodeSlices codecs m buffer locs out log).
Proof.
  induction locs as [|loc locs IH]; intros out log; simpl; [eexists; reflexivity |].
  unfold Client.bind, Client.decodeSlice.
  destruct (decode_total codecs
              (subarray buffer (Indices.offset loc)
                 (Indices.offset loc + Indices.size loc))) as [[data | e] ->].
  - apply IH.
  - eexists; reflexivity.
Qed.

Lemma fetchGroups_total (codecs : Codecs)
    (cdn : nat -> string -> option (list byte)) (m : gmap string string)
    (groups : list (string * list Indices.IndexEntry)) :
  forall out log, is_Some (Client.fetchGroups codecs cdn m groups out log).
Proof.
  induction groups as [|[h glocs] groups IH]; intros out log; simpl;
    [eexists; reflexivity |].
  unfold Client.bind at 1. unfold Client.fetchDirectFromCDN.
  destruct (cdn (length log) h) as [buffer |]; [| eexists; reflexivity].
  unfold Client.bind.
  destruct (decodeSlices_total codecs m buffer glocs out (log ++ [h]))
    as [[[out1 | e] log1] ->]; [apply IH | eexists; reflexivity].
Qed.

Lemma getFiles_total (codecs : Codecs)
    (cdn : nat -> string -> option (list byte)) (this : Client.t)
    (cKeys : list string) (log : Client.FetchLog) :
  is_Some (Client.getFiles codecs cdn this cKeys log).
Proof.
  unfold Client.getFiles.
  destruct (Client.candidates this cKeys ∅) as [[eKeys m] | e];
    [apply fetchGroups_total | eexists; reflexivity].
Qed.

(** C9, as stated, fails: a request that the network does not answer
    ends the call with an exception, after one request for the two
    archives of the three resolved locations. *)
Lemma getFiles_stops_at_failed_fetch :
  Client.resolvedLocations twoArchiveClient
      ["e1"%string; "e2"%string; "e3"%string] = [loc1; loc2; loc3]
  /\ Client.getFiles noCodecs deadCdn twoArchiveClient
       ["e1"%string; "e2"%string; "e3"%string] []
     = Some (Throw (Error "Error getting data block"), ["ar1"%string])
  /\ size (list_to_set (Indices.archiveHash <$> [loc1; loc2; loc3])
            : gset string) = 2%nat
  /\ length ["ar1"%string]
     <> size (list_to_set (Indices.archiveHash <$> [loc1; loc2; loc3])
               : gset string).
Proof.
  assert (Hsize : size (list_to_set (Indices.archiveHash <$> [loc1; loc2; loc3])
                          : gset string) = 2%nat)
    by (vm_compute; reflexivity).
  split; [vm_compute; reflexivity |]. split; [vm_compute; reflexivity |].
  split; [exact Hsize |]. rewrite Hsize. discriminate.
Qed.

(** C9 (amended): in a [getFiles] call the archives are requested group
    by group, in the order of the groups, and no archive twice.  When the
    call returns its results, the requests are exactly the distinct
    archive hashes of the resolved locations, so their number is the
    number of distinct hashes, and every location is decoded from the one
    buffer fetched for its archive.  A call that throws has stopped on the
    way, after a prefix of these requests. *)
Theorem getFiles_one_fetch_per_archive
    (codecs : Codecs) (cdn : nat -> string -> option (list byte))
    (this : Client.t) (cKeys : list string) (log log' : Client.FetchLog)
    (res : result (list (string * list byte))) :
  Client.getFiles codecs cdn this cKeys log = Some (res, log') ->
  exists fetched,
    log' = log ++ fetched /\
    NoDup fetched /\
    (forall eKeys eKeyToCKey,
       Client.candidates this cKeys ∅ = Ok (eKeys, eKeyToCKey) ->
       fetched `prefix_of`
         (Client.groupByArchive (Client.resolvedLocations this eKeys)).*1) /\
    forall out, res = Ok out ->
      exists eKeys eKeyToCKey,
        Client.candidates this cKeys ∅ = Ok (eKeys, eKeyToCKey) /\
        let locs := Client.resolvedLocations this eKeys in
        let groups := Client.groupByArchive locs in
        length fetched
          = size (list_to_set (Indices.archiveHash <$> locs) : gset string) /\
        (forall h, h ∈ fetched <-> h ∈ Indices.archiveHash <$> locs) /\
        fetched = groups.*1 /\
        (forall loc, loc ∈ locs ->
           exists i glocs,
             groups !! i = Some (Indices.archiveHash loc, glocs) /\ loc ∈ glocs) /\
        exists batches,
          out = concat batches /\
          forall i h glocs,
            groups !! i = Some (h, glocs) ->
            Forall (fun l => Indices.archiveHash l = h) glocs /\
            exists buffer batch,
              cdn (length log + i)%nat h = Some buffer /\
              batches !! i = Some batch /\
              Forall2 (decodedFrom codecs eKeyToCKey buffer) glocs batch.
Proof.
  unfold Client.getFiles.
  destruct (Client.candidates this cKeys ∅) as [[eKeys m] | e].
  - intros Hrun. apply fetchGroups_spec in Hrun.
    destruct Hrun as (n & Hn & -> & Hok).
    destruct (groupByArchive_inv (Client.resolvedLocations this eKeys))
      as [Hnd Hkeys Hun Hmem].
    eexists. split; [reflexivity |]. split; [| split].
    + rewrite <- (take_drop n) in Hnd. apply NoDup_app in Hnd. apply Hnd.
    + intros eKeys' m' [= <- <-]. apply prefix_take.
    + intros out Hout. destruct (Hok out Hout) as (-> & batches & -> & Hgroups).
      exists eKeys, m. split; [reflexivity |]. cbv zeta.
      rewrite <- (length_fmap fst), firstn_all.
      split; [rewrite length_fmap; apply groupByArchive_count |].
      split; [exact Hkeys |]. split; [reflexivity |]. split.
      * intros loc Hloc. destruct (Hmem loc Hloc) as (glocs & Hin & Hl).
        apply list_elem_of_lookup in Hin. destruct Hin as [i Hi]. eauto.
      * exists batches. split; [reflexivity |].
        intros i h glocs Hi. split; [| apply Hgroups; exact Hi].
        rewrite Forall_lookup in Hun. apply (Hun i (h, glocs) Hi).
  - unfold Client.throw. intros [= <- <-]. exists [].
    split; [rewrite app_nil_r; reflexivity |].
    split; [constructor |]. split; discriminate.
Qed.

Lemma getFiles_one_fetch_per_archive_witness :
  Client.getFiles noCodecs twinCdn twoArchiveClient
      ["e1"%string; "e2"%string; "e3"%string] []
    = Some (Ok [("e1"%string, ascii_bytes "hello");
                ("e3"%string, ascii_bytes "hello");
                ("e2"%string, ascii_bytes "hello")],
            ["ar1"%string; "ar2"%string])
  /\ NoDup ["ar1"%string; "ar2"%string]
  /\ length ["ar1"%string; "ar2"%string]
       = size (list_to_set (Indices.archiveHash <$> [loc1; loc2; loc3])
                 : gset string).
Proof.
  assert (Hrun : Client.getFiles noCodecs twinCdn twoArchiveClient
                   ["e1"%string; "e2"%string; "e3"%string] []
                 = Some (Ok [("e1"%string, ascii_bytes "hello");
                             ("e3"%string, ascii_bytes "hello");
                             ("e2"%string, ascii_bytes "hello")],
                         ["ar1"%string; "ar2"%string]))
    by (vm_compute; reflexivity).
  split; [exact Hrun |].
  destruct (getFiles_one_fetch_per_archive _ _ _ _ _ _ _ Hrun)
    as (fetched & Hlog & Hnd & _ & Hok).
  simpl in Hlog. subst fetched. split; [exact Hnd |].
  destruct (Hok _ eq_refl) as (eKeys & m & Hcand & Hlen & _).
  vm_compute in Hcand. injection Hcand as <- _.
  exact Hlen.
Defined.

(** * Further properties *)

(** ** utils/buffer.ts *)

Lemma be_to_Z_snoc (bs : list byte) (x : byte) :
  be_to_Z (bs ++ [x]) = be_to_Z bs * 256 + byteZ x.
Proof. unfold be_to_Z. rewrite fold_left_app. reflexivity. Qed.

Lemma byteZ_range (x : byte) : 0 <= byteZ x < 256.
Proof.
  unfold byteZ. pose proof (Byte.to_N_bounded x) as H. lia.
Qed.

Lemma be_to_Z_bound (bs : list byte) :
  0 <= be_to_Z bs < 256 ^ Z.of_nat (length bs).
Proof.
  induction bs as [|x bs IH] using rev_ind.
  - simpl. unfold be_to_Z. simpl. lia.
  - rewrite be_to_Z_snoc, length_app. simpl.
    replace (Z.of_nat (length bs + 1)) with (Z.of_nat (length bs) + 1) by lia.
    rewrite Z.pow_add_r by lia. pose proof (byteZ_range x). lia.
Qed.

Lemma subarray_length_le (b : list byte) (o n : Z) :
  0 <= n -> Z.of_nat (length (subarray b o (o + n))) <= n.
Proof.
  intros Hn. unfold subarray. rewrite length_take. lia.
Qed.

Lemma be_to_Z_subarray_bound (b : list byte) (o n : Z) :
  0 <= n -> 0 <= be_to_Z (subarray b o (o + n)) < 256 ^ n.
Proof.
  intros Hn. pose proof (be_to_Z_bound (subarray b o (o + n))) as [H0 H1].
  split; [exact H0 |]. eapply Z.lt_le_trans; [exact H1 |].
  apply Z.pow_le_mono_r; [lia |]. apply subarray_length_le. exact Hn.
Qed.

Lemma le_to_Z_subarray_bound (b : list byte) (o n : Z) :
  0 <= n -> 0 <= le_to_Z (subarray b o (o + n)) < 256 ^ n.
Proof.
  intros Hn. unfold le_to_Z.
  pose proof (be_to_Z_bound (rev (subarray b o (o + n)))) as [H0 H1].
  split; [exact H0 |]. eapply Z.lt_le_trans; [exact H1 |].
  apply Z.pow_le_mono_r; [lia |]. rewrite length_rev.
  apply subarray_length_le. exact Hn.
Qed.

(** The common shape of the fixed-width reads. *)
Lemma fixed_read {A : Type} (n : Z) (f : list byte -> A) (b : list byte) (o : Z) :
  BufferReader.bind BufferReader.alignToByte (fun _ =>
    BufferReader.bind (BufferReader.ensureAvailable n) (fun _ =>
      BufferReader.bind (BufferReader.take_bytes n) (fun bs =>
        BufferReader.ret (f bs)))) (readerAt b o)
  = if blen b <? o + n then (Throw RangeError, readerAt b o)
    else (Ok (f (subarray b o (o + n))), readerAt b (o + n)).
Proof.
  unfold BufferReader.bind, BufferReader.alignToByte,
    BufferReader.ensureAvailable, BufferReader.take_bytes, BufferReader.ret,
    readerAt; simpl.
  destruct (blen b <? o + n); reflexivity.
Qed.

Lemma uint32be_at (b : list byte) (o : Z) :
  BufferReader.uint32be (readerAt b o)
  = if blen b <? o + 4 then (Throw RangeError, readerAt b o)
    else (Ok (be_to_Z (subarray b o (o + 4))), readerAt b (o + 4)).
Proof. apply (fixed_read 4 be_to_Z). Qed.

Lemma uint32le_at (b : list byte) (o : Z) :
  BufferReader.uint32le (readerAt b o)
  = if blen b <? o + 4 then (Throw RangeError, readerAt b o)
    else (Ok (le_to_Z (subarray b o (o + 4))), readerAt b (o + 4)).
Proof. apply (fixed_read 4 le_to_Z). Qed.

Lemma string_hex_at (n : Z) (b : list byte) (o : Z) :
  BufferReader.string_hex n (readerAt b o)
  = if blen b <? o + n then (Throw RangeError, readerAt b o)
    else (Ok (toHex (subarray b o (o + n))), readerAt b (o + n)).
Proof. apply (fixed_read n toHex). Qed.

Lemma string_utf8_at (n : Z) (b : list byte) (o : Z) :
  BufferReader.string_utf8 n (readerAt b o)
  = if blen b <? o + n then (Throw RangeError, readerAt b o)
    else (Ok (subarray b o (o + n)), readerAt b (o + n)).
Proof.
  unfold BufferReader.string_utf8, BufferReader.bind, BufferReader.alignToByte,
    BufferReader.ensureAvailable, BufferReader.take_bytes, readerAt; simpl.
  destruct (blen b <? o + n); reflexivity.
Qed.

Lemma readsWidth_fixed (n : Z) (f : list byte -> Z) (lo hi : Z) :
  0 <= n ->
  (forall b o, lo <= f (subarray b o (o + n)) < hi) ->
  readsWidth
    (BufferReader.bind BufferReader.alignToByte (fun _ =>
       BufferReader.bind (BufferReader.ensureAvailable n) (fun _ =>
         BufferReader.bind (BufferReader.take_bytes n) (fun bs =>
           BufferReader.ret (f bs))))) n lo hi.
Proof.
  intros Hn Hf b o. rewrite fixed_read.
  destruct (Z.ltb_spec (blen b) (o + n)); auto.
Qed.

Lemma lor_bound (a b n : Z) :
  0 <= n -> 0 <= a < 2 ^ n -> 0 <= b < 2 ^ n -> 0 <= Z.lor a b < 2 ^ n.
Proof.
  intros Hn Ha Hb.
  assert (H0 : 0 <= Z.lor a b) by (apply Z.lor_nonneg; lia).
  split; [exact H0 |].
  destruct (Z.eq_dec (Z.lor a b) 0) as [-> | Hne]; [lia |].
  assert (Hpos : 0 < n).
  { destruct (Z.eq_dec n 0) as [-> | ?]; [| lia].
    assert (a = 0) by (simpl in Ha; lia). assert (b = 0) by (simpl in Hb; lia).
    exfalso. apply Hne. subst. reflexivity. }
  apply Z.log2_lt_pow2; [lia |].
  rewrite Z.log2_lor by lia.
  apply Z.max_lub_lt.
  - destruct (Z.eq_dec a 0) as [-> | ?]; [simpl; lia |].
    apply Z.log2_lt_pow2; lia.
  - destruct (Z.eq_dec b 0) as [-> | ?]; [simpl; lia |].
    apply Z.log2_lt_pow2; lia.
Qed.

Lemma uint8_at (b : list byte) (o : Z) :
  BufferReader.uint8 (readerAt b o)
  = if blen b <? o + 1 then (Throw RangeError, readerAt b o)
    else (Ok (be_to_Z (subarray b o (o + 1))), readerAt b (o + 1)).
Proof. apply (fixed_read 1 be_to_Z). Qed.

Lemma uint24be_at (b : list byte) (o : Z) :
  BufferReader.uint24be (readerAt b o)
  = if blen b <? o + 3 then (Throw RangeError, readerAt b o)
    else
      (Ok (Z.lor
             (Z.lor (Z.shiftl (be_to_Z (subarray b o (o + 1))) 16)
                    (Z.shiftl (be_to_Z (subarray b (o + 1) (o + 1 + 1))) 8))
             (be_to_Z (subarray b (o + 1 + 1) (o + 1 + 1 + 1)))),
       readerAt b (o + 1 + 1 + 1)).
Proof.
  unfold BufferReader.uint24be.
  unfold BufferReader.bind at 1. unfold BufferReader.alignToByte at 1.
  cbn [BufferReader.bitOffset readerAt Z.eqb negb].
  unfold BufferReader.bind at 1. unfold BufferReader.ensureAvailable at 1.
  cbn [BufferReader.buf BufferReader.offset readerAt].
  destruct (Z.ltb_spec (blen b) (o + 3)); [reflexivity |].
  fold (readerAt b o).
  unfold BufferReader.bind at 1. rewrite uint8_at.
  destruct (Z.ltb_spec (blen b) (o + 1)); [lia |].
  unfold BufferReader.bind at 1. rewrite uint8_at.
  destruct (Z.ltb_spec (blen b) (o + 1 + 1)); [lia |].
  unfold BufferReader.bind at 1. rewrite uint8_at.
  destruct (Z.ltb_spec (blen b) (o + 1 + 1 + 1)); [lia |].
  reflexivity.
Qed.

Lemma uint24_bound (v0 v1 v2 : Z) :
  0 <= v0 < 256 -> 0 <= v1 < 256 -> 0 <= v2 < 256 ->
  0 <= Z.lor (Z.lor (Z.shiftl v0 16) (Z.shiftl v1 8)) v2 < 2 ^ 24.
Proof.
  intros H0 H1 H2. rewrite !Z.shiftl_mul_pow2 by lia.
  apply lor_bound; [lia | | lia].
  apply lor_bound; lia.
Qed.

(** X1: every fixed-width read of the reader, on a byte-aligned reader,
    either throws [RangeError] for lack of bytes and leaves the position
    where it was, or moves the position by exactly its width and returns
    a value of that width (signed for [int32le]). *)
Theorem fixed_width_reads :
  readsWidth BufferReader.uint8 1 0 (2 ^ 8)
  /\ readsWidth BufferReader.uint16be 2 0 (2 ^ 16)
  /\ readsWidth BufferReader.uint24be 3 0 (2 ^ 24)
  /\ readsWidth BufferReader.uint32be 4 0 (2 ^ 32)
  /\ readsWidth BufferReader.uint64be 8 0 (2 ^ 64)
  /\ readsWidth BufferReader.uint16le 2 0 (2 ^ 16)
  /\ readsWidth BufferReader.uint32le 4 0 (2 ^ 32)
  /\ readsWidth BufferReader.int32le 4 (- 2 ^ 31) (2 ^ 31)
  /\ readsWidth BufferReader.uint64le 8 0 (2 ^ 64).
Proof.
  repeat split;
    try (apply readsWidth_fixed; [lia |]; intros b o;
         first [ apply (be_to_Z_subarray_bound b o)
               | apply (le_to_Z_subarray_bound b o)
               | apply toInt32_range ]; lia).
  intros b o. rewrite uint24be_at.
  destruct (Z.ltb_spec (blen b) (o + 3)); [auto |].
  split; [lia |]. split; [f_equal; lia |].
  apply uint24_bound.
  - apply (be_to_Z_subarray_bound b o 1). lia.
  - apply (be_to_Z_subarray_bound b (o + 1) 1). lia.
  - apply (be_to_Z_subarray_bound b (o + 1 + 1) 1). lia.
Qed.

Lemma testbit_small (b k n : Z) :
  0 <= b < 2 ^ k -> k <= n -> Z.testbit b n = false.
Proof.
  intros Hb Hn. destruct (Z.eq_dec b 0) as [-> | Hne]; [apply Z.bits_0 |].
  apply Z.bits_above_log2; [lia |].
  assert (Z.log2 b < k); [| lia].
  apply Z.log2_lt_pow2; lia.
Qed.

Lemma lor_shiftl_add (a b k : Z) :
  0 <= k -> 0 <= b < 2 ^ k -> Z.lor (Z.shiftl a k) b = a * 2 ^ k + b.
Proof.
  intros Hk Hb.
  assert (Hland : Z.land (Z.shiftl a k) b = 0).
  { apply Z.bits_inj'. intros n Hn. rewrite Z.land_spec, Z.bits_0.
    destruct (Z.lt_ge_cases n k).
    - rewrite Z.shiftl_spec_low by lia. reflexivity.
    - rewrite (testbit_small b k n) by lia. apply andb_false_r. }
  rewrite <- Z.lxor_lor by exact Hland.
  rewrite <- Z.add_nocarry_lxor by exact Hland.
  rewrite Z.shiftl_mul_pow2 by lia. reflexivity.
Qed.

Lemma uint24be_bytes (b : list byte) (o : Z) (x0 x1 x2 : byte) :
  0 <= o ->
  b !! Z.to_nat o = Some x0 ->
  b !! Z.to_nat (o + 1) = Some x1 ->
  b !! Z.to_nat (o + 2) = Some x2 ->
  BufferReader.uint24be (readerAt b o)
    = (Ok (byteZ x0 * 65536 + byteZ x1 * 256 + byteZ x2), readerAt b (o + 3)).
Proof.
  intros Ho H0 H1 H2.
  rewrite uint24be_at.
  assert (Hlen : o + 2 < blen b).
  { apply lookup_lt_Some in H2. unfold blen. lia. }
  destruct (Z.ltb_spec (blen b) (o + 3)); [lia |].
  rewrite (subarray_one b o x0 Ho H0).
  rewrite (subarray_one b (o + 1) x1) by (try lia; exact H1).
  replace (o + 1 + 1) with (o + 2) by lia.
  rewrite (subarray_one b (o + 2) x2) by (try lia; exact H2).
  replace (o + 2 + 1) with (o + 3) by lia.
  f_equal. f_equal.
  pose proof (byteZ_range x0). pose proof (byteZ_range x1).
  pose proof (byteZ_range x2).
  change (be_to_Z [x0]) with (0 * 256 + byteZ x0).
  change (be_to_Z [x1]) with (0 * 256 + byteZ x1).
  change (be_to_Z [x2]) with (0 * 256 + byteZ x2).
  rewrite !Z.mul_0_l, !Z.add_0_l.
  rewrite (Z.shiftl_mul_pow2 (byteZ x1) 8) by lia.
  rewrite (lor_shiftl_add (byteZ x0) (byteZ x1 * 2 ^ 8) 16) by lia.
  replace (byteZ x0 * 2 ^ 16 + byteZ x1 * 2 ^ 8)
    with (Z.shiftl (byteZ x0 * 2 ^ 8 + byteZ x1) 8)
    by (rewrite Z.shiftl_mul_pow2 by lia; lia).
  rewrite lor_shiftl_add by lia. lia.
Qed.

(** The three bytes at a position that has them. *)
Lemma three_bytes (b : list byte) (o : Z) :
  0 <= o -> o + 3 <= blen b ->
  exists x0 x1 x2,
    b !! Z.to_nat o = Some x0 /\
    b !! Z.to_nat (o + 1) = Some x1 /\
    b !! Z.to_nat (o + 2) = Some x2 /\
    subarray b o (o + 3) = [x0; x1; x2].
Proof.
  intros Ho Hlen. unfold blen in Hlen.
  destruct (lookup_lt_is_Some_2 b (Z.to_nat o)) as [x0 H0]; [lia |].
  destruct (lookup_lt_is_Some_2 b (Z.to_nat (o + 1))) as [x1 H1]; [lia |].
  destruct (lookup_lt_is_Some_2 b (Z.to_nat (o + 2))) as [x2 H2]; [lia |].
  exists x0, x1, x2. repeat split; try assumption.
  rewrite subarray_take_drop by lia. change (Z.to_nat 3) with 3%nat.
  rewrite (drop_S _ _ _ H0).
  replace (Z.to_nat (o + 1)) with (S (Z.to_nat o)) in H1 by lia.
  rewrite (drop_S _ _ _ H1).
  replace (Z.to_nat (o + 2)) with (S (S (Z.to_nat o))) in H2 by lia.
  rewrite (drop_S _ _ _ H2). reflexivity.
Qed.

Lemma uint24be_be (b : list byte) (o : Z) :
  0 <= o -> o + 3 <= blen b ->
  BufferReader.uint24be (readerAt b o)
    = (Ok (be_to_Z (subarray b o (o + 3))), readerAt b (o + 3)).
Proof.
  intros Ho Hlen.
  destruct (three_bytes b o Ho Hlen) as (x0 & x1 & x2 & H0 & H1 & H2 & ->).
  rewrite (uint24be_bytes b o x0 x1 x2) by assumption.
  f_equal. f_equal. unfold be_to_Z. simpl. lia.
Qed.

(** X2: [uint24be], which is put together from three [uint8] reads with
    shifts and bitwise or, returns the big-endian value of the three bytes
    at the position: [b0 * 65536 + b1 * 256 + b2]. *)
Theorem uint24be_value (b : list byte) (o : Z) (x0 x1 x2 : byte) :
  0 <= o ->
  b !! Z.to_nat o = Some x0 ->
  b !! Z.to_nat (o + 1) = Some x1 ->
  b !! Z.to_nat (o + 2) = Some x2 ->
  BufferReader.uint24be (readerAt b o)
    = (Ok (byteZ x0 * 65536 + byteZ x1 * 256 + byteZ x2), readerAt b (o + 3))
  /\ byteZ x0 * 65536 + byteZ x1 * 256 + byteZ x2 = be_to_Z [x0; x1; x2].
Proof.
  intros Ho H0 H1 H2. split; [| unfold be_to_Z; simpl; lia].
  apply uint24be_bytes; assumption.
Qed.

Lemma uint24be_value_witness :
  BufferReader.uint24be (readerAt [x01; x02; x03; x04] 1)
    = (Ok 131844, readerAt [x01; x02; x03; x04] 4).
Proof.
  destruct (uint24be_value [x01; x02; x03; x04] 1 x02 x03 x04) as [Hread _];
    [lia | reflexivity | reflexivity | reflexivity |].
  rewrite Hread. reflexivity.
Defined.

Lemma bits8_byte (x : byte) (b : list byte) (o : Z) :
  (blen b <? o + 1) = false ->
  b !! Z.to_nat o = Some x ->
  BufferReader.bits 8 (readerAt b o) = (Ok (byteZ x), readerAt b (o + 1)).
Proof.
  intros Hcond Hx. unfold BufferReader.bits.
  change (orb (8 <=? 0) (32 <? 8)) with false. cbv iota.
  change (Z.to_nat 8) with 8%nat.
  unfold readerAt.
  do 8 (cbn [BufferReader.bitsLoop];
        unfold BufferReader.bind at 1; unfold BufferReader.ensureAvailable at 1;
        cbn [BufferReader.buf BufferReader.offset BufferReader.bitOffset];
        rewrite Hcond;
        cbn [BufferReader.buf BufferReader.offset BufferReader.bitOffset];
        rewrite Hx;
        match goal with
        | |- context [if ?k + 1 =? 8 then _ else _] =>
            let c := eval vm_compute in (k + 1 =? 8) in
            change (k + 1 =? 8) with c; cbv iota
        end;
        match goal with
        | |- context [BufferReader.mk b o (?k + 1)] =>
            let c := eval vm_compute in (k + 1) in
            change (k + 1) with c
        | _ => idtac
        end).
  cbn [BufferReader.bitsLoop]. unfold BufferReader.ret.
  f_equal. f_equal. destruct x; vm_compute; reflexivity.
Qed.

(** X3: on a byte-aligned reader, reading eight bits is reading one
    byte: [bits(8)] returns the value of [uint8], leaves the same reader
    behind and fails in the same case. *)
Theorem bits8_is_uint8 (b : list byte) (o : Z) :
  0 <= o ->
  BufferReader.bits 8 (readerAt b o) = BufferReader.uint8 (readerAt b o).
Proof.
  intros Ho. rewrite uint8_at.
  destruct (Z.ltb_spec (blen b) (o + 1)) as [Hshort | Hlong].
  - unfold BufferReader.bits.
    change (orb (8 <=? 0) (32 <? 8)) with false. cbv iota.
    change (Z.to_nat 8) with 8%nat. cbn [BufferReader.bitsLoop].
    unfold BufferReader.bind at 1. unfold BufferReader.ensureAvailable.
    cbn [BufferReader.buf BufferReader.offset readerAt].
    destruct (Z.ltb_spec (blen b) (o + 1)); [reflexivity | lia].
  - assert (Hlt : (Z.to_nat o < length b)%nat) by (unfold blen in Hlong; lia).
    destruct (lookup_lt_is_Some_2 _ _ Hlt) as [x Hx].
    rewrite (subarray_one b o x Ho Hx).
    rewrite (bits8_byte x b o) by (try exact Hx; apply Z.ltb_ge; lia).
    reflexivity.
Qed.

Lemma bits8_is_uint8_witness :
  BufferReader.bits 8 (readerAt [xab; xcd] 1) = (Ok 205, readerAt [xab; xcd] 2).
Proof.
  rewrite (bits8_is_uint8 [xab; xcd] 1); [reflexivity | lia].
Defined.

(** X4: [raw()] without a length returns all the bytes from the
    position to the end and leaves the reader at the end of the buffer;
    but on a reader that stands inside a byte (after a partial [bits]
    read) it always throws [RangeError], because the length is taken
    before the alignment moves the position on. *)
Theorem raw_rest (b : list byte) (o k : Z) :
  0 <= o <= blen b ->
  BufferReader.raw None (readerAt b o)
    = (Ok (drop (Z.to_nat o) b), readerAt b (blen b))
  /\ BufferReader.eof (readerAt b (blen b)) = true
  /\ (k <> 0 ->
      fst (BufferReader.raw None (BufferReader.mk b o k)) = Throw RangeError).
Proof.
  intros Ho. split; [| split].
  - unfold BufferReader.raw, BufferReader.remaining.
    cbn [BufferReader.buf BufferReader.offset readerAt].
    change (BufferReader.mk b o 0) with (readerAt b o).
    unfold BufferReader.bind, BufferReader.alignToByte,
      BufferReader.ensureAvailable, BufferReader.take_bytes, readerAt; simpl.
    destruct (Z.ltb_spec (blen b) (o + (blen b - o))); [lia |].
    simpl. f_equal; [| f_equal; lia].
    f_equal. unfold subarray. rewrite take_ge; [reflexivity |].
    rewrite length_drop. unfold blen. lia.
  - unfold BufferReader.eof. simpl. apply Z.leb_refl.
  - intros Hk. unfold BufferReader.raw, BufferReader.remaining,
      BufferReader.bind, BufferReader.alignToByte,
      BufferReader.ensureAvailable; simpl.
    destruct (Z.eqb_spec k 0); [contradiction |]. simpl.
    destruct (Z.ltb_spec (blen b) (o + 1 + (blen b - o))); [reflexivity | lia].
Qed.

Lemma raw_rest_witness :
  BufferReader.raw None (readerAt [x01; x02; x03] 1)
    = (Ok [x02; x03], readerAt [x01; x02; x03] 3)
  /\ fst (BufferReader.raw None (BufferReader.mk [x01; x02; x03] 1 4))
       = Throw RangeError.
Proof.
  destruct (raw_rest [x01; x02; x03] 1 4) as (Hrest & _ & Hthrow);
    [vm_compute; split; discriminate |].
  split; [exact Hrest | apply Hthrow; discriminate].
Defined.

(** ** indices.ts *)

Lemma cutFooter_facts (buffer : list byte) :
  exists q : Z,
    0 <= q /\
    Indices.cutFooter buffer = take (Z.to_nat (4096 * q)) buffer /\
    blen (Indices.cutFooter buffer) = 4096 * q /\
    blen buffer - 4096 < 4096 * q <= blen buffer /\
    (blen buffer mod 4096 = 0 -> Indices.cutFooter buffer = buffer).
Proof.
  pose proof (blen_nonneg buffer) as Hlen.
  unfold Indices.cutFooter, Indices.pageSize, Indices.ceilDiv.
  destruct (Z.eqb_spec (blen buffer mod 4096) 0) as [Hal | Hnal]; cbn [negb].
  - exists (blen buffer / 4096).
    assert (Heq : 4096 * (blen buffer / 4096) = blen buffer)
      by (Z.div_mod_to_equations; lia).
    split; [Z.div_mod_to_equations; lia |]. rewrite Heq.
    split; [rewrite take_ge; [reflexivity | unfold blen; lia] |].
    split; [reflexivity |]. split; [lia | reflexivity].
  - exists (blen buffer / 4096).
    assert (Hq : (- (- blen buffer / 4096) - 1) * 4096 = 4096 * (blen buffer / 4096))
      by (Z.div_mod_to_equations; lia).
    rewrite Hq.
    assert (Hle : 4096 * (blen buffer / 4096) <= blen buffer)
      by (Z.div_mod_to_equations; lia).
    assert (Hq0 : 0 <= blen buffer / 4096) by (Z.div_mod_to_equations; lia).
    split; [exact Hq0 |].
    unfold subarray. rewrite drop_0, Z.sub_0_r.
    split; [reflexivity |].
    split; [unfold blen in *; rewrite length_take; lia |].
    split; [Z.div_mod_to_equations; lia | contradiction].
Qed.

(** X5: the data region that [parseIndexEntry] parses is a prefix of
    the buffer whose length is a multiple of the page size: fewer than
    4096 bytes are cut off, and a buffer whose length is a multiple of
    4096 is parsed whole, its last page included. *)
Theorem cutFooter_region (buffer : list byte) :
  Indices.cutFooter buffer `prefix_of` buffer
  /\ blen (Indices.cutFooter buffer) mod Indices.pageSize = 0
  /\ blen buffer - Indices.pageSize < blen (Indices.cutFooter buffer)
       <= blen buffer
  /\ (blen buffer mod Indices.pageSize = 0 -> Indices.cutFooter buffer = buffer).
Proof.
  destruct (cutFooter_facts buffer) as (q & Hq & Hcut & Hlen & Hbounds & Hal).
  unfold Indices.pageSize. rewrite Hlen.
  split; [rewrite Hcut; apply prefix_take |].
  split; [rewrite Z.mul_comm; apply Z_mod_mult |].
  split; [exact Hbounds | exact Hal].
Qed.

Lemma cutFooter_region_witness :
  Indices.cutFooter (repeat x00 (4096 + 4096)) = repeat x00 (4096 + 4096).
Proof.
  destruct (cutFooter_region (repeat x00 (4096 + 4096))) as (_ & _ & _ & Hal).
  apply Hal. vm_compute. reflexivity.
Defined.

Lemma toHex_length (bs : list byte) :
  String.length (toHex bs) = (2 * length bs)%nat.
Proof.
  induction bs as [|x bs IH]; simpl; [reflexivity |]. rewrite IH. lia.
Qed.



(** X7: a buffer shorter than one page has no data region: nothing is
    parsed from it, whatever it holds. *)
Theorem parseIndexEntry_short_buffer
    (buffer : list byte) (hash : string) (src : Indices.IndexSource) :
  blen buffer < 4096 ->
  Indices.cutFooter buffer = [] /\
  Indices.parseIndexEntry buffer hash src = Some [].
Proof.
  intros Hshort.
  destruct (cutFooter_facts buffer) as (q & Hq & Hcut & Hlen & Hbounds & _).
  assert (q = 0) by lia. subst q.
  assert (Hnil : Indices.cutFooter buffer = []) by (rewrite Hcut; reflexivity).
  split; [exact Hnil |].
  rewrite parseIndexEntry_records, Hnil. reflexivity.
Qed.

Lemma parseIndexEntry_short_buffer_witness :
  Indices.parseIndexEntry goodRecord "ab" Indices.archive = Some [].
Proof.
  apply (parseIndexEntry_short_buffer goodRecord "ab" Indices.archive).
  vm_compute. reflexivity.
Defined.

(** ** blte.ts *)

Ltac read_step :=
  unfold BufferReader.bind at 1;
  first [ rewrite string_utf8_at | rewrite uint32be_at | rewrite uint8_at
        | rewrite uint24be_at | rewrite string_hex_at | rewrite uint32le_at ];
  match goal with
  | |- context [if blen ?b <? ?x then _ else _] =>
      destruct (Z.ltb_spec (blen b) x)
  end;
  cbv beta iota.

Lemma bytes_eqb_eq (a b : list byte) : bytes_eqb a b = true <-> a = b.
Proof.
  revert b. induction a as [|x a IH]; intros [|y b]; simpl;
    try (split; [discriminate | discriminate]); [split; reflexivity |].
  rewrite andb_true_iff, IH. split.
  - intros [Hxy ->]. apply Byte.byte_dec_bl in Hxy. congruence.
  - intros [= -> ->]. split; [apply Byte.byte_dec_lb |]; reflexivity.
Qed.

Lemma entrySize_pos (format : Z) : 0 < entrySize format.
Proof. unfold entrySize. destruct (format =? 16); lia. Qed.

Lemma parseHeaderBlock_at (format : Z) (b : list byte) (o : Z) :
  match BLTE.parseHeaderBlock format (readerAt b o) with
  | (Ok blk, r) =>
      o + entrySize format <= blen b /\
      blk = blockAt format b o /\ r = readerAt b (o + entrySize format)
  | (Throw e, _) => blen b < o + entrySize format /\ e = RangeError
  end.
Proof.
  unfold BLTE.parseHeaderBlock, entrySize, blockAt.
  read_step; [split; [destruct (format =? 16); lia | reflexivity] |].
  read_step; [split; [destruct (format =? 16); lia | reflexivity] |].
  read_step; [split; [destruct (format =? 16); lia | reflexivity] |].
  destruct (format =? 16).
  - read_step; [split; [lia | reflexivity] |].
    unfold BufferReader.ret. split; [lia |]. split; [reflexivity |].
    f_equal. lia.
  - unfold BufferReader.ret. split; [lia |]. split; [reflexivity |].
    f_equal. lia.
Qed.

Lemma parseHeaderBlocks_ok (format : Z) (b : list byte) (n : nat) :
  forall (o : Z) (acc : list BLTE.BLTEBlock),
    o + entrySize format * Z.of_nat n <= blen b ->
    BLTE.parseHeaderBlocks n format acc (readerAt b o)
      = (Ok (acc ++ blocksAt n format b o),
         readerAt b (o + entrySize format * Z.of_nat n)).
Proof.
  pose proof (entrySize_pos format) as Hpos.
  induction n as [|n IH]; intros o acc Hfit.
  - simpl. unfold BufferReader.ret. rewrite app_nil_r. f_equal. f_equal. lia.
  - cbn [BLTE.parseHeaderBlocks blocksAt]. unfold BufferReader.bind at 1.
    pose proof (parseHeaderBlock_at format b o) as Hblk.
    destruct (BLTE.parseHeaderBlock format (readerAt b o)) as [[blk | e] r];
      [| nia].
    destruct Hblk as (_ & -> & ->).
    rewrite IH by nia. rewrite <- app_assoc. f_equal. f_equal. lia.
Qed.

Lemma parseHeaderBlocks_fits (format : Z) (b : list byte) (n : nat) :
  forall (o : Z) (acc bs : list BLTE.BLTEBlock) (r : BufferReader.t),
    BLTE.parseHeaderBlocks n format acc (readerAt b o) = (Ok bs, r) ->
    n = O \/ o + entrySize format * Z.of_nat n <= blen b.
Proof.
  pose proof (entrySize_pos format) as Hpos.
  induction n as [|n IH]; intros o acc bs r; [auto |].
  cbn [BLTE.parseHeaderBlocks]. unfold BufferReader.bind at 1.
  pose proof (parseHeaderBlock_at format b o) as Hblk.
  destruct (BLTE.parseHeaderBlock format (readerAt b o)) as [[blk | e] r0];
    [| discriminate].
  destruct Hblk as (Hfit & -> & ->).
  intros H. apply IH in H. right. destruct H as [-> | H]; lia.
Qed.

Lemma blocksAt_length (n : nat) (format : Z) (b : list byte) (o : Z) :
  length (blocksAt n format b o) = n.
Proof.
  revert o. induction n as [|n IH]; intros o; simpl; [reflexivity |].
  rewrite IH. reflexivity.
Qed.

Lemma blocksAt_parsed (n : nat) (format : Z) (b : list byte) :
  forall o, Forall (parsedBlock format) (blocksAt n format b o).
Proof.
  induction n as [|n IH]; intros o; simpl; constructor; [| apply IH].
  unfold parsedBlock, blockAt; simpl.
  split; [apply (be_to_Z_subarray_bound b o 4); lia |].
  split; [apply (be_to_Z_subarray_bound b (o + 4) 4); lia |].
  destruct (Z.eqb_spec format 16); assumption.
Qed.

(** What a successful [parseHeader] has read. *)
Lemma parseHeader_ok (b : list byte) (hs bc : Z) (bs : list BLTE.BLTEBlock)
    (r : BufferReader.t) :
  BLTE.parseHeader (readerAt b 0) = (Ok (hs, bc, bs), r) ->
  exists format,
    subarray b 0 4 = ascii_bytes "BLTE" /\
    hs = be_to_Z (subarray b 4 8) /\ hs <> 0 /\
    format = be_to_Z (subarray b 8 9) /\ (format = 15 \/ format = 16) /\
    0 < bc < 2 ^ 24 /\
    12 + entrySize format * bc <= blen b /\
    bs = blocksAt (Z.to_nat bc) format b 12 /\
    r = readerAt b (12 + entrySize format * bc).
Proof.
  unfold BLTE.parseHeader.
  read_step; [discriminate |].
  change (0 + 4) with 4.
  destruct (bytes_eqb (subarray b 0 4) (ascii_bytes "BLTE")) eqn:Hsig;
    cbn [negb]; cbv beta iota; [| unfold BufferReader.throw; discriminate].
  read_step; [discriminate |].
  destruct (Z.eqb_spec (be_to_Z (subarray b 4 (4 + 4))) 0);
    [unfold BufferReader.throw; discriminate |].
  read_step; [discriminate |].
  set (format := be_to_Z (subarray b (4 + 4) (4 + 4 + 1))).
  destruct (Z.eqb_spec format 15) as [H15 | H15];
    destruct (Z.eqb_spec format 16) as [H16 | H16]; cbn [negb andb];
    cbv beta iota; try (unfold BufferReader.throw; discriminate).
  all: read_step; [discriminate |].
  all: match goal with
       | |- context [if ?v =? 0 then _ else _] =>
           set (bc0 := v); destruct (Z.eqb_spec bc0 0);
           [unfold BufferReader.throw; discriminate |]
       end.
  all: unfold BufferReader.bind at 1.
  all: destruct (BLTE.parseHeaderBlocks (Z.to_nat bc0) format []
                   (readerAt b (4 + 4 + 1 + 1 + 1 + 1)))
         as [[bs0 | e] r0] eqn:Hblocks; [| discriminate].
  all: unfold BufferReader.ret; intros [= <- <- <- <-].
  all: assert (Hbc : 0 <= bc0 < 2 ^ 24)
         by (apply uint24_bound;
             [ apply (be_to_Z_subarray_bound b (4 + 4 + 1) 1)
             | apply (be_to_Z_subarray_bound b (4 + 4 + 1 + 1) 1)
             | apply (be_to_Z_subarray_bound b (4 + 4 + 1 + 1 + 1) 1) ]; lia).
  all: pose proof (parseHeaderBlocks_fits _ _ _ _ _ _ _ Hblocks) as Hfit.
  all: assert (Hfit' : 12 + entrySize format * bc0 <= blen b)
         by (destruct Hfit as [Hz | Hfit]; [lia | rewrite Z2Nat.id in Hfit; lia]).
  all: rewrite parseHeaderBlocks_ok in Hblocks by (rewrite Z2Nat.id; lia).
  all: injection Hblocks as <- <-.
  all: exists format.
  all: (split; [apply bytes_eqb_eq; exact Hsig |]).
  all: (split; [reflexivity |]). all: (split; [assumption |]).
  all: (split; [reflexivity |]). all: (split; [auto |]).
  all: (split; [lia |]). all: (split; [lia |]).
  all: (split; [reflexivity |]). all: (f_equal; lia).
Qed.

Lemma parseHeaderBlocks_throw (format : Z) (b : list byte) (n : nat) :
  forall (o : Z) (acc : list BLTE.BLTEBlock) (e : exn) (r : BufferReader.t),
    BLTE.parseHeaderBlocks n format acc (readerAt b o) = (Throw e, r) ->
    e = RangeError.
Proof.
  induction n as [|n IH]; intros o acc e r; [discriminate |].
  cbn [BLTE.parseHeaderBlocks]. unfold BufferReader.bind at 1.
  pose proof (parseHeaderBlock_at format b o) as Hblk.
  destruct (BLTE.parseHeaderBlock format (readerAt b o)) as [[blk | e0] r0].
  - destruct Hblk as (_ & -> & ->). apply IH.
  - destruct Hblk as [_ ->]. intros [= <- _]. reflexivity.
Qed.

Lemma parseHeaderBlocks_short (format : Z) (b : list byte) (n : nat)
    (o : Z) (acc : list BLTE.BLTEBlock) :
  n <> O -> blen b < o + entrySize format * Z.of_nat n ->
  fst (BLTE.parseHeaderBlocks n format acc (readerAt b o)) = Throw RangeError.
Proof.
  intros Hn Hshort.
  destruct (BLTE.parseHeaderBlocks n format acc (readerAt b o))
    as [[bs | e] r] eqn:Hrun; simpl.
  - apply parseHeaderBlocks_fits in Hrun. destruct Hrun; [contradiction | lia].
  - apply parseHeaderBlocks_throw in Hrun. congruence.
Qed.

Lemma new_checkHeader (b : list byte) : BLTE.new b = checkHeader b.
Proof.
  unfold BLTE.new, checkHeader.
  change (BufferReader.new b) with (readerAt b 0).
  unfold BLTE.parseHeader.
  read_step; change (0 + 4) with 4 in *;
    destruct (Z.ltb_spec (blen b) 4); try lia; [reflexivity |].
  destruct (bytes_eqb (subarray b 0 4) (ascii_bytes "BLTE")); cbn [negb];
    cbv beta iota; [| reflexivity].
  read_step; change (4 + 4) with 8 in *;
    destruct (Z.ltb_spec (blen b) 8); try lia; [reflexivity |].
  destruct (be_to_Z (subarray b 4 8) =? 0); [reflexivity |].
  read_step; change (8 + 1) with 9 in *;
    destruct (Z.ltb_spec (blen b) 9); try lia; [reflexivity |].
  destruct (negb (be_to_Z (subarray b 8 9) =? 15)
            && negb (be_to_Z (subarray b 8 9) =? 16)); [reflexivity |].
  unfold BufferReader.bind at 1.
  destruct (Z.ltb_spec (blen b) 12).
  - rewrite uint24be_at. destruct (Z.ltb_spec (blen b) (9 + 3)); [| lia].
    reflexivity.
  - rewrite uint24be_be by lia. change (9 + 3) with 12.
    set (bc := be_to_Z (subarray b 9 12)).
    assert (Hbc : 0 <= bc < 256 ^ 3)
      by (apply (be_to_Z_subarray_bound b 9 3); lia).
    destruct (Z.eqb_spec bc 0); [reflexivity |].
    unfold BufferReader.bind at 1.
    set (format := be_to_Z (subarray b 8 9)).
    destruct (Z.ltb_spec (blen b) (12 + entrySize format * bc)).
    + pose proof (parseHeaderBlocks_short format b (Z.to_nat bc) 12 []) as Hs.
      destruct (BLTE.parseHeaderBlocks (Z.to_nat bc) format [] (readerAt b 12))
        as [[bs | e] r]; simpl in Hs.
      * exfalso. assert (Hf : @Ok (list BLTE.BLTEBlock) bs = Throw RangeError);
          [apply Hs; [lia | rewrite Z2Nat.id; lia] | discriminate].
      * assert (He : @Throw (list BLTE.BLTEBlock) e = Throw RangeError)
          by (apply Hs; [lia | rewrite Z2Nat.id; lia]).
        injection He as ->. reflexivity.
    + rewrite parseHeaderBlocks_ok by (rewrite Z2Nat.id; lia).
      unfold BufferReader.ret. rewrite Z2Nat.id by lia. reflexivity.
Qed.

(** X8: the constructor of [BLTEReader] is this sequence of checks on
    the bytes of the header: the magic at 0, a non-zero header size at 4,
    the format [0x0f] or [0x10] at 8, a non-zero block count at 9 and a
    block table of 24 or 40 bytes per block that fits into the buffer.  A
    missing byte is a [RangeError], a failed check its own error, and the
    first failure decides. *)
Theorem new_is_checkHeader (b : list byte) : BLTE.new b = checkHeader b.
Proof. apply new_checkHeader. Qed.

(** X9: a reader that the constructor has built holds as many blocks as
    its block count says, at least one; its header size is positive, its
    sizes are 32-bit numbers, the second hash is there exactly for the
    format [0x10], and its position is the end of the block table, inside
    the buffer. *)
Theorem new_wellFormed (b : list byte) (this : BLTE.t) :
  BLTE.new b = Ok this ->
  BufferReader.buf (BLTE.buffer this) = b
  /\ 0 < BLTE.headerSize this < 2 ^ 32
  /\ 0 < BLTE.blocksCount this < 2 ^ 24
  /\ Z.of_nat (length (BLTE.blocks this)) = BLTE.blocksCount this
  /\ exists format,
       (format = 15 \/ format = 16) /\
       BLTE.buffer this
         = readerAt b (12 + entrySize format * BLTE.blocksCount this) /\
       12 + entrySize format * BLTE.blocksCount this <= blen b /\
       Forall (parsedBlock format) (BLTE.blocks this).
Proof.
  unfold BLTE.new. change (BufferReader.new b) with (readerAt b 0).
  destruct (BLTE.parseHeader (readerAt b 0)) as [[[[hs bc] bs] | e] r] eqn:Hh;
    [| discriminate].
  intros [= <-]. cbn [BLTE.buffer BLTE.headerSize BLTE.blocksCount BLTE.blocks].
  apply parseHeader_ok in Hh.
  destruct Hh as (format & Hsig & -> & Hhs & Hf & Hfmt & Hbc & Hfit & -> & ->).
  split; [reflexivity |].
  split; [pose proof (be_to_Z_subarray_bound b 4 4 ltac:(lia)) as Hb;
          change (4 + 4) with 8 in Hb; change (256 ^ 4) with (2 ^ 32) in Hb; lia |].
  split; [exact Hbc |].
  split; [rewrite blocksAt_length; lia |].
  exists format. split; [exact Hfmt |]. split; [reflexivity |].
  split; [exact Hfit | apply blocksAt_parsed].
Qed.

Lemma new_wellFormed_witness :
  Z.of_nat (length (BLTE.blocks encryptedReader)) = BLTE.blocksCount encryptedReader
  /\ 0 < BLTE.headerSize encryptedReader < 2 ^ 32.
Proof.
  destruct (new_wellFormed (container x24 "E") encryptedReader)
    as (_ & Hhs & _ & Hlen & _); [vm_compute; reflexivity |].
  split; [exact Hlen | exact Hhs].
Defined.

(** *** Decoding one block *)

Lemma readBlock_in_range (o : Z) (blk : BLTE.BLTEBlock) (r : BufferReader.t) :
  0 <= o -> o + 1 <= blen (BufferReader.buf r) ->
  o + BLTE.compressedSize blk <= blen (BufferReader.buf r) ->
  BLTE.readBlock o blk r
    = (Ok (subarray (BufferReader.buf r) o (o + 1),
           subarray (BufferReader.buf r) (o + 1) (o + 1 + (BLTE.compressedSize blk - 1))),
       readerAt (BufferReader.buf r) (o + 1 + (BLTE.compressedSize blk - 1))).
Proof.
  intros Ho H1 Hcs.
  unfold BLTE.readBlock, BufferReader.seek, BufferReader.string_utf8,
    BufferReader.raw, BufferReader.bind, BufferReader.alignToByte,
    BufferReader.ensureAvailable, BufferReader.take_bytes, BufferReader.ret.
  destruct (Z.ltb_spec o 0); [lia |].
  destruct (Z.ltb_spec (blen (BufferReader.buf r)) o); [lia |]. simpl.
  destruct (Z.ltb_spec (blen (BufferReader.buf r)) (o + 1)); [lia |]. simpl.
  destruct (Z.ltb_spec (blen (BufferReader.buf r))
              (o + 1 + (BLTE.compressedSize blk - 1))); [lia |].
  reflexivity.
Qed.

(** A block that lies inside the container is read and handed to the
    [switch] with its tag byte and its payload. *)
Lemma getBlockData_in_range (codecs : Codecs)
    (nested : list byte -> option (result (list byte)))
    (this : BLTE.t) (i : Z) (blk : BLTE.BLTEBlock) (x : byte) :
  0 <= i ->
  BLTE.blocks this !! Z.to_nat i = Some blk ->
  0 <= BLTE.calcBlockOffset this (Z.to_nat i) ->
  BufferReader.buf (BLTE.buffer this)
    !! Z.to_nat (BLTE.calcBlockOffset this (Z.to_nat i)) = Some x ->
  BLTE.calcBlockOffset this (Z.to_nat i) + BLTE.compressedSize blk
    <= blen (BufferReader.buf (BLTE.buffer this)) ->
  let o := BLTE.calcBlockOffset this (Z.to_nat i) in
  let b := BufferReader.buf (BLTE.buffer this) in
  BLTE.getBlockData codecs nested this (BLTE.ByIndex i)
    = match BLTE.decodeBlock codecs nested [x]
              (subarray b (o + 1) (o + BLTE.compressedSize blk)) with
      | Some res =>
          Some (res, BLTE.withBuffer this
                       (readerAt b (o + BLTE.compressedSize blk)))
      | None => None
      end.
Proof.
  intros Hi Hblk Ho Hx Hfit. cbv zeta.
  assert (Hlt : BLTE.calcBlockOffset this (Z.to_nat i) + 1
                <= blen (BufferReader.buf (BLTE.buffer this))).
  { apply lookup_lt_Some in Hx. unfold blen. lia. }
  unfold BLTE.getBlockData, BLTE.selectBlock.
  destruct (Z.ltb_spec i 0); [lia |]. rewrite Hblk. simpl.
  rewrite readBlock_in_range by assumption.
  rewrite (subarray_one _ _ _ Ho Hx).
  replace (BLTE.calcBlockOffset this (Z.to_nat i) + 1
           + (BLTE.compressedSize blk - 1))
    with (BLTE.calcBlockOffset this (Z.to_nat i) + BLTE.compressedSize blk)
    by lia.
  reflexivity.
Qed.

Lemma byte_eqb_neq (x y : byte) : x <> y -> Byte.eqb x y = false.
Proof.
  intros Hne. destruct (Byte.eqb x y) eqn:Heq; [| reflexivity].
  apply Byte.byte_dec_bl in Heq. contradiction.
Qed.

(** X10: a block with the codec tag 'N' that lies inside the container
    is returned byte for byte: the output is the [compressedSize - 1]
    bytes after the tag.  The declared [decompressedSize] plays no part in
    it: it is never compared with the length of the output. *)
Theorem raw_block_payload (codecs : Codecs)
    (nested : list byte -> option (result (list byte)))
    (this : BLTE.t) (i : Z) (blk : BLTE.BLTEBlock) :
  0 <= i ->
  BLTE.blocks this !! Z.to_nat i = Some blk ->
  0 <= BLTE.calcBlockOffset this (Z.to_nat i) ->
  BufferReader.buf (BLTE.buffer this)
    !! Z.to_nat (BLTE.calcBlockOffset this (Z.to_nat i)) = Some "N"%byte ->
  1 <= BLTE.compressedSize blk ->
  BLTE.calcBlockOffset this (Z.to_nat i) + BLTE.compressedSize blk
    <= blen (BufferReader.buf (BLTE.buffer this)) ->
  exists data this',
    BLTE.getBlockData codecs nested this (BLTE.ByIndex i) = Some (Ok data, this')
    /\ data = subarray (BufferReader.buf (BLTE.buffer this))
                (BLTE.calcBlockOffset this (Z.to_nat i) + 1)
                (BLTE.calcBlockOffset this (Z.to_nat i) + BLTE.compressedSize blk)
    /\ blen data = BLTE.compressedSize blk - 1.
Proof.
  intros Hi Hblk Ho Hx Hcs Hfit.
  rewrite (getBlockData_in_range codecs nested this i blk "N"%byte)
    by assumption.
  eexists. eexists. split; [reflexivity |]. split; [reflexivity |].
  unfold subarray, blen in *. rewrite length_take, length_drop. lia.
Qed.

Lemma raw_block_payload_witness :
  exists this',
    BLTE.getBlockData noCodecs (fun _ => None)
      (BLTE.mk (readerAt (helloContainer x24) 36) 1 36
         [BLTE.mkBlock 6 77 "00" None]) (BLTE.ByIndex 0)
    = Some (Ok (ascii_bytes "hello"), this').
Proof.
  destruct (raw_block_payload noCodecs (fun _ => None)
              (BLTE.mk (readerAt (helloContainer x24) 36) 1 36
                 [BLTE.mkBlock 6 77 "00" None]) 0 (BLTE.mkBlock 6 77 "00" None))
    as (data & this' & Hget & Hdata & _).
  - lia.
  - reflexivity.
  - vm_compute. discriminate.
  - vm_compute. reflexivity.
  - vm_compute. discriminate.
  - vm_compute. discriminate.
  - exists this'. rewrite Hget, Hdata. vm_compute. reflexivity.
Defined.

(** X11: a block that lies inside the container and whose tag byte is
    none of 'N', 'Z', '4', 'F' and 'E' makes [getBlockData] throw
    "Unknown encoding", whatever its payload is. *)
Theorem unknown_codec_rejected (codecs : Codecs)
    (nested : list byte -> option (result (list byte)))
    (this : BLTE.t) (i : Z) (blk : BLTE.BLTEBlock) (x : byte) :
  0 <= i ->
  BLTE.blocks this !! Z.to_nat i = Some blk ->
  0 <= BLTE.calcBlockOffset this (Z.to_nat i) ->
  BufferReader.buf (BLTE.buffer this)
    !! Z.to_nat (BLTE.calcBlockOffset this (Z.to_nat i)) = Some x ->
  BLTE.calcBlockOffset this (Z.to_nat i) + BLTE.compressedSize blk
    <= blen (BufferReader.buf (BLTE.buffer this)) ->
  x <> "N"%byte -> x <> "Z"%byte -> x <> "4"%byte -> x <> "F"%byte ->
  x <> "E"%byte ->
  exists this',
    BLTE.getBlockData codecs nested this (BLTE.ByIndex i)
      = Some (Throw (Error "Unknown encoding"), this').
Proof.
  intros Hi Hblk Ho Hx Hfit HN HZ H4 HF HE.
  rewrite (getBlockData_in_range codecs nested this i blk x) by assumption.
  unfold BLTE.decodeBlock.
  change (ascii_bytes "N") with ["N"%byte].
  change (ascii_bytes "Z") with ["Z"%byte].
  change (ascii_bytes "4") with ["4"%byte].
  change (ascii_bytes "F") with ["F"%byte].
  change (ascii_bytes "E") with ["E"%byte].
  cbn [bytes_eqb].
  rewrite !byte_eqb_neq by assumption. cbn [andb]. eauto.
Qed.

Lemma unknown_codec_rejected_witness :
  exists this',
    BLTE.getBlockData noCodecs (fun _ => None)
      (BLTE.mk (readerAt (container x24 "X") 36) 1 36
         [BLTE.mkBlock 6 5 "00" None]) (BLTE.ByIndex 0)
    = Some (Throw (Error "Unknown encoding"), this').
Proof.
  apply (unknown_codec_rejected noCodecs (fun _ => None) _ 0
           (BLTE.mkBlock 6 5 "00" None) "X"%byte);
    try discriminate; try reflexivity; try lia; vm_compute; discriminate.
Defined.

Lemma raw_none_at (b : list byte) (o : Z) :
  0 <= o <= blen b ->
  BufferReader.raw None (readerAt b o)
    = (Ok (drop (Z.to_nat o) b), readerAt b (blen b)).
Proof.
  intros Ho. unfold BufferReader.raw, BufferReader.remaining.
  cbn [BufferReader.buf BufferReader.offset readerAt].
  change (BufferReader.mk b o 0) with (readerAt b o).
  unfold BufferReader.bind, BufferReader.alignToByte,
    BufferReader.ensureAvailable, BufferReader.take_bytes, readerAt; simpl.
  destruct (Z.ltb_spec (blen b) (o + (blen b - o))); [lia |].
  simpl. f_equal; [| f_equal; lia].
  f_equal. unfold subarray. rewrite take_ge; [reflexivity |].
  rewrite length_drop. unfold blen. lia.
Qed.

Lemma uint64be_at (b : list byte) (o : Z) :
  BufferReader.uint64be (readerAt b o)
  = if blen b <? o + 8 then (Throw RangeError, readerAt b o)
    else (Ok (be_to_Z (subarray b o (o + 8))), readerAt b (o + 8)).
Proof. apply (fixed_read 8 be_to_Z). Qed.

(** X12: the payload of a 'Z' block goes to [zlib.unzipSync] whole,
    and whatever that returns or throws is the result.  The payload of a
    '4' block has a header of ten bytes: a version byte that must be 1
    ("Unknown LZ4 version" otherwise), eight bytes of size and one of
    block shift, both read and ignored; a payload shorter than that
    header throws [RangeError], and otherwise [lz4.decode] gets exactly
    the bytes after the tenth. *)
Theorem codec_payloads (codecs : Codecs) (data : list byte) :
  BLTE.processZlibBlock codecs data = zlib_unzipSync codecs data
  /\ (data = [] -> BLTE.processLz4Block codecs data = Throw RangeError)
  /\ (forall v rest, data = v :: rest -> v <> x01 ->
        BLTE.processLz4Block codecs data = Throw (Error "Unknown LZ4 version"))
  /\ (forall rest, data = x01 :: rest -> (length rest < 9)%nat ->
        BLTE.processLz4Block codecs data = Throw RangeError)
  /\ (forall rest, data = x01 :: rest -> (9 <= length rest)%nat ->
        BLTE.processLz4Block codecs data = lz4_decode codecs (drop 9 rest)).
Proof.
  split; [| split; [| split; [| split]]].
  - unfold BLTE.processZlibBlock.
    change (BufferReader.new data) with (readerAt data 0).
    rewrite raw_none_at by (unfold blen; lia). reflexivity.
  - intros ->. reflexivity.
  - intros v rest -> Hv. unfold BLTE.processLz4Block.
    change (BufferReader.new (v :: rest)) with (readerAt (v :: rest) 0).
    unfold BufferReader.bind at 1. rewrite uint8_at.
    destruct (Z.ltb_spec (blen (v :: rest)) (0 + 1)) as [Hs | _];
      [unfold blen in Hs; simpl in Hs; lia |].
    cbv beta iota.
    assert (Hne : (be_to_Z (subarray (v :: rest) 0 (0 + 1)) =? 1) = false).
    { apply Z.eqb_neq. intros Heq. apply Hv. clear Hv.
      destruct v; vm_compute in Heq; first [discriminate | reflexivity]. }
    rewrite Hne. reflexivity.
  - intros rest -> Hlen. unfold BLTE.processLz4Block.
    change (BufferReader.new (x01 :: rest)) with (readerAt (x01 :: rest) 0).
    unfold BufferReader.bind at 1. rewrite uint8_at.
    destruct (Z.ltb_spec (blen (x01 :: rest)) (0 + 1)) as [Hs | _];
      [unfold blen in Hs; simpl in Hs; lia |].
    cbv beta iota.
    change (be_to_Z (subarray (x01 :: rest) 0 (0 + 1)) =? 1) with true.
    cbn [negb]. cbv iota.
    unfold BufferReader.bind at 1. rewrite uint64be_at.
    destruct (Z.ltb_spec (blen (x01 :: rest)) (0 + 1 + 8)) as [_ | Hlong];
      [reflexivity |].
    cbv beta iota. unfold BufferReader.bind at 1. rewrite uint8_at.
    destruct (Z.ltb_spec (blen (x01 :: rest)) (0 + 1 + 8 + 1)) as [_ | Hs];
      [reflexivity |].
    unfold blen in Hs. simpl in Hs. lia.
  - intros rest -> Hlen. unfold BLTE.processLz4Block.
    change (BufferReader.new (x01 :: rest)) with (readerAt (x01 :: rest) 0).
    unfold BufferReader.bind at 1. rewrite uint8_at.
    destruct (Z.ltb_spec (blen (x01 :: rest)) (0 + 1)) as [Hs | _];
      [unfold blen in Hs; simpl in Hs; lia |].
    cbv beta iota.
    change (be_to_Z (subarray (x01 :: rest) 0 (0 + 1)) =? 1) with true.
    cbn [negb]. cbv iota.
    unfold BufferReader.bind at 1. rewrite uint64be_at.
    destruct (Z.ltb_spec (blen (x01 :: rest)) (0 + 1 + 8)) as [Hs | _];
      [unfold blen in Hs; simpl in Hs; lia |].
    cbv beta iota. unfold BufferReader.bind at 1. rewrite uint8_at.
    destruct (Z.ltb_spec (blen (x01 :: rest)) (0 + 1 + 8 + 1)) as [Hs | _];
      [unfold blen in Hs; simpl in Hs; lia |].
    cbv beta iota.
    rewrite raw_none_at by (unfold blen; simpl; lia).
    cbv iota. reflexivity.
Qed.

Lemma codec_payloads_witness :
  BLTE.processLz4Block identityCodecs lz4Payload = Ok [x41; x42].
Proof.
  destruct (codec_payloads identityCodecs lz4Payload) as (_ & _ & _ & _ & H).
  rewrite (H (tl lz4Payload)); [reflexivity | reflexivity | simpl; lia].
Defined.

(** *** Writing and reading back an uncompressed container *)

Lemma byteZ_byteOfZ (z : Z) : 0 <= z < 256 -> byteZ (byteOfZ z) = z.
Proof.
  intros Hz. unfold byteOfZ, byteZ.
  destruct (Byte.of_N (Z.to_N z)) as [x |] eqn:Hx.
  - apply Byte.to_of_N in Hx. rewrite Hx. lia.
  - apply Byte.of_N_None_iff in Hx. lia.
Qed.

Lemma be_bytes_length (n : nat) (v : Z) : length (be_bytes n v) = n.
Proof.
  revert v. induction n as [|n IH]; intros v; simpl; [reflexivity |].
  rewrite length_app, IH. simpl. lia.
Qed.

Lemma be_to_Z_be_bytes (n : nat) (v : Z) :
  0 <= v < 256 ^ Z.of_nat n -> be_to_Z (be_bytes n v) = v.
Proof.
  revert v. induction n as [|n IH]; intros v Hv.
  - simpl in *. unfold be_to_Z. simpl. lia.
  - cbn [be_bytes]. rewrite be_to_Z_snoc.
    rewrite Nat2Z.inj_succ, Z.pow_succ_r in Hv by lia.
    rewrite IH by (split; [apply Z.div_pos; lia |
                           apply Z.div_lt_upper_bound; lia]).
    rewrite byteZ_byteOfZ by (apply Z.mod_pos_bound; lia).
    pose proof (Z.div_mod v 256). lia.
Qed.

Lemma subarray_app_mid (pre mid post : list byte) (o e : Z) :
  blen pre = o -> e = o + blen mid ->
  subarray (pre ++ mid ++ post) o e = mid.
Proof.
  intros <- ->. unfold subarray, blen.
  rewrite Nat2Z.id, drop_app_length.
  replace (Z.to_nat (Z.of_nat (length pre) + Z.of_nat (length mid)
                     - Z.of_nat (length pre)))
    with (length mid) by lia.
  apply take_app_length.
Qed.

Lemma rawEntry_length (p : list byte) : length (rawEntry p) = 24%nat.
Proof.
  unfold rawEntry. rewrite !length_app, !be_bytes_length, repeat_length.
  reflexivity.
Qed.

Lemma rawEntries_length (ps : list (list byte)) :
  length (concat (map rawEntry ps)) = (24 * length ps)%nat.
Proof.
  induction ps as [|p ps IH]; [reflexivity |].
  cbn [map concat length]. rewrite length_app, rawEntry_length, IH. lia.
Qed.

Lemma blockAt_rawEntry (pre post p : list byte) :
  blen p + 1 < 2 ^ 32 ->
  blockAt 15 (pre ++ rawEntry p ++ post) (blen pre) = rawBlockOf p.
Proof.
  intros Hp. unfold blockAt, rawBlockOf, rawEntry.
  assert (H256 : 256 ^ Z.of_nat 4 = 2 ^ 32) by reflexivity.
  assert (Hp0 : 0 <= blen p) by (unfold blen; lia).
  change (15 =? 16) with false. cbv iota.
  set (c := be_bytes 4 (blen p + 1)).
  set (d := be_bytes 4 (blen p)).
  set (h := repeat x00 16).
  assert (Hc : blen c = 4) by (unfold blen, c; rewrite be_bytes_length; reflexivity).
  assert (Hd : blen d = 4) by (unfold blen, d; rewrite be_bytes_length; reflexivity).
  assert (Hh : blen h = 16) by reflexivity.
  rewrite <- !app_assoc.
  f_equal.
  - rewrite (subarray_app_mid pre c (d ++ h ++ post)) by lia.
    apply be_to_Z_be_bytes. lia.
  - replace (pre ++ c ++ d ++ h ++ post) with ((pre ++ c) ++ d ++ (h ++ post))
      by (rewrite <- !app_assoc; reflexivity).
    rewrite (subarray_app_mid (pre ++ c) d (h ++ post));
      [apply be_to_Z_be_bytes; lia | |];
      unfold blen in *; rewrite ?length_app; lia.
  - replace (pre ++ c ++ d ++ h ++ post) with ((pre ++ c ++ d) ++ h ++ post)
      by (rewrite <- !app_assoc; reflexivity).
    rewrite (subarray_app_mid (pre ++ c ++ d) h post);
      [reflexivity | |]; unfold blen in *; rewrite ?length_app; lia.
Qed.

Lemma blocksAt_rawEntries (ps : list (list byte)) (pre post : list byte) :
  Forall (fun p => blen p + 1 < 2 ^ 32) ps ->
  blocksAt (length ps) 15 (pre ++ concat (map rawEntry ps) ++ post) (blen pre)
    = map rawBlockOf ps.
Proof.
  revert pre. induction ps as [|p ps IH]; intros pre Hps; [reflexivity |].
  inversion Hps as [|? ? Hp Hps']; subst.
  cbn [length blocksAt map concat]. f_equal.
  - rewrite <- app_assoc. apply blockAt_rawEntry. exact Hp.
  - change (entrySize 15) with 24.
    replace (pre ++ (rawEntry p ++ concat (map rawEntry ps)) ++ post)
      with ((pre ++ rawEntry p) ++ concat (map rawEntry ps) ++ post)
      by (rewrite <- !app_assoc; reflexivity).
    replace (blen pre + 24) with (blen (pre ++ rawEntry p))
      by (unfold blen; rewrite length_app, rawEntry_length; lia).
    apply IH. exact Hps'.
Qed.

Lemma rawBlocks_offset (ds : list (list byte)) (h : Z) :
  fold_left (fun acc block => acc + BLTE.compressedSize block)
    (map rawBlockOf ds) h
  = h + blen (concat (map rawBlock ds)).
Proof.
  revert h. induction ds as [|d ds IH]; intros h.
  - simpl. unfold blen. simpl. lia.
  - cbn [map fold_left concat]. rewrite IH.
    unfold blen, rawBlock, rawBlockOf. cbn [BLTE.compressedSize].
    rewrite length_app. cbn [length]. unfold blen. lia.
Qed.

Lemma encodeRaw_header (ps : list (list byte)) :
  ps <> [] -> Z.of_nat (length ps) < 2 ^ 24 ->
  Forall (fun p => blen p + 1 < 2 ^ 32) ps ->
  checkHeader (encodeRaw ps)
  = Ok (BLTE.mk (readerAt (encodeRaw ps) (12 + 24 * Z.of_nat (length ps)))
          (Z.of_nat (length ps)) (12 + 24 * Z.of_nat (length ps))
          (map rawBlockOf ps)).
Proof.
  intros Hne Hn Hps.
  assert (Hpos : 0 < Z.of_nat (length ps)).
  { destruct ps; [contradiction | simpl; lia]. }
  set (n := Z.of_nat (length ps)) in *.
  set (l0 := ascii_bytes "BLTE").
  set (l1 := be_bytes 4 (12 + 24 * n)).
  set (l2 := [x0f]).
  set (l3 := be_bytes 3 n).
  set (l4 := concat (map rawEntry ps)).
  set (l5 := concat (map rawBlock ps)).
  assert (Hb : encodeRaw ps = l0 ++ l1 ++ l2 ++ l3 ++ l4 ++ l5) by reflexivity.
  assert (H0 : blen l0 = 4) by reflexivity.
  assert (H1 : blen l1 = 4)
    by (unfold blen, l1; rewrite be_bytes_length; reflexivity).
  assert (H2 : blen l2 = 1) by reflexivity.
  assert (H3 : blen l3 = 3)
    by (unfold blen, l3; rewrite be_bytes_length; reflexivity).
  assert (H4 : blen l4 = 24 * n)
    by (unfold blen, l4, n; rewrite rawEntries_length; lia).
  assert (Hlen : blen (encodeRaw ps) = 12 + 24 * n + blen l5).
  { rewrite Hb. unfold blen in *. rewrite !length_app. lia. }
  assert (H5 : 0 <= blen l5) by (unfold blen; lia).
  assert (S0 : subarray (encodeRaw ps) 0 4 = l0).
  { rewrite Hb. apply (subarray_app_mid [] l0); [reflexivity | lia]. }
  assert (S1 : subarray (encodeRaw ps) 4 8 = l1).
  { rewrite Hb. apply (subarray_app_mid l0 l1); lia. }
  assert (S2 : subarray (encodeRaw ps) 8 9 = l2).
  { rewrite Hb.
    replace (l0 ++ l1 ++ l2 ++ l3 ++ l4 ++ l5)
      with ((l0 ++ l1) ++ l2 ++ (l3 ++ l4 ++ l5))
      by (rewrite <- !app_assoc; reflexivity).
    apply subarray_app_mid; unfold blen in *; rewrite ?length_app; lia. }
  assert (S3 : subarray (encodeRaw ps) 9 12 = l3).
  { rewrite Hb.
    replace (l0 ++ l1 ++ l2 ++ l3 ++ l4 ++ l5)
      with ((l0 ++ l1 ++ l2) ++ l3 ++ (l4 ++ l5))
      by (rewrite <- !app_assoc; reflexivity).
    apply subarray_app_mid; unfold blen in *; rewrite ?length_app; lia. }
  assert (V1 : be_to_Z l1 = 12 + 24 * n).
  { apply be_to_Z_be_bytes. change (256 ^ Z.of_nat 4) with (2 ^ 32). lia. }
  assert (V3 : be_to_Z l3 = n).
  { apply be_to_Z_be_bytes. change (256 ^ Z.of_nat 3) with (2 ^ 24). lia. }
  unfold checkHeader. rewrite S0, S1, S2, S3, V1, V3.
  change (be_to_Z l2) with 15. change (entrySize 15) with 24.
  change (bytes_eqb l0 (ascii_bytes "BLTE")) with true.
  change (negb (15 =? 15) && negb (15 =? 16)) with false.
  cbn [negb].
  destruct (Z.ltb_spec (blen (encodeRaw ps)) 4); [lia |].
  destruct (Z.ltb_spec (blen (encodeRaw ps)) 8); [lia |].
  destruct (Z.eqb_spec (12 + 24 * n) 0); [lia |].
  destruct (Z.ltb_spec (blen (encodeRaw ps)) 9); [lia |].
  destruct (Z.ltb_spec (blen (encodeRaw ps)) 12); [lia |].
  destruct (Z.eqb_spec n 0); [lia |].
  destruct (Z.ltb_spec (blen (encodeRaw ps)) (12 + 24 * n)); [lia |].
  f_equal. f_equal. unfold n. rewrite Nat2Z.id.
  rewrite Hb.
  replace (l0 ++ l1 ++ l2 ++ l3 ++ l4 ++ l5)
    with ((l0 ++ l1 ++ l2 ++ l3) ++ l4 ++ l5)
    by (rewrite <- !app_assoc; reflexivity).
  change 12 with (blen (l0 ++ l1 ++ l2 ++ l3)) at 1.
  - apply blocksAt_rawEntries. exact Hps.
Qed.

Lemma rawLoop (codecs : Codecs)
    (nested : list byte -> option (result (list byte)))
    (hdr : list byte) (qs ds : list (list byte)) (this : BLTE.t)
    (acc : list byte) :
  BLTE.blocks this = map rawBlockOf (ds ++ qs) ->
  BLTE.headerSize this = blen hdr ->
  BufferReader.buf (BLTE.buffer this)
    = hdr ++ concat (map rawBlock (ds ++ qs)) ->
  exists this',
    BLTE.getBlocksLoop codecs nested (length qs) (Z.of_nat (length ds)) this acc
      = Some (Ok (acc ++ concat qs), this').
Proof.
  revert ds this acc. induction qs as [|q qs IH]; intros ds this acc Hbl Hhs Hbuf.
  - simpl. rewrite app_nil_r. eauto.
  - cbn [length BLTE.getBlocksLoop].
    assert (Hoff : BLTE.calcBlockOffset this (Z.to_nat (Z.of_nat (length ds)))
                   = blen (hdr ++ concat (map rawBlock ds))).
    { unfold BLTE.calcBlockOffset. rewrite Nat2Z.id, Hbl, Hhs, map_app.
      replace (length ds) with (length (map rawBlockOf ds))
        by apply length_map.
      rewrite take_app_length, rawBlocks_offset.
      unfold blen. rewrite length_app. lia. }
    assert (Hsplit : BufferReader.buf (BLTE.buffer this)
              = (hdr ++ concat (map rawBlock ds))
                ++ "N"%byte :: q ++ concat (map rawBlock qs)).
    { rewrite Hbuf, map_app, concat_app. cbn [map concat].
      unfold rawBlock at 2. rewrite <- !app_assoc. reflexivity. }
    rewrite (getBlockData_in_range codecs nested this (Z.of_nat (length ds))
               (rawBlockOf q) "N"%byte).
    + rewrite Hoff.
      replace (subarray (BufferReader.buf (BLTE.buffer this))
                 (blen (hdr ++ concat (map rawBlock ds)) + 1)
                 (blen (hdr ++ concat (map rawBlock ds))
                  + BLTE.compressedSize (rawBlockOf q)))
        with q.
      * change (BLTE.decodeBlock codecs nested ["N"%byte] q) with (Some (Ok q)).
        cbv iota.
        destruct (IH (ds ++ [q])
                    (BLTE.withBuffer this
                       (readerAt (BufferReader.buf (BLTE.buffer this))
                          (blen (hdr ++ concat (map rawBlock ds))
                           + BLTE.compressedSize (rawBlockOf q))))
                    (acc ++ q)) as [this' Hloop].
        -- cbn [BLTE.withBuffer BLTE.blocks]. rewrite Hbl, <- app_assoc.
           reflexivity.
        -- exact Hhs.
        -- cbn [BLTE.withBuffer BLTE.buffer BufferReader.buf readerAt].
           rewrite Hbuf, <- app_assoc. reflexivity.
        -- exists this'. rewrite length_app in Hloop. cbn [length] in Hloop.
           replace (Z.of_nat (length ds) + 1)
             with (Z.of_nat (length ds + 1)) by lia.
           rewrite Hloop. cbn [concat]. rewrite <- app_assoc. reflexivity.
      * rewrite Hsplit.
        replace ((hdr ++ concat (map rawBlock ds))
                 ++ "N"%byte :: q ++ concat (map rawBlock qs))
          with (((hdr ++ concat (map rawBlock ds)) ++ ["N"%byte])
                ++ q ++ concat (map rawBlock qs))
          by (rewrite <- !app_assoc; reflexivity).
        symmetry. apply subarray_app_mid.
        -- unfold blen. rewrite !length_app. cbn [length]. lia.
        -- unfold rawBlockOf. cbn [BLTE.compressedSize]. lia.
    + lia.
    + rewrite Nat2Z.id, Hbl. apply list_lookup_fmap_Some. exists q.
      split; [reflexivity |]. apply list_lookup_middle. reflexivity.
    + rewrite Hoff. unfold blen. lia.
    + rewrite Hoff, Hsplit. unfold blen. rewrite Nat2Z.id.
      apply list_lookup_middle. reflexivity.
    + rewrite Hoff, Hsplit. unfold rawBlockOf, blen.
      cbn [BLTE.compressedSize]. rewrite !length_app. cbn [length].
      rewrite !length_app. lia.
Qed.

(** X13: reading back what was written.  A container of 'N' blocks
    written with a correct header (header size [12 + 24 n], format 0x0f,
    one entry per block) decodes to the concatenation of the payloads,
    whatever the decompressors are: they are never called. *)
Theorem decode_encodeRaw (codecs : Codecs) (payloads : list (list byte)) :
  payloads <> [] ->
  Z.of_nat (length payloads) < 2 ^ 24 ->
  Forall (fun p => blen p + 1 < 2 ^ 32) payloads ->
  BLTE.decode codecs (encodeRaw payloads) = Some (Ok (concat payloads)).
Proof.
  intros Hne Hn Hps. unfold BLTE.decode. cbn [BLTE.decodeFuel].
  rewrite new_checkHeader, encodeRaw_header by assumption.
  unfold BLTE.getBlocksData. cbn [BLTE.blocks].
  rewrite length_map.
  set (n := Z.of_nat (length payloads)).
  set (hdr := ascii_bytes "BLTE" ++ be_bytes 4 (12 + 24 * n) ++ [x0f]
              ++ be_bytes 3 n ++ concat (map rawEntry payloads)).
  destruct (rawLoop codecs
              (BLTE.decodeFuel codecs (length (encodeRaw payloads)))
              hdr payloads []
              (BLTE.mk (readerAt (encodeRaw payloads) (12 + 24 * n)) n
                 (12 + 24 * n) (map rawBlockOf payloads)) [])
    as [this' Hloop].
  - reflexivity.
  - cbn [BLTE.headerSize]. unfold hdr, blen.
    rewrite !length_app, !be_bytes_length, rawEntries_length.
    change (length (ascii_bytes "BLTE")) with 4%nat.
    change (length [x0f]) with 1%nat. unfold n. lia.
  - cbn [BLTE.buffer BufferReader.buf readerAt]. unfold hdr, encodeRaw.
    rewrite <- !app_assoc. reflexivity.
  - change (Z.of_nat (length (@nil (list byte)))) with 0 in Hloop.
    rewrite Hloop. reflexivity.
Qed.

Lemma decode_encodeRaw_witness :
  BLTE.decode noCodecs (encodeRaw [ascii_bytes "he"; []; ascii_bytes "llo"])
    = Some (Ok (ascii_bytes "hello")).
Proof.
  apply (decode_encodeRaw noCodecs [ascii_bytes "he"; []; ascii_bytes "llo"]).
  - discriminate.
  - vm_compute. reflexivity.
  - repeat constructor.
Defined.

(** *** Nested containers *)

Lemma getBlockData_ext (codecs : Codecs)
    (nested1 nested2 : list byte -> option (result (list byte)))
    (this : BLTE.t) (arg : BLTE.blockArg) :
  (forall d, (length d < length (BufferReader.buf (BLTE.buffer this)))%nat ->
             nested1 d = nested2 d) ->
  BLTE.getBlockData codecs nested1 this arg
    = BLTE.getBlockData codecs nested2 this arg.
Proof.
  intros Hext. unfold BLTE.getBlockData.
  destruct (BLTE.selectBlock this arg) as [[idx blk] |]; [| reflexivity].
  destruct (BLTE.readBlock _ blk _) as [[[enc data] | e] r] eqn:Hread;
    [| reflexivity].
  apply readBlock_shorter in Hread.
  unfold BLTE.decodeBlock. rewrite (Hext data Hread). reflexivity.
Qed.

Lemma getBlocksLoop_ext (codecs : Codecs)
    (nested1 nested2 : list byte -> option (result (list byte))) (n : nat) :
  forall (i : Z) (this : BLTE.t) (acc : list byte),
    (forall d, (length d < length (BufferReader.buf (BLTE.buffer this)))%nat ->
               nested1 d = nested2 d) ->
    BLTE.getBlocksLoop codecs nested1 n i this acc
      = BLTE.getBlocksLoop codecs nested2 n i this acc.
Proof.
  induction n as [|n IH]; intros i this acc Hext; [reflexivity |].
  cbn [BLTE.getBlocksLoop].
  rewrite (getBlockData_ext codecs nested1 nested2 this (BLTE.ByIndex i) Hext).
  destruct (BLTE.getBlockData codecs nested2 this (BLTE.ByIndex i))
    as [[[data | e] this1] |] eqn:Hget; try reflexivity.
  apply IH. intros d Hd. apply Hext.
  apply getBlockData_same in Hget. destruct Hget as (_ & _ & Hbuf).
  rewrite <- Hbuf. exact Hd.
Qed.

Lemma decodeFuel_stable (codecs : Codecs) (f1 : nat) :
  forall (f2 : nat) (data : list byte),
    (length data < f1)%nat -> (length data < f2)%nat ->
    BLTE.decodeFuel codecs f1 data = BLTE.decodeFuel codecs f2 data.
Proof.
  induction f1 as [|f1 IH]; intros f2 data H1 H2; [lia |].
  destruct f2 as [|f2]; [lia |]. cbn [BLTE.decodeFuel].
  destruct (BLTE.new data) as [this | e] eqn:Hnew; [| reflexivity].
  apply new_buf in Hnew. unfold BLTE.getBlocksData. f_equal.
  apply getBlocksLoop_ext. intros d Hd. rewrite Hnew in Hd.
  apply IH; lia.
Qed.

(** X14: decoding always ends with either output or an exception, also
    for containers nested in 'F' blocks to any depth: the payload of a
    block is strictly shorter than the container it is cut from, so the
    nesting is bounded by the length of the input, and no bound on the
    depth larger than that changes the outcome. *)
Theorem decode_terminates (codecs : Codecs) (fuel : nat) (data : list byte) :
  (length data < fuel)%nat ->
  is_Some (BLTE.decode codecs data)
  /\ BLTE.decodeFuel codecs fuel data = BLTE.decode codecs data.
Proof.
  intros Hfuel. split.
  - apply decodeFuel_total. lia.
  - apply decodeFuel_stable; lia.
Qed.

Lemma decode_terminates_witness :
  is_Some (BLTE.decode noCodecs (helloContainer x24))
  /\ BLTE.decodeFuel noCodecs 100 (helloContainer x24)
     = BLTE.decode noCodecs (helloContainer x24).
Proof.
  apply (decode_terminates noCodecs 100 (helloContainer x24)).
  vm_compute. lia.
Defined.

(** ** Encoding table (encodings.ts) *)

Example sampleTable_parsed :
  EncodingTable.parse sampleTable
    = Some (Ok (EncodingTable.mk [("aa"%string, sampleEntry)])).
Proof. vm_compute. reflexivity. Qed.

Lemma subarray_length (b : list byte) (o n : Z) :
  0 <= o -> 0 <= n -> o + n <= blen b ->
  length (subarray b o (o + n)) = Z.to_nat n.
Proof.
  intros Ho Hn Hfit. unfold subarray, blen in *.
  rewrite length_take, length_drop. lia.
Qed.

Lemma hexSlice_length (b : list byte) (o n : Z) :
  0 <= o -> 0 <= n -> o + n <= blen b ->
  String.length (EncodingTable.hexSlice b o (o + n)) = (2 * Z.to_nat n)%nat.
Proof.
  intros. unfold EncodingTable.hexSlice.
  rewrite toHex_length, subarray_length by assumption. reflexivity.
Qed.

Lemma readUIntBE_bound (b : list byte) (o n : Z) :
  0 <= n -> 0 <= EncodingTable.readUIntBE b o n < 256 ^ n.
Proof. apply be_to_Z_subarray_bound. Qed.

(** *** The [Map] of the table *)

Lemma mapSet_Forall {V : Type} (P : string * V -> Prop) (key : string) (v : V)
    (m : list (string * V)) :
  P (key, v) -> Forall P m -> Forall P (EncodingTable.mapSet key v m).
Proof.
  intros Hv Hm. induction Hm as [|[k v0] m Hk Hm IH]; simpl.
  - constructor; [exact Hv | constructor].
  - destruct (String.eqb_spec k key) as [-> | Hne].
    + constructor; assumption.
    + constructor; assumption.
Qed.

Lemma mapSet_keys {V : Type} (key : string) (v : V) (m : list (string * V)) :
  (EncodingTable.mapSet key v m).*1
    = if decide (key ∈ m.*1) then m.*1 else m.*1 ++ [key].
Proof.
  induction m as [|[k v0] m IH].
  - cbn [EncodingTable.mapSet fmap list_fmap]. case_decide as Hin.
    + apply elem_of_nil in Hin. contradiction.
    + reflexivity.
  - cbn [EncodingTable.mapSet].
    destruct (String.eqb_spec k key) as [-> | Hne].
    + clear IH. rewrite !fmap_cons. cbn [fst].
      case_decide as Hin; [reflexivity |].
      exfalso. apply Hin. apply elem_of_cons. left. reflexivity.
    + rewrite !fmap_cons, IH. cbn [fst].
      case_decide as Hin; case_decide as Hin'; try reflexivity.
      * exfalso. apply Hin'. apply elem_of_cons. right. exact Hin.
      * exfalso. apply elem_of_cons in Hin' as [-> | Hin']; contradiction.
Qed.

Lemma mapSet_NoDup {V : Type} (key : string) (v : V) (m : list (string * V)) :
  NoDup m.*1 -> NoDup (EncodingTable.mapSet key v m).*1.
Proof.
  intros Hm. rewrite mapSet_keys.
  destruct (decide (key ∈ m.*1)) as [Hin | Hnin]; [exact Hm |].
  apply NoDup_app. split; [exact Hm |]. split.
  - intros x Hx Hx'. apply list_elem_of_singleton in Hx'. subst. contradiction.
  - apply NoDup_singleton.
Qed.

Lemma mapSet_tableOk (ck ek : Z) (e : Encodings.EncodingEntry)
    (m : list (string * Encodings.EncodingEntry)) :
  tableEntryOk ck ek (Encodings.cKey e, e) -> tableOk ck ek m ->
  tableOk ck ek (EncodingTable.mapSet (Encodings.cKey e) e m).
Proof.
  intros He [Hm Hnd]. split; [apply mapSet_Forall | apply mapSet_NoDup];
    assumption.
Qed.

Lemma mapGet_elem {V : Type} (key : string) (v : V) (m : list (string * V)) :
  EncodingTable.mapGet key m = Some v -> (key, v) ∈ m.
Proof.
  induction m as [|[k v0] m IH]; simpl; [discriminate |].
  destruct (String.eqb_spec k key) as [-> | Hne].
  - intros [= ->]. apply elem_of_cons. left. reflexivity.
  - intros H. apply elem_of_cons. right. apply IH. exact H.
Qed.

Lemma elem_mapGet {V : Type} (key : string) (v : V) (m : list (string * V)) :
  NoDup m.*1 -> (key, v) ∈ m -> EncodingTable.mapGet key m = Some v.
Proof.
  induction m as [|[k v0] m IH]; simpl; intros Hnd Hin.
  - apply elem_of_nil in Hin. contradiction.
  - apply NoDup_cons in Hnd as [Hk Hnd].
    apply elem_of_cons in Hin as [[= -> ->] | Hin].
    + rewrite String.eqb_refl. reflexivity.
    + destruct (String.eqb_spec k key) as [-> | Hne]; [| apply IH; assumption].
      exfalso. apply Hk. apply list_elem_of_fmap. exists (key, v).
      split; [reflexivity | exact Hin].
Qed.

Lemma list_to_map_mapGet {V : Type} (key : string) (m : list (string * V)) :
  (list_to_map m : gmap string V) !! key = EncodingTable.mapGet key m.
Proof.
  induction m as [|[k v0] m IH]; simpl; [apply lookup_empty |].
  destruct (String.eqb_spec k key) as [-> | Hne].
  - apply lookup_insert_eq.
  - rewrite lookup_insert_ne by exact Hne. exact IH.
Qed.

(** *** The loops of the parser *)

Lemma readEKeys_spec (n : nat) (buffer : list byte) (ek : Z) :
  forall (cursor : Z) (acc : list string),
    0 <= ek -> 0 <= cursor ->
    Forall (fun k => String.length k = (2 * Z.to_nat ek)%nat) acc ->
    Forall (fun k => String.length k = (2 * Z.to_nat ek)%nat)
      (EncodingTable.readEKeys n buffer ek cursor acc).1
    /\ (length (EncodingTable.readEKeys n buffer ek cursor acc).1
        <= length acc + n)%nat
    /\ cursor <= (EncodingTable.readEKeys n buffer ek cursor acc).2.
Proof.
  induction n as [|n IH]; intros cursor acc Hek Hc Hacc; simpl.
  - split; [exact Hacc | split; lia].
  - destruct (Z.ltb_spec (blen buffer) (cursor + ek)); simpl.
    + split; [exact Hacc | split; lia].
    + destruct (IH (cursor + ek)
                  (acc ++ [EncodingTable.hexSlice buffer cursor (cursor + ek)]))
        as (H1 & H2 & H3); [lia | lia | |].
      * apply Forall_app. split; [exact Hacc |].
        constructor; [| constructor]. apply hexSlice_length; lia.
      * split; [exact H1 |]. rewrite length_app in H2. simpl in H2.
        split; lia.
Qed.

Lemma parsePage_ok (buffer : list byte) (ck ek pageEnd : Z) (fuel : nat) :
  forall (cursor : Z) (entries : list (string * Encodings.EncodingEntry)),
    0 <= ck -> 0 <= ek -> 0 <= cursor ->
    (Z.to_nat (blen buffer - cursor) < fuel)%nat ->
    tableOk ck ek entries ->
    exists entries',
      EncodingTable.parsePage fuel buffer ck ek pageEnd cursor entries
        = Some entries'
      /\ tableOk ck ek entries'.
Proof.
  induction fuel as [|fuel IH]; intros cursor entries Hck Hek Hc Hfuel Hok;
    [lia |].
  cbn [EncodingTable.parsePage].
  destruct (cursor <? pageEnd); cbn [negb]; [| eauto].
  destruct (Z.ltb_spec (blen buffer) (cursor + 6)); [eauto |].
  destruct (EncodingTable.readUIntBE buffer cursor 1 =? 0); [eauto |].
  destruct (Z.ltb_spec (blen buffer) (cursor + 1 + 5 + ck)); [eauto |].
  pose proof (readEKeys_spec
                (Z.to_nat (EncodingTable.readUIntBE buffer cursor 1))
                buffer ek (cursor + 1 + 5 + ck) [] Hek ltac:(lia)
                ltac:(constructor)) as (Hks & Hlen & Hcur).
  destruct (EncodingTable.readEKeys _ buffer ek (cursor + 1 + 5 + ck) [])
    as [eKeys cursor'] eqn:Hread.
  cbn [fst snd] in *.
  apply IH; try lia.
  apply (mapSet_tableOk ck ek
           (Encodings.mkEntry
              (EncodingTable.hexSlice buffer (cursor + 1 + 5)
                 (cursor + 1 + 5 + ck))
              eKeys (EncodingTable.readUIntBE buffer (cursor + 1) 5)));
    [| exact Hok].
  unfold tableEntryOk. cbn [fst snd Encodings.cKey Encodings.eKeys
                            Encodings.fileSize].
  split; [reflexivity |]. split; [apply hexSlice_length; lia |].
  split; [apply (readUIntBE_bound buffer (cursor + 1) 5); lia |].
  split; [| exact Hks].
  pose proof (readUIntBE_bound buffer cursor 1 ltac:(lia)) as Hkc.
  change (256 ^ 1) with 256 in Hkc. simpl in Hlen. lia.
Qed.

Lemma parsePages_ok (buffer : list byte) (ck ek pageMaxSize : Z) (n : nat) :
  forall (currentOffset : Z) (entries : list (string * Encodings.EncodingEntry)),
    0 <= ck -> 0 <= ek -> 0 <= pageMaxSize -> 0 <= currentOffset ->
    tableOk ck ek entries ->
    exists entries',
      EncodingTable.parsePages n buffer ck ek pageMaxSize currentOffset entries
        = Some entries'
      /\ tableOk ck ek entries'.
Proof.
  induction n as [|n IH]; intros off entries Hck Hek Hps Hoff Hok;
    cbn [EncodingTable.parsePages]; [eauto |].
  destruct (blen buffer <=? off); [eauto |].
  destruct (parsePage_ok buffer ck ek (Z.min (off + pageMaxSize) (blen buffer))
              (S (length buffer)) off entries Hck Hek Hoff)
    as (entries1 & -> & Hok1); [unfold blen; lia | exact Hok |].
  apply IH; try assumption. lia.
Qed.

Lemma parse_ok (buffer : list byte) :
  22 <= blen buffer -> subarray buffer 0 2 = ascii_bytes "EN" ->
  exists t,
    EncodingTable.parse buffer = Some (Ok t)
    /\ tableOk (EncodingTable.readUIntBE buffer 3 1)
         (EncodingTable.readUIntBE buffer 4 1) (EncodingTable.entries t).
Proof.
  intros Hlen Hsig. unfold EncodingTable.parse.
  destruct (Z.ltb_spec (blen buffer) 22); [lia |].
  rewrite Hsig.
  change (bytes_eqb (ascii_bytes "EN") (ascii_bytes "EN")) with true.
  cbn [negb].
  pose proof (readUIntBE_bound buffer 3 1 ltac:(lia)) as H3.
  pose proof (readUIntBE_bound buffer 4 1 ltac:(lia)) as H4.
  pose proof (readUIntBE_bound buffer 5 2 ltac:(lia)) as H5.
  pose proof (readUIntBE_bound buffer 9 4 ltac:(lia)) as H9.
  pose proof (readUIntBE_bound buffer 18 4 ltac:(lia)) as H18.
  destruct (parsePages_ok buffer (EncodingTable.readUIntBE buffer 3 1)
              (EncodingTable.readUIntBE buffer 4 1)
              (EncodingTable.readUIntBE buffer 5 2 * 1024)
              (Z.to_nat (EncodingTable.readUIntBE buffer 9 4))
              (22 + EncodingTable.readUIntBE buffer 18 4
               + EncodingTable.readUIntBE buffer 9 4 * 32) [])
    as (entries & -> & Hok); try lia.
  - split; constructor.
  - eexists. split; [reflexivity | exact Hok].
Qed.

Lemma parse_total (buffer : list byte) : is_Some (EncodingTable.parse buffer).
Proof.
  destruct (Z.ltb_spec (blen buffer) 22) as [Hs | Hl].
  - unfold EncodingTable.parse.
    destruct (Z.ltb_spec (blen buffer) 22); [eauto | lia].
  - destruct (bytes_eqb (subarray buffer 0 2) (ascii_bytes "EN")) eqn:Heq.
    + apply bytes_eqb_eq in Heq.
      destruct (parse_ok buffer Hl Heq) as (t & -> & _). eauto.
    + unfold EncodingTable.parse.
      destruct (Z.ltb_spec (blen buffer) 22); [lia |].
      rewrite Heq. eauto.
Qed.

Lemma parse_throws (buffer : list byte) (e : exn) :
  EncodingTable.parse buffer = Some (Throw e) ->
  e = Error "Buffer too small for Encoding Table"
  \/ e = Error "Invalid signature".
Proof.
  destruct (Z.ltb_spec (blen buffer) 22) as [Hs | Hl].
  - unfold EncodingTable.parse.
    destruct (Z.ltb_spec (blen buffer) 22); [| lia].
    intros [= <-]. left. reflexivity.
  - destruct (bytes_eqb (subarray buffer 0 2) (ascii_bytes "EN")) eqn:Heq.
    + apply bytes_eqb_eq in Heq.
      destruct (parse_ok buffer Hl Heq) as (t & -> & _). discriminate.
    + unfold EncodingTable.parse.
      destruct (Z.ltb_spec (blen buffer) 22); [lia |].
      rewrite Heq. intros [= <-]. right. reflexivity.
Qed.

(** X15: the constructor of [EncodingTable] throws for exactly two
    reasons, a buffer of fewer than 22 bytes ("Buffer too small for
    Encoding Table") and a buffer that does not begin with the bytes
    'E' 'N' ("Invalid signature"); on every other buffer it returns a
    table: no header field and no page content makes it throw or loop,
    because every record that is read moves the cursor on by at least
    six bytes.  So [parseEncodingTable] always ends, and what it throws
    is either what the BLTE decoding threw or one of these two errors. *)
Theorem encodingTable_parse_outcome (buffer : list byte) :
  (blen buffer < 22 ->
   EncodingTable.parse buffer
     = Some (Throw (Error "Buffer too small for Encoding Table")))
  /\ (22 <= blen buffer -> subarray buffer 0 2 <> ascii_bytes "EN" ->
      EncodingTable.parse buffer = Some (Throw (Error "Invalid signature")))
  /\ (22 <= blen buffer -> subarray buffer 0 2 = ascii_bytes "EN" ->
      exists t, EncodingTable.parse buffer = Some (Ok t))
  /\ (forall codecs, is_Some (EncodingTable.parseEncodingTable codecs buffer))
  /\ (forall codecs e,
        EncodingTable.parseEncodingTable codecs buffer = Some (Throw e) ->
        BLTE.decode codecs buffer = Some (Throw e)
        \/ e = Error "Buffer too small for Encoding Table"
        \/ e = Error "Invalid signature").
Proof.
  split; [| split; [| split; [| split]]].
  - intros Hlen. unfold EncodingTable.parse.
    destruct (Z.ltb_spec (blen buffer) 22); [reflexivity | lia].
  - intros Hlen Hsig. unfold EncodingTable.parse.
    destruct (Z.ltb_spec (blen buffer) 22); [lia |].
    destruct (bytes_eqb (subarray buffer 0 2) (ascii_bytes "EN")) eqn:Heq;
      [| reflexivity].
    apply bytes_eqb_eq in Heq. contradiction.
  - intros Hlen Hsig. destruct (parse_ok buffer Hlen Hsig) as (t & Ht & _).
    eauto.
  - intros codecs. unfold EncodingTable.parseEncodingTable.
    destruct (decode_total codecs buffer) as [[decoded | e] ->]; [| eauto].
    apply parse_total.
  - intros codecs e. unfold EncodingTable.parseEncodingTable.
    destruct (BLTE.decode codecs buffer) as [[decoded | e'] |];
      [| intros [= ->]; left; reflexivity | discriminate].
    intros Hparse. right. apply (parse_throws decoded e Hparse).
Qed.

Lemma encodingTable_parse_outcome_witness :
  EncodingTable.parse (ascii_bytes "EN")
    = Some (Throw (Error "Buffer too small for Encoding Table"))
  /\ EncodingTable.parse (repeat x00 22)
     = Some (Throw (Error "Invalid signature"))
  /\ exists t, EncodingTable.parse sampleTable = Some (Ok t).
Proof.
  destruct (encodingTable_parse_outcome (ascii_bytes "EN")) as (Hsmall & _).
  destruct (encodingTable_parse_outcome (repeat x00 22)) as (_ & Hsig & _).
  destruct (encodingTable_parse_outcome sampleTable) as (_ & _ & Hok & _).
  split; [apply Hsmall; vm_compute; reflexivity |].
  split; [apply Hsig; vm_compute; discriminate |].
  apply Hok; [vm_compute; discriminate | reflexivity].
Defined.

Lemma parse_tableOk (buffer : list byte) (t : EncodingTable.t) :
  EncodingTable.parse buffer = Some (Ok t) ->
  tableOk (EncodingTable.readUIntBE buffer 3 1)
    (EncodingTable.readUIntBE buffer 4 1) (EncodingTable.entries t).
Proof.
  intros Hparse.
  destruct (Z.ltb_spec (blen buffer) 22) as [Hs | Hl].
  - unfold EncodingTable.parse in Hparse.
    destruct (Z.ltb_spec (blen buffer) 22); [discriminate | lia].
  - destruct (bytes_eqb (subarray buffer 0 2) (ascii_bytes "EN")) eqn:Heq.
    + apply bytes_eqb_eq in Heq.
      destruct (parse_ok buffer Hl Heq) as (t' & Ht' & Hok).
      rewrite Ht' in Hparse. injection Hparse as <-. exact Hok.
    + unfold EncodingTable.parse in Hparse.
      destruct (Z.ltb_spec (blen buffer) 22); [lia |].
      rewrite Heq in Hparse. discriminate.
Qed.



Lemma includesKey_elem (eKeys : list string) (eKey : string) :
  EncodingTable.includesKey eKeys eKey = true <-> eKey ∈ eKeys.
Proof.
  unfold EncodingTable.includesKey. induction eKeys as [|k ks IH]; simpl.
  - split; [discriminate | intros H; apply elem_of_nil in H; contradiction].
  - rewrite orb_true_iff, IH, elem_of_cons.
    destruct (String.eqb_spec eKey k); split; intros [H | H]; auto;
      discriminate.
Qed.

Lemma find_elem {A : Type} (p : A -> bool) (l : list A) (x : A) :
  find p l = Some x -> x ∈ l /\ p x = true.
Proof.
  induction l as [|y l IH]; simpl; [discriminate |].
  destruct (p y) eqn:Hy.
  - intros [= ->]. split; [apply elem_of_cons; left; reflexivity | exact Hy].
  - intros H. destruct (IH H) as [Hin Hp].
    split; [apply elem_of_cons; right; exact Hin | exact Hp].
Qed.

Lemma find_none {A : Type} (p : A -> bool) (l : list A) :
  find p l = None <-> forall x, x ∈ l -> p x = false.
Proof.
  induction l as [|y l IH]; simpl.
  - split; [| reflexivity]. intros _ x Hx. apply elem_of_nil in Hx.
    contradiction.
  - destruct (p y) eqn:Hy.
    + split; [discriminate |]. intros H.
      rewrite (H y) in Hy by (apply elem_of_cons; left; reflexivity).
      discriminate.
    + rewrite IH. split.
      * intros H x Hx. apply elem_of_cons in Hx as [-> | Hx]; auto.
      * intros H x Hx. apply H. apply elem_of_cons. right. exact Hx.
Qed.

(** X17: the lookups of a parsed table agree with one another.
    [getEntry] under a key returns an entry with that content key, and
    [getEKeys] its list of encoded keys; [getCKeyByEKey] returns an
    entry that lists the encoded key and that [getEntry] finds under its
    content key, and it returns nothing exactly when no entry of the
    table lists the key.  The table the client holds, keyed by content
    key, answers [getEntry] the same way. *)
Theorem table_lookups (buffer : list byte) (t : EncodingTable.t) :
  EncodingTable.parse buffer = Some (Ok t) ->
  (forall k e, EncodingTable.getEntry t k = Some e ->
     Encodings.cKey e = k
     /\ EncodingTable.getEKeys t k = Some (Encodings.eKeys e))
  /\ (forall ek e, EncodingTable.getCKeyByEKey t ek = Some e ->
        ek ∈ Encodings.eKeys e
        /\ EncodingTable.getEntry t (Encodings.cKey e) = Some e)
  /\ (forall ek, EncodingTable.getCKeyByEKey t ek = None <->
        forall k e, EncodingTable.getEntry t k = Some e ->
                    ek ∉ Encodings.eKeys e)
  /\ (forall k, Encodings.getEntry (EncodingTable.toTable t) k
                = EncodingTable.getEntry t k).
Proof.
  intros Hparse. destruct (parse_tableOk buffer t Hparse) as [Hall Hnd].
  rewrite Forall_forall in Hall.
  split; [| split; [| split]].
  - intros k e Hget. unfold EncodingTable.getEntry in Hget.
    pose proof (mapGet_elem _ _ _ Hget) as Hin.
    destruct (Hall _ Hin) as (Hk & _). cbn [fst snd] in Hk.
    split; [congruence |]. unfold EncodingTable.getEKeys. rewrite Hget.
    reflexivity.
  - intros ek e Hget. unfold EncodingTable.getCKeyByEKey in Hget.
    destruct (find _ (EncodingTable.entries t)) as [[k e'] |] eqn:Hfind;
      [| discriminate].
    cbn in Hget. injection Hget as ->.
    apply find_elem in Hfind as [Hin Hinc]. cbn [snd] in Hinc.
    split; [apply includesKey_elem; exact Hinc |].
    destruct (Hall _ Hin) as (Hk & _). cbn [fst snd] in Hk. subst k.
    unfold EncodingTable.getEntry. apply elem_mapGet; assumption.
  - intros ek. unfold EncodingTable.getCKeyByEKey.
    destruct (find _ (EncodingTable.entries t)) as [[k e'] |] eqn:Hfind.
    + split; [discriminate |]. intros Hnone. exfalso.
      apply find_elem in Hfind as [Hin Hinc]. cbn [snd] in Hinc.
      apply (Hnone k e').
      * unfold EncodingTable.getEntry. apply elem_mapGet; assumption.
      * apply includesKey_elem. exact Hinc.
    + split; [| reflexivity]. intros _ k e Hget Hek.
      unfold EncodingTable.getEntry in Hget. apply mapGet_elem in Hget.
      rewrite find_none in Hfind. specialize (Hfind _ Hget).
      cbn [snd] in Hfind. apply includesKey_elem in Hek. congruence.
  - intros k. unfold Encodings.getEntry, EncodingTable.toTable,
      EncodingTable.getEntry. cbn [Encodings.entries].
    apply list_to_map_mapGet.
Qed.

Lemma table_lookups_witness :
  EncodingTable.getEKeys (EncodingTable.mk [("aa"%string, sampleEntry)]) "aa"
    = Some ["bb"%string].
Proof.
  destruct (table_lookups sampleTable
              (EncodingTable.mk [("aa"%string, sampleEntry)])
              sampleTable_parsed) as (Hget & _).
  destruct (Hget "aa"%string sampleEntry) as [_ Hkeys]; [reflexivity |].
  exact Hkeys.
Defined.

(** ** Root file (root.ts) *)

Example emptyManifest_parsed :
  RootFile.parse emptyManifest = Some (Ok (Root.mk [] 1 1)).
Proof. vm_compute. reflexivity. Qed.


(** *** Reads only move forward *)

Lemma forward_ret {A : Type} (a : A) : forward 0 (BufferReader.ret a).
Proof. intros r. simpl. repeat split; intros; lia. Qed.

Lemma forward_throw {A : Type} (e : exn) : forward 0 (@BufferReader.throw A e).
Proof. intros r. simpl. repeat split; intros; lia. Qed.

Lemma forward_bind {A B : Type} (k1 k2 : Z) (m : BufferReader.M A)
    (f : A -> BufferReader.M B) :
  forward k1 m -> (forall a, forward k2 (f a)) ->
  forward (k1 + k2) (BufferReader.bind m f).
Proof.
  intros Hm Hf r. unfold BufferReader.bind.
  destruct (Hm r) as (Hb & Hmono & Hadv).
  destruct (m r) as [[a | e] r1]; cbn [fst snd] in *.
  - destruct (Hf a r1) as (Hb2 & Hmono2 & Hadv2).
    specialize (Hadv a eq_refl).
    split; [congruence |]. split; [lia |].
    intros b Hok. specialize (Hadv2 b Hok). lia.
  - split; [exact Hb |]. split; [exact Hmono | discriminate].
Qed.

Lemma forward_bind0 {A B : Type} (m : BufferReader.M A)
    (f : A -> BufferReader.M B) :
  forward 0 m -> (forall a, forward 0 (f a)) ->
  forward 0 (BufferReader.bind m f).
Proof. apply (forward_bind 0 0). Qed.

Lemma forward_weaken {A : Type} (k k' : Z) (m : BufferReader.M A) :
  k' <= k -> forward k m -> forward k' m.
Proof.
  intros Hk Hm r. destruct (Hm r) as (Hb & Hmono & Hadv).
  split; [exact Hb |]. split; [exact Hmono |].
  intros a Ha. specialize (Hadv a Ha). lia.
Qed.

Lemma forward_fixed {A : Type} (n : Z) (f : list byte -> A) :
  0 <= n ->
  forward n
    (BufferReader.bind BufferReader.alignToByte (fun _ =>
       BufferReader.bind (BufferReader.ensureAvailable n) (fun _ =>
         BufferReader.bind (BufferReader.take_bytes n) (fun bs =>
           BufferReader.ret (f bs))))).
Proof.
  intros Hn r.
  unfold BufferReader.bind, BufferReader.alignToByte,
    BufferReader.ensureAvailable, BufferReader.take_bytes, BufferReader.ret.
  destruct (negb (BufferReader.bitOffset r =? 0));
    cbn [BufferReader.buf BufferReader.offset];
    match goal with |- context [if ?c then _ else _] => destruct c end;
    cbn [fst snd BufferReader.buf BufferReader.offset];
    (split; [reflexivity |]); (split; [lia |]);
    intros a Ha; first [discriminate | lia].
Qed.

Lemma forward_uint32le : forward 4 BufferReader.uint32le.
Proof. apply (forward_fixed 4 le_to_Z). lia. Qed.

Lemma forward_uint8 : forward 1 BufferReader.uint8.
Proof. apply (forward_fixed 1 be_to_Z). lia. Qed.

Lemma forward_int32le : forward 4 BufferReader.int32le.
Proof. apply (forward_fixed 4 (fun bs => toInt32 (le_to_Z bs))). lia. Qed.

Lemma forward_uint64le : forward 8 BufferReader.uint64le.
Proof. apply (forward_fixed 8 le_to_Z). lia. Qed.

Lemma forward_string_hex16 : forward 16 (BufferReader.string_hex 16).
Proof. apply (forward_fixed 16 toHex). lia. Qed.

Lemma forward_readArray {A : Type} (read : BufferReader.M A) (k : Z) (n : nat) :
  0 <= k -> forward k read ->
  forall acc, forward 0 (Root.readArray n read acc).
Proof.
  intros Hk Hread. induction n as [|n IH]; intros acc; simpl.
  - apply forward_ret.
  - apply forward_bind0; [apply (forward_weaken k); [lia | exact Hread] |].
    intros x. apply IH.
Qed.

Lemma forward_readBlockData (version : Z) (allow : bool) :
  forward 4 (Root.readBlockData version allow).
Proof.
  intros r. unfold Root.readBlockData.
  destruct (BufferReader.remaining r <? 8).
  - cbn [fst snd]. split; [reflexivity |]. split; [lia | discriminate].
  - revert r. change (forward (4 + 0)
      (BufferReader.bind BufferReader.uint32le (fun n =>
         BufferReader.bind
           (if version =? 2 then
              BufferReader.bind BufferReader.uint32le (fun l =>
              BufferReader.bind BufferReader.uint32le (fun unk1 =>
              BufferReader.bind BufferReader.uint32le (fun unk2 =>
              BufferReader.bind BufferReader.uint8 (fun unk3 =>
                BufferReader.ret
                  (l, Z.lor (Z.lor (toInt32 unk1) (toInt32 unk2))
                        (toInt32 (Z.shiftl unk3 17)))))))
            else
              BufferReader.bind BufferReader.uint32le (fun cf =>
              BufferReader.bind BufferReader.uint32le (fun l =>
                BufferReader.ret (l, cf))))
           (fun lf =>
         BufferReader.bind
           (Root.readArray (Z.to_nat n) BufferReader.int32le []) (fun deltas =>
         BufferReader.bind
           (Root.readArray (Z.to_nat n) (BufferReader.string_hex 16) [])
           (fun keys =>
         let has :=
           negb (allow && negb (Z.land (toInt32 (snd lf)) 0x10000000 =? 0)) in
         BufferReader.bind
           (if has then Root.readArray (Z.to_nat n) BufferReader.uint64le []
            else BufferReader.ret [])
           (fun hashes =>
              BufferReader.ret
                (Root.mkBlockData n (fst lf) (snd lf) deltas keys has
                   hashes)))))))).
    apply forward_bind; [apply forward_uint32le |]. intros n.
    assert (H32 : forward 0 BufferReader.uint32le)
      by (apply (forward_weaken 4); [lia | apply forward_uint32le]).
    assert (H8 : forward 0 BufferReader.uint8)
      by (apply (forward_weaken 1); [lia | apply forward_uint8]).
    apply forward_bind0.
    { destruct (version =? 2);
        repeat (apply forward_bind0; [assumption | intros ?]);
        apply forward_ret. }
    intros lf. apply forward_bind0;
      [apply (forward_readArray _ 4); [lia | apply forward_int32le] |].
    intros deltas. apply forward_bind0;
      [apply (forward_readArray _ 16); [lia | apply forward_string_hex16] |].
    intros keys. cbv zeta. apply forward_bind0.
    { destruct (negb _);
        [apply (forward_readArray _ 8); [lia | apply forward_uint64le]
        | apply forward_ret]. }
    intros hashes. apply forward_ret.
Qed.

Lemma forward_parseBlock (version : Z) (allow : bool) :
  forward 4 (Root.parseBlock version allow).
Proof.
  unfold Root.parseBlock. apply (forward_bind 4 0).
  - apply forward_readBlockData.
  - intros bd r. cbn [fst snd]. split; [reflexivity |].
    split; [lia |]. intros; lia.
Qed.

(** *** The loop over the blocks *)

Lemma blocksLoop_total (version : Z) (allow : bool) (fuel : nat) :
  forall (reader : BufferReader.t) (entries : list Root.RootEntry),
    (Z.to_nat (blen (BufferReader.buf reader) - BufferReader.offset reader)
     < fuel)%nat ->
    is_Some (RootFile.blocksLoop fuel version allow reader entries).
Proof.
  induction fuel as [|fuel IH]; intros reader entries Hfuel; [lia |].
  cbn [RootFile.blocksLoop]. unfold BufferReader.eof.
  destruct (Z.leb_spec (blen (BufferReader.buf reader))
              (BufferReader.offset reader)); [eauto |].
  destruct (forward_parseBlock version allow reader) as (Hb & _ & Hadv).
  destruct (Root.parseBlock version allow reader) as [[es | e] r1];
    cbn [fst snd] in *; [| eauto].
  specialize (Hadv es eq_refl). apply IH. rewrite Hb. lia.
Qed.

Ltac seek_step :=
  unfold BufferReader.bind at 1; unfold BufferReader.seek at 1;
  cbn [BufferReader.buf BufferReader.offset BufferReader.new readerAt];
  change (4 <? 0) with false; cbn [orb];
  match goal with
  | |- context [if blen ?b <? ?x then _ else _] =>
      destruct (Z.ltb_spec (blen b) x)
  end;
  cbv beta iota;
  try change (BufferReader.mk ?b 4 0) with (readerAt b 4).

Ltac word_step :=
  read_step;
  change (4 + 4) with 8 in *; change (8 + 4) with 12 in *;
  change (12 + 4) with 16 in *; change (16 + 4) with 20 in *.

Lemma readMFSTHeader_at (b : list byte) :
  match mfstHeader b with
  | Ok (v, t, n, o) =>
      RootFile.readMFSTHeader 4 (BufferReader.new b) = (Ok (v, t, n), readerAt b o)
  | Throw e => fst (RootFile.readMFSTHeader 4 (BufferReader.new b)) = Throw e
  end.
Proof.
  unfold mfstHeader.
  destruct (Z.ltb_spec (blen b) 8) as [H8 | H8].
  { unfold RootFile.readMFSTHeader. seek_step; [reflexivity |].
    word_step; [reflexivity | lia]. }
  set (hs := le_to_Z (subarray b 4 8)).
  destruct ((12 <=? hs) && (hs <=? 100)) eqn:Hhs.
  - assert (Hpos : (0 <? hs) = true).
    { apply andb_true_iff in Hhs as [Hlo _]. apply Z.leb_le in Hlo.
      apply Z.ltb_lt. lia. }
    destruct (Z.ltb_spec (blen b) 24) as [H24 | H24].
    + unfold RootFile.readMFSTHeader. seek_step; [reflexivity |].
      word_step; [reflexivity |]. fold hs. rewrite Hhs.
      unfold BufferReader.bind at 1. word_step; [reflexivity |].
      unfold BufferReader.ret at 1. cbv beta iota.
      word_step; [reflexivity |]. word_step; [reflexivity |].
      cbn [fst snd]. rewrite Hpos. unfold BufferReader.bind at 1.
      unfold BufferReader.skip, BufferReader.seek.
      cbn [BufferReader.buf BufferReader.offset readerAt].
      change (20 + 4) with 24. change (24 <? 0) with false. cbn [orb].
      destruct (Z.ltb_spec (blen b) 24); [reflexivity | lia].
    + unfold RootFile.readMFSTHeader. seek_step; [lia |].
      word_step; [lia |]. fold hs. rewrite Hhs.
      unfold BufferReader.bind at 1. word_step; [lia |].
      unfold BufferReader.ret at 1. cbv beta iota.
      word_step; [lia |]. word_step; [lia |].
      cbn [fst snd]. rewrite Hpos. unfold BufferReader.bind at 1.
      unfold BufferReader.skip, BufferReader.seek.
      cbn [BufferReader.buf BufferReader.offset readerAt].
      change (20 + 4) with 24. change (24 <? 0) with false. cbn [orb].
      destruct (Z.ltb_spec (blen b) 24); [lia | reflexivity].
  - destruct (Z.ltb_spec (blen b) 12) as [H12 | H12].
    + unfold RootFile.readMFSTHeader. seek_step; [reflexivity |].
      word_step; [reflexivity |]. fold hs. rewrite Hhs.
      unfold BufferReader.bind at 1. seek_step; [lia |].
      unfold BufferReader.ret at 1. cbv beta iota.
      word_step; [lia |]. word_step; [reflexivity | lia].
    + unfold RootFile.readMFSTHeader. seek_step; [lia |].
      word_step; [lia |]. fold hs. rewrite Hhs.
      unfold BufferReader.bind at 1. seek_step; [lia |].
      unfold BufferReader.ret at 1. cbv beta iota.
      word_step; [lia |]. word_step; [lia |].
      cbn [fst snd]. change (0 <? 0) with false. reflexivity.
Qed.

Lemma parseMFST_at (b : list byte) :
  RootFile.parseMFST b 4
  = match mfstHeader b with
    | Throw e => Some (Throw e)
    | Ok (v, t, n, o) =>
        match RootFile.blocksLoop (S (length b)) v (negb (t =? n))
                (readerAt b o) [] with
        | None => None
        | Some entries => Some (Ok (Root.mk entries t n))
        end
    end.
Proof.
  unfold RootFile.parseMFST. pose proof (readMFSTHeader_at b) as H.
  destruct (mfstHeader b) as [[[[v t] n] o] | e].
  - rewrite H. reflexivity.
  - destruct (RootFile.readMFSTHeader 4 (BufferReader.new b)) as [[x | e'] r];
      cbn [fst] in H; [discriminate |]. congruence.
Qed.

Lemma mfstHeader_offset (b : list byte) (v t n o : Z) :
  mfstHeader b = Ok (v, t, n, o) -> 0 <= o <= blen b.
Proof.
  unfold mfstHeader.
  destruct (Z.ltb_spec (blen b) 8); [discriminate |].
  destruct ((12 <=? _) && _).
  - destruct (Z.ltb_spec (blen b) 24); [discriminate |].
    intros [= <- <- <- <-]. lia.
  - destruct (Z.ltb_spec (blen b) 12); [discriminate |].
    intros [= <- <- <- <-]. lia.
Qed.







Lemma parse_MFST (b : list byte) :
  subarray b 0 4 = ascii_bytes "MFST" ->
  RootFile.parse b = RootFile.parseMFST b 4.
Proof.
  intros Hm. unfold RootFile.parse. rewrite Hm. reflexivity.
Qed.

(** X18: the constructor of [RootFile] on a buffer that begins with
    "MFST".  The header is read as [mfstHeader] lays it out: the word
    after the magic counts as a header size when it lies between 12 and
    100, and then the version and the two file counts follow and four
    more bytes are skipped; otherwise the manifest has version 1 and
    that word is the total file count.  The constructor throws, a
    [RangeError], exactly when the buffer ends inside the header; in
    every other case it returns, with the two counts of the header and
    the entries of the blocks read from the end of the header on: a
    block that cannot be read ends the loop without an exception, and a
    buffer of 24 bytes or more never throws. *)
Theorem rootFile_parse_mfst (b : list byte) :
  subarray b 0 4 = ascii_bytes "MFST" ->
  (forall e, mfstHeader b = Throw e ->
     RootFile.parse b = Some (Throw RangeError))
  /\ (forall v t n o, mfstHeader b = Ok (v, t, n, o) ->
        exists entries,
          RootFile.parse b = Some (Ok (Root.mk entries t n))
          /\ RootFile.blocksLoop (S (length b)) v (negb (t =? n))
               (readerAt b o) [] = Some entries)
  /\ (24 <= blen b -> exists t, RootFile.parse b = Some (Ok t)).
Proof.
  intros Hm. rewrite (parse_MFST b Hm), parseMFST_at.
  assert (Hok : forall v t n o, mfstHeader b = Ok (v, t, n, o) ->
            exists entries,
              match RootFile.blocksLoop (S (length b)) v (negb (t =? n))
                      (readerAt b o) [] with
              | Some entries => Some (Ok (Root.mk entries t n))
              | None => None
              end = Some (Ok (Root.mk entries t n))
              /\ RootFile.blocksLoop (S (length b)) v (negb (t =? n))
                   (readerAt b o) [] = Some entries).
  { intros v t n o Hh. pose proof (mfstHeader_offset b v t n o Hh) as Ho.
    destruct (blocksLoop_total v (negb (t =? n)) (S (length b))
                (readerAt b o) []) as [entries Hloop].
    - cbn [readerAt BufferReader.buf BufferReader.offset]. unfold blen. lia.
    - exists entries. rewrite Hloop. split; reflexivity. }
  split; [| split].
  - intros e He. rewrite He. f_equal. f_equal. revert He. unfold mfstHeader.
    repeat match goal with
           | |- context [if ?c then _ else _] => destruct c
           end; congruence.
  - intros v t n o Hh. rewrite Hh. apply Hok. exact Hh.
  - intros Hlen. destruct (mfstHeader b) as [[[[v t] n] o] | e] eqn:Hh.
    + destruct (Hok v t n o eq_refl) as (entries & -> & _). eauto.
    + exfalso. revert Hh. unfold mfstHeader.
      destruct (Z.ltb_spec (blen b) 8); [lia |].
      destruct ((12 <=? _) && _).
      * destruct (Z.ltb_spec (blen b) 24); [lia | discriminate].
      * destruct (Z.ltb_spec (blen b) 12); [lia | discriminate].
Qed.

Lemma rootFile_parse_mfst_witness :
  exists t, RootFile.parse oneBlockManifest = Some (Ok t).
Proof.
  apply (rootFile_parse_mfst oneBlockManifest); [reflexivity |].
  vm_compute. discriminate.
Defined.

(** X19: which buffers the constructor of [RootFile] refuses for their
    format.  A buffer whose first four bytes are neither "MFST" nor
    "War3", and so every buffer of fewer than four bytes, throws "Not
    implemented format"; a buffer that begins with "War3" never throws,
    whatever follows. *)
Theorem rootFile_parse_formats (b : list byte) :
  (blen b < 4 ->
   RootFile.parse b = Some (Throw (Error "Not implemented format")))
  /\ (subarray b 0 4 <> ascii_bytes "MFST" ->
      subarray b 0 4 <> ascii_bytes "War3" ->
      RootFile.parse b = Some (Throw (Error "Not implemented format")))
  /\ (subarray b 0 4 = ascii_bytes "War3" ->
      RootFile.parse b = Some (Ok (Root.mk (Root.parseWar3 b 4) 0 0))).
Proof.
  assert (Hother : subarray b 0 4 <> ascii_bytes "MFST" ->
                   subarray b 0 4 <> ascii_bytes "War3" ->
                   RootFile.parse b
                   = Some (Throw (Error "Not implemented format"))).
  { intros H1 H2. unfold RootFile.parse.
    destruct (bytes_eqb (subarray b 0 4) (ascii_bytes "MFST")) eqn:E1;
      [apply bytes_eqb_eq in E1; contradiction |].
    destruct (bytes_eqb (subarray b 0 4) (ascii_bytes "War3")) eqn:E2;
      [apply bytes_eqb_eq in E2; contradiction |].
    reflexivity. }
  split; [| split; [exact Hother |]].
  - intros Hlen.
    assert (Hshort : (length (subarray b 0 4) < 4)%nat).
    { unfold subarray, blen in *. rewrite length_take, length_drop. lia. }
    apply Hother; intros Heq; rewrite Heq in Hshort; simpl in Hshort; lia.
  - intros Hw. unfold RootFile.parse. rewrite Hw. reflexivity.
Qed.

Lemma rootFile_parse_formats_witness :
  RootFile.parse (ascii_bytes "MFS")
    = Some (Throw (Error "Not implemented format"))
  /\ RootFile.parse (ascii_bytes "War3")
     = Some (Ok (Root.mk [] 0 0)).
Proof.
  split.
  - destruct (rootFile_parse_formats (ascii_bytes "MFS")) as (Hshort & _).
    apply Hshort. vm_compute. reflexivity.
  - destruct (rootFile_parse_formats (ascii_bytes "War3")) as (_ & _ & Hw).
    rewrite (Hw eq_refl). reflexivity.
Defined.




(** *** [hashString] and [getLocales] *)

Lemma toInt32_add_mul (a k : Z) : toInt32 (a + k * 2 ^ 32) = toInt32 a.
Proof. unfold toInt32. rewrite Z.mod_add by lia. reflexivity. Qed.

Lemma toInt32_ex (a : Z) : exists k, toInt32 a = a + k * 2 ^ 32.
Proof.
  unfold toInt32. cbv zeta.
  pose proof (Z.div_mod a (2 ^ 32) ltac:(lia)) as Hdm.
  destruct (2 ^ 31 <=? a mod 2 ^ 32).
  - exists (- (a / 2 ^ 32) - 1). lia.
  - exists (- (a / 2 ^ 32)). lia.
Qed.

Lemma hashStep_poly (P c : Z) :
  Root.hashStep (toInt32 P) c = toInt32 (31 * P + c).
Proof.
  unfold Root.hashStep. rewrite Z.shiftl_mul_pow2 by lia.
  destruct (toInt32_ex P) as [k1 H1].
  destruct (toInt32_ex (toInt32 P * 2 ^ 5)) as [k2 H2].
  rewrite H2, H1.
  replace ((P + k1 * 2 ^ 32) * 2 ^ 5 + k2 * 2 ^ 32 - (P + k1 * 2 ^ 32) + c)
    with (31 * P + c + (31 * k1 + k2) * 2 ^ 32) by lia.
  apply toInt32_add_mul.
Qed.

Lemma hash_fold (cs : list Z) :
  forall P : Z,
    fold_left Root.hashStep cs (toInt32 P)
    = toInt32 (fold_left (fun h c => 31 * h + c) cs P).
Proof.
  induction cs as [|c cs IH]; intros P; simpl; [reflexivity |].
  rewrite hashStep_poly. apply IH.
Qed.

(** X21: [hashString] is the polynomial hash with multiplier 31 of the
    character codes, wrapped to a signed 32-bit integer, in absolute
    value.  It lies between 0 and [2 ^ 31], the upper bound included:
    the absolute value of the least 32-bit integer is not a 32-bit
    integer. *)
Theorem hashString_spec (s : string) :
  Root.hashString s = Z.abs (toInt32 (polyHash s))
  /\ 0 <= Root.hashString s <= 2 ^ 31.
Proof.
  assert (H : Root.hashString s = Z.abs (toInt32 (polyHash s))).
  { unfold Root.hashString, polyHash.
    change 0 with (toInt32 0) at 1. rewrite hash_fold. reflexivity. }
  split; [exact H |]. rewrite H.
  pose proof (toInt32_range (polyHash s)). lia.
Qed.

Lemma land_pow2 (x k : Z) :
  0 <= k -> (Z.land x (2 ^ k) =? 0) = negb (Z.testbit x k).
Proof.
  intros Hk.
  assert (H : Z.land x (2 ^ k) = if Z.testbit x k then 2 ^ k else 0).
  { apply Z.bits_inj'. intros n Hn. rewrite Z.land_spec, Z.pow2_bits_eqb by lia.
    destruct (Z.eqb_spec k n) as [-> | Hne].
    - destruct (Z.testbit x n) eqn:Hx; cbn [andb].
      + rewrite Z.pow2_bits_true by lia. reflexivity.
      + rewrite Z.bits_0. reflexivity.
    - rewrite andb_false_r. destruct (Z.testbit x k).
      + rewrite Z.pow2_bits_false by lia. reflexivity.
      + rewrite Z.bits_0. reflexivity. }
  rewrite H. destruct (Z.testbit x k); cbn [negb].
  - apply Z.eqb_neq. pose proof (Z.pow_pos_nonneg 2 k). lia.
  - reflexivity.
Qed.

Lemma toInt32_testbit (v k : Z) :
  0 <= k < 32 -> Z.testbit (toInt32 v) k = Z.testbit v k.
Proof.
  intros Hk. destruct (toInt32_ex v) as [j Hj].
  rewrite <- (Z.mod_pow2_bits_low (toInt32 v) 32 k) by lia.
  rewrite Hj, Z.mod_add by lia.
  apply Z.mod_pow2_bits_low. lia.
Qed.

Lemma hasBit_testbit (flag k : Z) :
  0 <= k < 32 -> Root.hasBit flag (2 ^ k) = Z.testbit flag k.
Proof.
  intros Hk. unfold Root.hasBit.
  rewrite land_pow2 by lia. rewrite negb_involutive.
  apply toInt32_testbit. exact Hk.
Qed.

(** X22: of a numeric locale mask, [getLocales] reads bits 1, 2 and 4
    to 16: each locale is set exactly when its bit is, whatever the
    other bits of the number are, and [plPL] is never set. *)
Theorem getLocales_bits (flag : Z) :
  let l := Root.getLocales (Root.LocaleNumber flag) in
  Root.enUS l = Z.testbit flag 1 /\ Root.koKR l = Z.testbit flag 2
  /\ Root.frFR l = Z.testbit flag 4 /\ Root.deDE l = Z.testbit flag 5
  /\ Root.zhCN l = Z.testbit flag 6 /\ Root.esES l = Z.testbit flag 7
  /\ Root.zhTW l = Z.testbit flag 8 /\ Root.enGB l = Z.testbit flag 9
  /\ Root.enCN l = Z.testbit flag 10 /\ Root.enTW l = Z.testbit flag 11
  /\ Root.esMX l = Z.testbit flag 12 /\ Root.ruRU l = Z.testbit flag 13
  /\ Root.ptBR l = Z.testbit flag 14 /\ Root.itIT l = Z.testbit flag 15
  /\ Root.ptPT l = Z.testbit flag 16 /\ Root.plPL l = false.
Proof.
  cbv zeta. unfold Root.getLocales.
  cbn [Root.enUS Root.koKR Root.frFR Root.deDE Root.zhCN Root.esES Root.zhTW
       Root.enGB Root.enCN Root.enTW Root.esMX Root.ruRU Root.ptBR Root.itIT
       Root.ptPT Root.plPL].
  repeat split;
    match goal with
    | |- Root.hasBit _ ?m = Z.testbit _ ?k =>
        change m with (2 ^ k); apply hasBit_testbit; lia
    end.
Qed.

Lemma prefix_refl (s : string) : String.prefix s s = true.
Proof.
  induction s as [|c s IH]; simpl; [reflexivity |].
  destruct (ascii_dec c c); [exact IH | contradiction].
Qed.

Lemma includes_refl (s : string) : JsString.includes s s = true.
Proof.
  destruct s as [|c s]; [reflexivity |].
  cbn [JsString.includes]. rewrite prefix_refl. reflexivity.
Qed.

Lemma lowerChar_backslash (c : ascii) :
  c <> "\"%char -> JsString.lowerChar c <> "\"%char.
Proof.
  intros Hc.
  destruct c as [[] [] [] [] [] [] [] []];
    first [vm_compute; discriminate | exfalso; apply Hc; reflexivity].
Qed.

Lemma toLowerCase_noBackslash (s : string) :
  Forall (fun c => c <> "\"%char) (list_ascii_of_string s) ->
  Forall (fun c => c <> "\"%char)
    (list_ascii_of_string (JsString.toLowerCase s)).
Proof.
  induction s as [|c s IH]; simpl; intros H; [constructor |].
  inversion H; subst. constructor; [apply lowerChar_backslash | apply IH];
    assumption.
Qed.

Lemma replaceBackslashRun_id (s : string) :
  Forall (fun c => c <> "\"%char) (list_ascii_of_string s) ->
  JsString.replaceBackslashRun s = s.
Proof.
  induction s as [|c s IH]; simpl; intros H; [reflexivity |].
  inversion H as [|? ? Hc Hs]; subst.
  destruct (Ascii.eqb_spec c "\"%char); [contradiction |].
  rewrite IH by exact Hs. reflexivity.
Qed.

Lemma elem_filter {A : Type} (p : A -> bool) (l : list A) (x : A) :
  x ∈ l -> p x = true -> x ∈ List.filter p l.
Proof.
  intros Hin Hp. induction l as [|y l IH]; simpl.
  - apply elem_of_nil in Hin. contradiction.
  - apply elem_of_cons in Hin as [<- | Hin].
    + rewrite Hp. apply elem_of_cons. left. reflexivity.
    + destruct (p y); [apply elem_of_cons; right |]; apply IH; exact Hin.
Qed.

(** X23: an entry of a War3 manifest is found by its own path, in any
    case, when the path has no backslash: the path is stored lower-cased
    and otherwise as it is, and the query is lower-cased and, for want of
    a backslash, otherwise left as it is. *)
Theorem getEntryByPath_finds (t : Root.t) (e : Root.RootEntry)
    (filePath query : string) :
  e ∈ Root.entries t ->
  Root._normalizedPath e = Some (JsString.toLowerCase filePath) ->
  JsString.toLowerCase query = JsString.toLowerCase filePath ->
  Forall (fun c => c <> "\"%char) (list_ascii_of_string query) ->
  e ∈ Root.getEntryByPath t query.
Proof.
  intros He Hpath Hq Hnb. unfold Root.getEntryByPath.
  apply elem_filter; [exact He |].
  unfold Root.matchesPath, Root.normalizeQuery. rewrite Hpath.
  rewrite replaceBackslashRun_id by (apply toLowerCase_noBackslash; exact Hnb).
  rewrite Hq. apply includes_refl.
Qed.

Lemma getEntryByPath_finds_witness :
  pathEntry "a/b/c" ∈ Root.getEntryByPath slashManifest "A/b/C".
Proof.
  apply (getEntryByPath_finds slashManifest (pathEntry "a/b/c") "a/b/c" "A/b/C").
  - apply elem_of_cons. left. reflexivity.
  - reflexivity.
  - reflexivity.
  - repeat constructor; discriminate.
Defined.

(** ** Client (client.ts) *)

(** *** The batches of [loadArchives] *)

Lemma batchesFrom_spec (archives : list string) (n : nat) :
  forall i : nat,
    (length archives - i <= n * CascClient.batchSize)%nat ->
    concat (CascClient.batchesFrom n i archives) = drop i archives
    /\ Forall (fun b => (0 < length b <= CascClient.batchSize)%nat)
         (CascClient.batchesFrom n i archives)
    /\ (length (CascClient.batchesFrom n i archives) * CascClient.batchSize
        < length archives - i + CascClient.batchSize)%nat.
Proof.
  unfold CascClient.batchSize.
  induction n as [|n IH]; intros i Hn; cbn [CascClient.batchesFrom].
  - rewrite drop_ge by lia. split; [reflexivity |].
    split; [constructor | simpl; lia].
  - destruct (Nat.ltb_spec i (length archives)) as [Hi | Hi].
    + destruct (IH (i + 10)%nat) as (Hcat & Hall & Hcount); [lia |].
      cbn [concat length]. unfold CascClient.batchSize. rewrite Hcat.
      split; [| split].
      * rewrite <- (take_drop 10 (drop i archives)) at 2.
        rewrite drop_drop. reflexivity.
      * constructor; [| exact Hall].
        rewrite length_take, length_drop. lia.
      * lia.
    + rewrite drop_ge by lia. split; [reflexivity |].
      split; [constructor | simpl; lia].
Qed.

(** X24: [loadArchives] cuts the archive list into batches that, put
    end to end, are the list again, so every archive index is loaded
    once; every batch has between one and ten archives, and there are
    as many batches as tens in the length, rounded up. *)
Theorem archiveBatches_cover (archives : list string) :
  concat (CascClient.archiveBatches archives) = archives
  /\ Forall (fun b => (0 < length b <= 10)%nat)
       (CascClient.archiveBatches archives)
  /\ length (CascClient.archiveBatches archives)
     = ((length archives + 9) / 10)%nat.
Proof.
  unfold CascClient.archiveBatches.
  destruct (batchesFrom_spec archives (length archives) 0)
    as (Hcat & Hall & Hcount); [unfold CascClient.batchSize; lia |].
  split; [exact Hcat |]. split; [exact Hall |].
  unfold CascClient.batchSize in Hcount.
  assert (Hsum : (length (concat (CascClient.batchesFrom (length archives) 0
                                    archives))
                  <= 10 * length (CascClient.batchesFrom (length archives) 0
                                    archives))%nat).
  { clear Hcat Hcount. induction Hall as [|b bs Hb Hbs IH]; simpl; [lia |].
    rewrite length_app. unfold CascClient.batchSize in Hb. lia. }
  rewrite Hcat in Hsum. change (drop 0 archives) with archives in Hsum.
  set (k := length (CascClient.batchesFrom (length archives) 0 archives)) in *.
  apply (Nat.div_unique _ 10 k (length archives + 9 - 10 * k)); lia.
Qed.

(** *** Loading an archive index *)


Lemma mergeEntries_last (es2 : list Indices.IndexEntry) :
  forall (m : gmap string Indices.IndexEntry) (e : Indices.IndexEntry),
    m !! Indices.eKey e = Some e ->
    Forall (fun e' => Indices.eKey e' <> Indices.eKey e) es2 ->
    CascClient.mergeEntries m es2 !! Indices.eKey e = Some e.
Proof.
  unfold CascClient.mergeEntries.
  induction es2 as [|e0 es2 IH]; intros m e Hm Hall; cbn [fold_left];
    [exact Hm |].
  inversion Hall as [|? ? Hne Hrest]; subst.
  apply IH; [| exact Hrest]. rewrite lookup_insert_ne by exact Hne. exact Hm.
Qed.



(** X26: the entries of an index are put into the map one after the
    other, so of several entries with the same eKey the last one stays:
    it replaces both the earlier ones of the same index and an entry
    that the map held before. *)
Theorem mergeEntries_last_wins (m : gmap string Indices.IndexEntry)
    (es1 es2 : list Indices.IndexEntry) (e : Indices.IndexEntry) :
  Forall (fun e' => Indices.eKey e' <> Indices.eKey e) es2 ->
  CascClient.mergeEntries m (es1 ++ e :: es2) !! Indices.eKey e = Some e.
Proof.
  intros Hall. unfold CascClient.mergeEntries.
  rewrite fold_left_app. cbn [fold_left].
  apply mergeEntries_last; [apply lookup_insert_eq | exact Hall].
Qed.

Lemma mergeEntries_last_wins_witness :
  CascClient.mergeEntries {[ "cc"%string := looseLocation ]}
    [zeroEntry; Indices.mkEntry "cc" 1 2 "ab" Indices.archive; goodEntry]
    !! "cc"%string
  = Some (Indices.mkEntry "cc" 1 2 "ab" Indices.archive).
Proof.
  apply (mergeEntries_last_wins {[ "cc"%string := looseLocation ]}
           [zeroEntry] [goodEntry]
           (Indices.mkEntry "cc" 1 2 "ab" Indices.archive)).
  repeat constructor. discriminate.
Defined.

(** *** The choice of the CDN *)

Lemma selectCdn_cases (cdnList : list CascClient.CDNLine) (region : string) :
  match CascClient.selectCdn cdnList region with
  | Throw e => e = Error "No CDN found for product" /\ cdnList = []
  | Ok c =>
      c ∈ cdnList
      /\ ((exists c', c' ∈ cdnList /\ CascClient.Name c' = region) ->
          CascClient.Name c = region)
      /\ ((exists c', c' ∈ cdnList /\ CascClient.Name c' = "eu"%string) ->
          CascClient.Name c = region \/ CascClient.Name c = "eu"%string)
  end.
Proof.
  unfold CascClient.selectCdn.
  destruct (find (CascClient.hasName region) cdnList) as [c |] eqn:Hregion.
  - apply find_elem in Hregion as [Hin Hname].
    unfold CascClient.hasName in Hname. apply String.eqb_eq in Hname.
    split; [exact Hin |]. split; [intros _; exact Hname |].
    intros _. left. exact Hname.
  - rewrite find_none in Hregion.
    assert (Hno : ~ exists c', c' ∈ cdnList /\ CascClient.Name c' = region).
    { intros (c' & Hin & Hname). specialize (Hregion c' Hin).
      unfold CascClient.hasName in Hregion. rewrite Hname in Hregion.
      rewrite String.eqb_refl in Hregion. discriminate. }
    destruct (find (CascClient.hasName "eu") cdnList) as [c |] eqn:Heu.
    + apply find_elem in Heu as [Hin Hname].
      unfold CascClient.hasName in Hname. apply String.eqb_eq in Hname.
      split; [exact Hin |]. split; [intros H; contradiction |].
      intros _. right. exact Hname.
    + rewrite find_none in Heu.
      destruct cdnList as [|c0 rest]; cbn [lookup list_lookup].
      * split; reflexivity.
      * split; [apply elem_of_cons; left; reflexivity |].
        split; [intros H; contradiction |].
        intros (c' & Hin & Hname). exfalso. specialize (Heu c' Hin).
        unfold CascClient.hasName in Heu. rewrite Hname in Heu.
        discriminate.
Qed.

(** X27: the two choices of [init].  It fails with "No CDN found for
    product" exactly when the CDN list is empty; otherwise the CDN it
    chooses is an entry of the list: one named after the region when
    there is one, else one named "eu" when there is one.  The hash of
    the encoding file is a token of the [encoding] field of the build
    config, the second one when the field has a space, and it is never
    empty: [init] fails with "No encoding file hash found" instead. *)
Theorem init_choices (cdnList : list CascClient.CDNLine) (region : string)
    (encodingField : option string) :
  match CascClient.selectCdn cdnList region with
  | Throw e => e = Error "No CDN found for product" /\ cdnList = []
  | Ok c =>
      c ∈ cdnList
      /\ ((exists c', c' ∈ cdnList /\ CascClient.Name c' = region) ->
          CascClient.Name c = region)
      /\ ((exists c', c' ∈ cdnList /\ CascClient.Name c' = "eu"%string) ->
          CascClient.Name c = region \/ CascClient.Name c = "eu"%string)
  end
  /\ match CascClient.selectEncodingHash encodingField with
     | Throw e => e = Error "No encoding file hash found"
     | Ok h =>
         h <> EmptyString
         /\ exists s, encodingField = Some s
              /\ h ∈ JsString.split " " s
              /\ (forall second, JsString.split " " s !! 1%nat = Some second ->
                    h = second)
     end.
Proof.
  split.
  - apply selectCdn_cases.
  - unfold CascClient.selectEncodingHash.
    destruct encodingField as [s |]; [| reflexivity].
    destruct (JsString.split " " s) as [|a [|b rest]] eqn:Hsplit;
      cbn [length Nat.ltb Nat.leb lookup list_lookup]; [reflexivity | |].
    + destruct (String.eqb_spec a EmptyString) as [| Hne]; [reflexivity |].
      split; [exact Hne |]. exists s. split; [reflexivity |].
      rewrite Hsplit.
      split; [apply elem_of_cons; left; reflexivity |].
      intros second Hsecond. discriminate.
    + destruct (String.eqb_spec b EmptyString) as [| Hne]; [reflexivity |].
      split; [exact Hne |]. exists s. split; [reflexivity |].
      rewrite Hsplit.
      split; [apply elem_of_cons; right; apply elem_of_cons; left; reflexivity |].
      intros second [= <-]. reflexivity.
Qed.

Lemma init_choices_witness :
  CascClient.Name euCdn = "us"%string \/ CascClient.Name euCdn = "eu"%string.
Proof.
  pose proof (init_choices [euCdn] "us" None) as [H _].
  change (CascClient.selectCdn [euCdn] "us") with (Ok euCdn) in H.
  destruct H as (_ & _ & H). apply H. exists euCdn.
  split; [apply elem_of_cons; left |]; reflexivity.
Defined.

(** *** Fetching a file by its content key *)

(** X28: [getEKeyFileByCKey] requests the candidate eKeys from the CDN
    in their order and stops at the first one that is delivered: the
    requests made are a prefix of the candidates, every request before
    the last one of a successful call failed, and a call that returns
    nothing has tried every candidate.  With the encoding table loaded
    it never throws. *)
Theorem getEKeyFileByCKey_first
    (cdn : nat -> string -> option (list byte))
    (this : Client.t) (cKey : string) (eKeys : list string)
    (log : Client.FetchLog) :
  Client.getEKeyByCKey this cKey = Ok eKeys ->
  exists (n : nat) (res : option (list byte)),
    CascClient.getEKeyFileByCKey cdn this cKey log
      = Some (Ok res, log ++ take n eKeys)
    /\ (n <= length eKeys)%nat
    /\ match res with
       | Some buffer =>
           exists n' k, n = S n' /\ eKeys !! n' = Some k
                        /\ cdn (length log + n')%nat k = Some buffer
       | None => n = length eKeys
       end
    /\ (forall j k, (S j < n \/ (res = None /\ j < n))%nat ->
          eKeys !! j = Some k -> cdn (length log + j)%nat k = None).
Proof.
  intros Hkeys. unfold CascClient.getEKeyFileByCKey. rewrite Hkeys.
  clear Hkeys. revert log.
  induction eKeys as [|eKey eKeys IH]; intros log;
    cbn [CascClient.firstFetched].
  - exists 0%nat, None. unfold Client.ret. rewrite app_nil_r.
    split; [reflexivity |]. split; [simpl; lia |]. split; [reflexivity |].
    intros j k Hj. lia.
  - unfold Client.bind, Client.fetchDirectFromCDN.
    destruct (cdn (length log) eKey) as [buffer |] eqn:Hfetch.
    + exists 1%nat, (Some buffer). unfold Client.ret.
      split; [reflexivity |]. split; [simpl; lia |]. split.
      * exists 0%nat, eKey. rewrite Nat.add_0_r. auto.
      * intros j k [Hj | [Hj _]]; [lia | discriminate].
    + destruct (IH (log ++ [eKey])) as (n & res & Hrun & Hn & Hres & Hfail).
      exists (S n), res. rewrite Hrun.
      split; [cbn [take]; rewrite <- app_assoc; reflexivity |].
      split; [simpl; lia |]. split.
      * destruct res as [buffer |].
        -- destruct Hres as (n' & k & -> & Hk & Hcdn).
           exists (S n'), k. split; [reflexivity |]. split; [exact Hk |].
           rewrite length_app in Hcdn. cbn [length] in Hcdn.
           replace (length log + S n')%nat with (length log + 1 + n')%nat
             by lia. exact Hcdn.
        -- simpl. lia.
      * intros [|j] k Hj Hk.
        -- cbn in Hk. injection Hk as <-. rewrite Nat.add_0_r. exact Hfetch.
        -- cbn in Hk. specialize (Hfail j k).
           rewrite length_app in Hfail. cbn [length] in Hfail.
           replace (length log + S j)%nat with (length log + 1 + j)%nat
             by lia.
           apply Hfail; [| exact Hk].
           destruct Hj as [Hj | [Hnone Hj]]; [left; lia | right; split; [exact Hnone | lia]].
Qed.

Lemma getEKeyFileByCKey_first_witness :
  exists (n : nat) (res : option (list byte)),
    CascClient.getEKeyFileByCKey secondOnlyCdn candidateClient "ck" []
      = Some (Ok res, take n ["e0"%string; "e2"%string; "e1"%string])
    /\ (n <= 3)%nat.
Proof.
  destruct (getEKeyFileByCKey_first secondOnlyCdn candidateClient "ck"
              ["e0"%string; "e2"%string; "e1"%string] [])
    as (n & res & Hrun & Hn & _); [reflexivity |].
  exists n, res. split; [exact Hrun | exact Hn].
Defined.

(** X29: [getFile] reads the file from the first candidate eKey that
    the index map knows, and from no other.  Without such a candidate
    it returns [null] and requests nothing.  Otherwise it makes exactly
    one request, for the archive of that location; when the request
    fails it throws "Error getting data block", and later candidates are
    not tried; when it succeeds, the result is the decoding of the bytes
    [offset .. offset + size) of the archive. *)
Theorem getFile_first_located
    (codecs : Codecs) (cdn : nat -> string -> option (list byte))
    (this : Client.t) (cKey : string) (eKeys : list string)
    (log : Client.FetchLog) :
  Client.getEKeyByCKey this cKey = Ok eKeys ->
  Client.getFile codecs cdn this cKey log
  = match head (Client.resolvedLocations this eKeys) with
    | None => Some (Ok None, log)
    | Some loc =>
        let log' := log ++ [Indices.archiveHash loc] in
        match cdn (length log) (Indices.archiveHash loc) with
        | None => Some (Throw (Error "Error getting data block"), log')
        | Some buffer =>
            match BLTE.decode codecs
                    (subarray buffer (Indices.offset loc)
                       (Indices.offset loc + Indices.size loc)) with
            | Some (Ok data) => Some (Ok (Some data), log')
            | Some (Throw e) => Some (Throw e, log')
            | None => None
            end
        end
    end.
Proof.
  intros Hkeys. unfold Client.getFile. rewrite Hkeys. clear Hkeys.
  unfold Client.resolvedLocations.
  induction eKeys as [|eKey eKeys IH]; cbn [Client.getFileLoop omap list_omap];
    [reflexivity |].
  destruct (Client.getLocation this eKey) as [loc |]; [| exact IH].
  cbn [head]. cbv zeta.
  unfold Client.bind, Client.fetchDirectFromCDN, Client.decodeSlice,
    Client.throw, Client.ret.
  destruct (cdn (length log) (Indices.archiveHash loc)) as [buffer |];
    [| reflexivity].
  destruct (BLTE.decode codecs _) as [[data | e] |]; reflexivity.
Qed.

Lemma getFile_first_located_witness :
  Client.getFile noCodecs twinCdn candidateClient "ck" []
    = Some (Ok (Some (ascii_bytes "hello")), ["ar2"%string]).
Proof.
  rewrite (getFile_first_located noCodecs twinCdn candidateClient "ck"
             ["e0"%string; "e2"%string; "e1"%string] []);
    [| reflexivity].
  vm_compute. reflexivity.
Defined.

(** *** The results of [getFiles] *)










